(** * browser-macro: capture-and-replay engine

    A shallow embedding of the recorder/replayer of the browser-macro
    extension, and the properties of its specification that can be
    settled on it.

    Layout, following the repository:
    - shared/models.ts          : the data model (modules [Step], [Task], ...)
    - background/storage.ts     : the persisted collections
    - background/logger.ts      : run logs
    - background/runner.ts      : the Flow Runner
    - background/index.ts       : message handlers of the service worker
    - content/selectors.ts      : locator synthesis over a DOM tree
    - content/executor.ts       : the Step Executor of the page side

    Conventions of the embedding.
    - Asynchronous functions are computations in a state-and-exception
      monad ([Async]): an [await] is a bind, a rejected promise is
      [Thrown], and the state reached before a throw is kept, as in
      JavaScript.
    - chrome.storage.local is a record with one field per key; a key
      that was never written reads as its fallback (the empty list).
      Storage calls are taken to complete without [lastError].
    - Values that cross chrome.storage or chrome.tabs are copied
      (structured clone), so the store holds snapshots, not aliases. *)

From stdpp Require Import base option list gmap strings pretty.
From Stdlib Require Import ZArith Ascii.

Set Default Proof Using "Type".

(** ** shared/models.ts *)

Inductive StepType :=
  | Click | Input | Wait | Submit | CustomJs
  | Unsupported (name : string). (* any other string met at run time *)

Module SelectorInfo.
Record t := mk {
  css : option string;
  xpath : option string;
  textSnapshot : option string;
  attributes : option (list (string * string))
}.
End SelectorInfo.

Module Step.
Record t := mk {
  id : string;
  name : option string;
  type : StepType;
  selector : option SelectorInfo.t;
  value : option string;
  waitMs : option Z;
  urlPattern : option string;
  meta : option (gmap string string)
}.
End Step.

Module Task.
Record t := mk {
  id : string;
  name : string;
  description : option string;
  steps : list Step.t;
  createdAt : string;
  updatedAt : string;
  tags : option (list string)
}.
End Task.

Module Flow.
Record t := mk {
  id : string;
  name : string;
  description : option string;
  taskIds : list string;
  autoRunUrlPatterns : option (list string);
  enabled : bool;
  createdAt : string;
  updatedAt : string
}.
End Flow.

Inductive TriggerType := Manual | Url | Shortcut.

(** [TriggerType | "direct"] *)
Inductive TriggeredBy := ByTrigger (t : TriggerType) | Direct.

Module Trigger.
Record t := mk {
  id : string;
  type : TriggerType;
  flowId : string;
  urlPattern : option string;
  shortcutName : option string;
  enabled : bool
}.
End Trigger.

Inductive RunStatus := Success | Failed | Partial.

Module StepRunLog.
Record t := mk {
  stepId : string;
  stepName : option string;
  status : RunStatus;
  startedAt : string;
  finishedAt : string;
  errorMessage : option string
}.
End StepRunLog.

Module FlowRunLog.
Record t := mk {
  id : string;
  flowId : string;
  flowName : option string;
  triggeredBy : TriggeredBy;
  startedAt : string;
  finishedAt : string;
  status : RunStatus;
  stepLogs : list StepRunLog.t;
  urlAtStart : option string
}.
End FlowRunLog.

(** ** The monad of asynchronous functions *)

Inductive Outcome (A : Type) :=
  | Returned (a : A)
  | Thrown (message : string).
Arguments Returned {A} a.
Arguments Thrown {A} message.

Definition Async (S A : Type) : Type := S → Outcome A * S.

Definition throw {S A} (message : string) : Async S A := λ s, (Thrown message, s).

(** [await m] followed by the rest of the function: stdpp's monad
    notations [x ← m; k] and [m;; k] are used for it. *)
Global Instance async_ret {S} : MRet (Async S) := λ A a s, (Returned a, s).

Global Instance async_bind {S} : MBind (Async S) := λ A B k m s,
  match m s with
  | (Returned a, s') => k a s'
  | (Thrown e, s') => (Thrown e, s')
  end.

(** [try { m } catch (error) { h error.message }] *)
Definition try_catch {S A} (m : Async S A) (h : string → Async S A) : Async S A :=
  λ s, match m s with
       | (Returned a, s') => (Returned a, s')
       | (Thrown e, s') => h e s'
       end.

Definition gets {S A} (f : S → A) : Async S A := λ s, (Returned (f s), s).

Definition modify {S} (f : S → S) : Async S unit := λ s, (Returned tt, f s).

(** [Array.prototype.findIndex]; [None] stands for -1. *)
Fixpoint findIndex {A} (p : A → bool) (l : list A) : option nat :=
  match l with
  | [] => None
  | x :: l' => if p x then Some 0 else S <$> findIndex p l'
  end.

(** [Array.prototype.find] *)
Fixpoint find {A} (p : A → bool) (l : list A) : option A :=
  match l with
  | [] => None
  | x :: l' => if p x then Some x else find p l'
  end.

(** The common shape of the save and upsert functions of storage.ts:
    [idx = xs.findIndex(p); if (idx >= 0) xs[idx] = x; else xs.push(x)]. *)
Definition upsert {A} (p : A → bool) (x : A) (xs : list A) : list A :=
  match findIndex p xs with
  | Some idx => <[idx := x]> xs
  | None => xs ++ [x]
  end.

(** ** background/storage.ts *)

Module RecordingBuffer.
Record t := mk {
  tabId : Z;
  sessionId : string;
  steps : list Step.t;
  startedAt : string
}.
End RecordingBuffer.

Module ConversationState.
Inductive Role := User | Assistant.
Record t := mk {
  conversationId : string;
  history : list (Role * string);
  tabId : Z;
  isActive : bool
}.
End ConversationState.

(** [StoragePayload], without [llmSettings], which nothing here reads. *)
Module Storage.
Record t := mk {
  tasks : list Task.t;
  flows : list Flow.t;
  logs : list FlowRunLog.t;
  triggers : list Trigger.t;
  recordingBuffers : list RecordingBuffer.t;
  conversationStates : list ConversationState.t
}.

Definition empty : t := mk [] [] [] [] [] [].

(** [setToStorage(key, value)], one setter per key *)
Definition set_tasks (v : list Task.t) (s : t) : t :=
  mk v (flows s) (logs s) (triggers s) (recordingBuffers s) (conversationStates s).
Definition set_flows (v : list Flow.t) (s : t) : t :=
  mk (tasks s) v (logs s) (triggers s) (recordingBuffers s) (conversationStates s).
Definition set_logs (v : list FlowRunLog.t) (s : t) : t :=
  mk (tasks s) (flows s) v (triggers s) (recordingBuffers s) (conversationStates s).
Definition set_triggers (v : list Trigger.t) (s : t) : t :=
  mk (tasks s) (flows s) (logs s) v (recordingBuffers s) (conversationStates s).
Definition set_recordingBuffers (v : list RecordingBuffer.t) (s : t) : t :=
  mk (tasks s) (flows s) (logs s) (triggers s) v (conversationStates s).
Definition set_conversationStates (v : list ConversationState.t) (s : t) : t :=
  mk (tasks s) (flows s) (logs s) (triggers s) (recordingBuffers s) v.
End Storage.

Definition saveTask (task : Task.t) (s : Storage.t) : Storage.t :=
  Storage.set_tasks
    (upsert (λ t, bool_decide (Task.id t = Task.id task)) task (Storage.tasks s)) s.

Definition deleteTask (taskId : string) (s : Storage.t) : Storage.t :=
  Storage.set_tasks (filter (λ t, Task.id t ≠ taskId) (Storage.tasks s)) s.

Definition saveFlow (flow : Flow.t) (s : Storage.t) : Storage.t :=
  Storage.set_flows
    (upsert (λ f, bool_decide (Flow.id f = Flow.id flow)) flow (Storage.flows s)) s.

Definition deleteFlow (flowId : string) (s : Storage.t) : Storage.t :=
  Storage.set_flows (filter (λ f, Flow.id f ≠ flowId) (Storage.flows s)) s.

(** The write of one log taken alone; [upsertLog_start] and
    [upsertLog_resume] below split it at its await. *)
Definition upsertLog (log : FlowRunLog.t) (s : Storage.t) : Storage.t :=
  Storage.set_logs
    (upsert (λ l, bool_decide (FlowRunLog.id l = FlowRunLog.id log)) log (Storage.logs s)) s.

Definition saveTrigger (trigger : Trigger.t) (s : Storage.t) : Storage.t :=
  Storage.set_triggers
    (upsert (λ t, bool_decide (Trigger.id t = Trigger.id trigger)) trigger
       (Storage.triggers s)) s.

(** [deleteTrigger] has one await between its read and its write; the
    two halves are kept apart because [handleDeleteFlow] starts several
    calls before any of them resumes. *)
Definition deleteTrigger_next (triggerId : string) (triggers : list Trigger.t)
    : list Trigger.t :=
  filter (λ t, Trigger.id t ≠ triggerId) triggers.

Definition deleteTrigger (triggerId : string) (s : Storage.t) : Storage.t :=
  let triggers := Storage.triggers s in
  let next := deleteTrigger_next triggerId triggers in
  Storage.set_triggers next s.

Definition getRecordingBuffer (tabId : Z) (s : Storage.t) : option RecordingBuffer.t :=
  let buffers := Storage.recordingBuffers s in
  find (λ b, bool_decide (RecordingBuffer.tabId b = tabId)) buffers.

Definition upsertRecordingBuffer (buffer : RecordingBuffer.t) (s : Storage.t)
    : Storage.t :=
  Storage.set_recordingBuffers
    (upsert (λ b, bool_decide (RecordingBuffer.tabId b = RecordingBuffer.tabId buffer))
       buffer (Storage.recordingBuffers s)) s.

Definition removeRecordingBuffer (tabId : Z) (s : Storage.t) : Storage.t :=
  let buffers := Storage.recordingBuffers s in
  let next := filter (λ b, RecordingBuffer.tabId b ≠ tabId) buffers in
  Storage.set_recordingBuffers next s.

Definition saveConversationState (state : ConversationState.t) (s : Storage.t)
    : Storage.t :=
  Storage.set_conversationStates
    (upsert (λ c, bool_decide (ConversationState.conversationId c =
                               ConversationState.conversationId state))
       state (Storage.conversationStates s)) s.

(** [mergeById<T extends { id: string }>]: the constraint on [T] is a
    class, with the three entity types as its instances. *)
Class HasId (T : Type) := id_of : T → string.
Global Instance task_has_id : HasId Task.t := Task.id.
Global Instance flow_has_id : HasId Flow.t := Flow.id.
Global Instance trigger_has_id : HasId Trigger.t := Trigger.id.

(** A JavaScript [Map] keeps its entries in insertion order, and
    [map.set] on a key already present changes the value and leaves the
    entry where it is: an association list kept duplicate-free. *)
Fixpoint map_set {V} (k : string) (v : V) (m : list (string * V)) : list (string * V) :=
  match m with
  | [] => [(k, v)]
  | (k', v') :: m' =>
      if decide (k' = k) then (k, v) :: m' else (k', v') :: map_set k v m'
  end.

(** [Array.from(map.values())] *)
Definition map_values {V} (m : list (string * V)) : list V := m.*2.

Definition mergeById {T} `{HasId T} (base incoming : list T) : list T :=
  (* new Map(base.map((item) => [item.id, item])) *)
  let map := foldl (λ m item, map_set (id_of item) item m) [] base in
  (* for (const item of incoming) map.set(item.id, item) *)
  let map := foldl (λ m item, map_set (id_of item) item m) map incoming in
  map_values map.

Module ImportExportPayload.
(** The arrays are optional at run time: [importData] reads each of
    them as [payload.x ?? []]. *)
Record t := mk {
  version : Z;
  tasks : option (list Task.t);
  flows : option (list Flow.t);
  triggers : option (list Trigger.t)
}.
End ImportExportPayload.

Inductive ImportMode := MergeMode | ReplaceMode.

Definition exportData (s : Storage.t) : ImportExportPayload.t :=
  ImportExportPayload.mk 1 (Some (Storage.tasks s)) (Some (Storage.flows s))
    (Some (Storage.triggers s)).

(** The three writes of each [Promise.all] go to three different keys,
    so their order does not matter. *)
Definition importData (payload : ImportExportPayload.t) (mode : ImportMode)
    (s : Storage.t) : Storage.t :=
  match mode with
  | ReplaceMode =>
      Storage.set_triggers (default [] (ImportExportPayload.triggers payload))
        (Storage.set_flows (default [] (ImportExportPayload.flows payload))
           (Storage.set_tasks (default [] (ImportExportPayload.tasks payload)) s))
  | MergeMode =>
      let tasks := Storage.tasks s in
      let flows := Storage.flows s in
      let triggers := Storage.triggers s in
      Storage.set_triggers
        (mergeById triggers (default [] (ImportExportPayload.triggers payload)))
        (Storage.set_flows
           (mergeById flows (default [] (ImportExportPayload.flows payload)))
           (Storage.set_tasks
              (mergeById tasks (default [] (ImportExportPayload.tasks payload))) s))
  end.

(** ** The browser, as the service worker sees it

    What the extension cannot decide is read from oracles: the reply
    to the n-th message sent to a tab, the n-th reading of the clock,
    the n-th random token. Every message sent is kept in [sent], so
    that "was never attempted" can be stated. *)

Inductive TabMessage :=
  | ExecuteStep (step : Step.t)
  | StartRecording
  | StopRecording.

Inductive SendResult :=
  | Rejected (lastError : string)
  | Resolved (success : bool) (errorMessage : option string).

Inductive QueryResult :=
  | QueryFailed (lastError : string)
  | QueryTabs (tabs : list (option Z)). (* the [id] of each tab found *)

Module Chrome.
Record t := mk {
  respond : nat → Z → TabMessage → SendResult;
  sent : list (Z * TabMessage);
  activeTabs : QueryResult;
  isoAt : nat → string;
  clockReads : nat;
  tokenAt : nat → string;
  tokenDraws : nat
}.
End Chrome.

(** The service worker: the browser, the store, and the two
    module-level maps of background/index.ts. *)
Module Background.
Record t := mk {
  chrome : Chrome.t;
  storage : Storage.t;
  recordingBuffers : gmap Z RecordingBuffer.t;
  conversationStates : gmap string ConversationState.t
}.

Definition set_chrome (c : Chrome.t) (b : t) : t :=
  mk c (storage b) (recordingBuffers b) (conversationStates b).
Definition set_storage (s : Storage.t) (b : t) : t :=
  mk (chrome b) s (recordingBuffers b) (conversationStates b).
Definition set_recordingBuffers (m : gmap Z RecordingBuffer.t) (b : t) : t :=
  mk (chrome b) (storage b) m (conversationStates b).
Definition set_conversationStates (m : gmap string ConversationState.t) (b : t) : t :=
  mk (chrome b) (storage b) (recordingBuffers b) m.
End Background.

Abbreviation BG := (Async Background.t).

(** A storage function run by the service worker. *)
Definition onStorage (f : Storage.t → Storage.t) : BG unit :=
  modify (λ b, Background.set_storage (f (Background.storage b)) b).

(** shared/utils.ts *)
Definition nowIso : BG string := λ b,
  let c := Background.chrome b in
  (Returned (Chrome.isoAt c (Chrome.clockReads c)),
   Background.set_chrome
     (Chrome.mk (Chrome.respond c) (Chrome.sent c) (Chrome.activeTabs c)
        (Chrome.isoAt c) (S (Chrome.clockReads c))
        (Chrome.tokenAt c) (Chrome.tokenDraws c)) b).

Definition randomId (prefix : string) : BG string := λ b,
  let c := Background.chrome b in
  (Returned (prefix +:+ "-" +:+ Chrome.tokenAt c (Chrome.tokenDraws c)),
   Background.set_chrome
     (Chrome.mk (Chrome.respond c) (Chrome.sent c) (Chrome.activeTabs c)
        (Chrome.isoAt c) (Chrome.clockReads c)
        (Chrome.tokenAt c) (S (Chrome.tokenDraws c))) b).

(** The message is on its way to the tab. *)
Definition posted (tabId : Z) (message : TabMessage) (b : Background.t) : Background.t :=
  let c := Background.chrome b in
  Background.set_chrome
    (Chrome.mk (Chrome.respond c) (Chrome.sent c ++ [(tabId, message)])
       (Chrome.activeTabs c) (Chrome.isoAt c) (Chrome.clockReads c)
       (Chrome.tokenAt c) (Chrome.tokenDraws c)) b.

(** [chrome.tabs.sendMessage(tabId, message, callback)] behind a
    promise: the message is sent, and the promise rejects with
    [lastError] or resolves with the reply. *)
Definition tabs_sendMessage (tabId : Z) (message : TabMessage) : BG (bool * option string) :=
  λ b,
  let c := Background.chrome b in
  match Chrome.respond c (length (Chrome.sent c)) tabId message with
  | Rejected lastError => (Thrown lastError, posted tabId message b)
  | Resolved success errorMessage =>
      (Returned (success, errorMessage), posted tabId message b)
  end.

(** The same call without a callback: nothing is awaited. *)
Definition tabs_postMessage (tabId : Z) (message : TabMessage) : BG unit :=
  modify (posted tabId message).

(** ** background/logger.ts *)

Definition createFlowLog (flow : Flow.t) (triggeredBy : TriggeredBy)
    (urlAtStart : option string) : BG FlowRunLog.t :=
  id ← randomId "log";
  startedAt ← nowIso;
  finishedAt ← nowIso;
  mret (FlowRunLog.mk id (Flow.id flow) (Some (Flow.name flow)) triggeredBy
          startedAt finishedAt Partial [] urlAtStart).

(** [flowLog] is mutated in place by the source; here the updated log
    is the result. *)
Definition addStepLog (flowLog : FlowRunLog.t) (step : Step.t) (status : RunStatus)
    (errorMessage : option string) : BG FlowRunLog.t :=
  now ← nowIso;
  let stepLog := StepRunLog.mk (Step.id step) (Step.name step) status now now errorMessage in
  let flowLog := FlowRunLog.mk (FlowRunLog.id flowLog) (FlowRunLog.flowId flowLog)
      (FlowRunLog.flowName flowLog) (FlowRunLog.triggeredBy flowLog)
      (FlowRunLog.startedAt flowLog) (FlowRunLog.finishedAt flowLog)
      (FlowRunLog.status flowLog) (FlowRunLog.stepLogs flowLog ++ [stepLog])
      (FlowRunLog.urlAtStart flowLog) in
  onStorage (upsertLog flowLog);;
  mret flowLog.

Definition finalizeFlowLog (flowLog : FlowRunLog.t) (status : RunStatus) : BG unit :=
  finishedAt ← nowIso;
  let flowLog := FlowRunLog.mk (FlowRunLog.id flowLog) (FlowRunLog.flowId flowLog)
      (FlowRunLog.flowName flowLog) (FlowRunLog.triggeredBy flowLog)
      (FlowRunLog.startedAt flowLog) finishedAt status
      (FlowRunLog.stepLogs flowLog) (FlowRunLog.urlAtStart flowLog) in
  onStorage (upsertLog flowLog).

(** ** background/runner.ts *)

Definition sendStepToTab (tabId : Z) (step : Step.t) : BG (bool * option string) :=
  tabs_sendMessage tabId (ExecuteStep step).

Definition flattenSteps (flow : Flow.t) (tasksMap : gmap string (list Step.t))
    : list Step.t :=
  foldl (λ steps taskId, steps ++ default [] (tasksMap !! taskId)) [] (Flow.taskIds flow).

(** [chrome.tabs.query({ active: true, currentWindow: true })] and the
    test [!tabs[0]?.id], which also refuses the id 0. *)
Definition queryActiveTab : BG Z := λ b,
  match Chrome.activeTabs (Background.chrome b) with
  | QueryFailed lastError => (Thrown lastError, b)
  | QueryTabs (Some tabId :: _) =>
      if decide (tabId = 0%Z) then (Thrown "No active tab found", b)
      else (Returned tabId, b)
  | QueryTabs _ => (Thrown "No active tab found", b)
  end.

(** What the body of the [for] loop of [runFlow] does to the loop:
    go on with the next step, or [return]. *)
Inductive LoopExit := NextStep (flowLog : FlowRunLog.t) | ReturnNow.

Definition runFlow_body (tabId : Z) (flowLog : FlowRunLog.t) (step : Step.t)
    : BG LoopExit :=
  try_catch
    ('(success, errorMessage) ← sendStepToTab tabId step;
     if success : bool then
       flowLog ← addStepLog flowLog step Success None;
       mret (NextStep flowLog)
     else
       flowLog ← addStepLog flowLog step Failed errorMessage;
       finalizeFlowLog flowLog Failed;;
       mret ReturnNow)
    (λ error,
       flowLog ← addStepLog flowLog step Failed (Some error);
       finalizeFlowLog flowLog Failed;;
       mret ReturnNow).

Fixpoint runFlow_loop (tabId : Z) (steps : list Step.t) (flowLog : FlowRunLog.t)
    : BG unit :=
  match steps with
  | [] => finalizeFlowLog flowLog Success
  | step :: steps =>
      exit ← runFlow_body tabId flowLog step;
      match exit with
      | NextStep flowLog => runFlow_loop tabId steps flowLog
      | ReturnNow => mret tt
      end
  end.

Definition runFlow (flowId : string) (explicitTabId : option Z)
    (triggeredBy : TriggeredBy) : BG unit :=
  flows ← gets (λ b, Storage.flows (Background.storage b));
  tasks ← gets (λ b, Storage.tasks (Background.storage b));
  match find (λ f, bool_decide (Flow.id f = flowId)) flows with
  | None => throw "Flow not found"
  | Some flow =>
      let tasksMap : gmap string (list Step.t) :=
        foldl (λ m t, <[Task.id t := Task.steps t]> m) ∅ tasks in
      let steps := flattenSteps flow tasksMap in
      tabId ← match explicitTabId with
              | Some tabId => mret tabId
              | None => queryActiveTab
              end;
      flowLog ← createFlowLog flow triggeredBy None;
      runFlow_loop tabId steps flowLog
  end.

(** ** background/index.ts *)

Inductive BackgroundResponse :=
  | RespState (recording : bool)
  | RespOk
  | RespSaved (saved : bool) (task : option Task.t)
  | RespError (message : string)
  | RespLlmTask (task : Task.t)
  | RespLlmConversation (conversationId response : string)
      (executedSteps : option (list Step.t)) (report : option string).

Definition getActiveTabId : BG Z := queryActiveTab.

(** [recordingBuffers.set], [.delete] and [.get] on the in-memory map *)
Definition cache_set (tabId : Z) (buffer : RecordingBuffer.t) : BG unit :=
  modify (λ b, Background.set_recordingBuffers
                 (<[tabId := buffer]> (Background.recordingBuffers b)) b).

Definition cache_delete (tabId : Z) : BG unit :=
  modify (λ b, Background.set_recordingBuffers
                 (delete tabId (Background.recordingBuffers b)) b).

Definition cache_get (tabId : Z) : BG (option RecordingBuffer.t) :=
  gets (λ b, Background.recordingBuffers b !! tabId).

Definition ensureRecordingBuffer (tabId : Z) : BG RecordingBuffer.t :=
  cached ← cache_get tabId;
  match cached with
  | Some cached => mret cached
  | None =>
      stored ← gets (λ b, getRecordingBuffer tabId (Background.storage b));
      match stored with
      | Some stored => cache_set tabId stored;; mret stored
      | None => throw "Recording is not active"
      end
  end.

Definition handleStartRecording : BG BackgroundResponse :=
  tabId ← getActiveTabId;
  sessionId ← randomId "rec";
  startedAt ← nowIso;
  let buffer := RecordingBuffer.mk tabId sessionId [] startedAt in
  cache_set tabId buffer;;
  onStorage (upsertRecordingBuffer buffer);;
  tabs_postMessage tabId StartRecording;;
  mret (RespState true).

(** [message.taskName || fallback] and the like: an absent or empty
    string gives way to the fallback. *)
Definition or_default (o : option string) (fallback : string) : string :=
  match o with
  | Some s => if decide (s = "") then fallback else s
  | None => fallback
  end.

Definition handleStopRecording (taskName description : option string)
    : BG BackgroundResponse :=
  tabId ← getActiveTabId;
  tabs_postMessage tabId StopRecording;;
  buffer ← gets (λ b, getRecordingBuffer tabId (Background.storage b));
  let steps := default [] (RecordingBuffer.steps <$> buffer) in
  match steps with
  | [] =>
      cache_delete tabId;;
      onStorage (removeRecordingBuffer tabId);;
      mret (RespSaved false None)
  | _ =>
      id ← randomId "task";
      createdAt ← nowIso;
      updatedAt ← nowIso;
      let newTask := Task.mk id (or_default taskName "Recorded Task") description
                       steps createdAt updatedAt None in
      onStorage (saveTask newTask);;
      cache_delete tabId;;
      onStorage (removeRecordingBuffer tabId);;
      mret (RespSaved true (Some newTask))
  end.

(** [resolvedBuffer.steps.push(step)] on a buffer value *)
Definition buffer_push (step : Step.t) (buffer : RecordingBuffer.t) : RecordingBuffer.t :=
  RecordingBuffer.mk (RecordingBuffer.tabId buffer) (RecordingBuffer.sessionId buffer)
    (RecordingBuffer.steps buffer ++ [step]) (RecordingBuffer.startedAt buffer).

Definition handleRecordStep (step : Step.t) (senderTabId : option Z)
    : BG BackgroundResponse :=
  match senderTabId with
  | None => mret (RespError "Tab not found for recording")
  | Some tabId =>
      buffer ← cache_get tabId;
      resolvedBuffer ← match buffer with
                       | Some buffer => mret buffer
                       | None => ensureRecordingBuffer tabId
                       end;
      let resolvedBuffer := buffer_push step resolvedBuffer in
      cache_set tabId resolvedBuffer;;
      onStorage (upsertRecordingBuffer resolvedBuffer);;
      mret RespOk
  end.

(** *** Deleting a flow

    [deleteTrigger] reads the trigger list as soon as it is called
    (the promise executor of [getFromStorage] runs inside the call) and
    writes after its [await]. [handleDeleteFlow] calls it once per
    orphan trigger inside [orphanTriggerIds.map(...)], so every call
    has read the list before the first of them resumes and writes. A
    call suspended at its await is a [PendingDelete]. *)
Record PendingDelete := {
  pending_id : string;
  pending_triggers : list Trigger.t (* what [getTriggers()] returned to it *)
}.

Definition deleteTrigger_start (triggerId : string) (s : Storage.t) : PendingDelete :=
  {| pending_id := triggerId; pending_triggers := Storage.triggers s |}.

Definition deleteTrigger_resume (p : PendingDelete) (s : Storage.t) : Storage.t :=
  let next := deleteTrigger_next (pending_id p) (pending_triggers p) in
  Storage.set_triggers next s.

(** [Promise.all(ids.map((id) => deleteTrigger(id)))]: the calls start
    in order, then resume in the order in which they were suspended. *)
Definition deleteTrigger_all (ids : list string) (s : Storage.t) : Storage.t :=
  let pending := (λ id, deleteTrigger_start id s) <$> ids in
  foldl (λ s p, deleteTrigger_resume p s) s pending.

(** The same with the suspended calls resuming in any order. *)
Inductive resumes : list PendingDelete → Storage.t → Storage.t → Prop :=
  | resumes_done s : resumes [] s s
  | resumes_one before p after s s' :
      resumes (before ++ after) (deleteTrigger_resume p s) s' →
      resumes (before ++ p :: after) s s'.

Definition handleDeleteFlow_storage (flowId : string) (s : Storage.t) : Storage.t :=
  let s := deleteFlow flowId s in
  let triggers := Storage.triggers s in
  let orphanTriggerIds :=
    Trigger.id <$> filter (λ t, Trigger.flowId t = flowId) triggers in
  deleteTrigger_all orphanTriggerIds s.

Definition handleDeleteFlow (flowId : string) : BG BackgroundResponse :=
  onStorage (handleDeleteFlow_storage flowId);;
  mret RespOk.

Definition handleRunFlow (flowId : string) (tabId : option Z) : BG BackgroundResponse :=
  runFlow flowId tabId Direct;;
  mret RespOk.

Definition handleImportData (payload : ImportExportPayload.t) (mode : option ImportMode)
    : BG BackgroundResponse :=
  onStorage (importData payload (default MergeMode mode));;
  mret RespOk.

(** *** The LLM handlers

    The LLM backend and the page snapshots are collaborators: what
    they answered is an argument of the handler. Timers and the
    polling of the tab after a click change no state and are left out. *)

(** [{ ...s, id: s.id || randomId("step"), urlPattern: s.urlPattern || currentUrl }] *)
Definition withId (currentUrl : string) (s : Step.t) : BG Step.t :=
  id ← (if decide (Step.id s = "") then randomId "step" else mret (Step.id s));
  mret (Step.mk id (Step.name s) (Step.type s) (Step.selector s) (Step.value s)
          (Step.waitMs s) (Some (or_default (Step.urlPattern s) currentUrl)) (Step.meta s)).

Fixpoint stepsWithIds (currentUrl : string) (steps : list Step.t) : BG (list Step.t) :=
  match steps with
  | [] => mret []
  | s :: steps =>
      s ← withId currentUrl s;
      steps ← stepsWithIds currentUrl steps;
      mret (s :: steps)
  end.

(** [{ ...step, meta: { ...step.meta, error: message } }] *)
Definition withError (step : Step.t) (message : string) : Step.t :=
  Step.mk (Step.id step) (Step.name step) (Step.type step) (Step.selector step)
    (Step.value step) (Step.waitMs step) (Step.urlPattern step)
    (Some (<["error" := message]> (default ∅ (Step.meta step)))).

Definition openBuffer (tabId : Z) : BG RecordingBuffer.t :=
  sessionId ← randomId "rec";
  startedAt ← nowIso;
  let buffer := RecordingBuffer.mk tabId sessionId [] startedAt in
  cache_set tabId buffer;;
  onStorage (upsertRecordingBuffer buffer);;
  tabs_sendMessage tabId StartRecording;;
  mret buffer.

(** The loop of [handleRunLlmPrompt]: a failed step is pushed with the
    error in its [meta]. The buffer is the value the loop writes: what
    [handleRecordStep] pushes into the same object while the loop
    awaits the tab is not part of it. *)
Fixpoint promptLoop (tabId : Z) (steps : list Step.t) (buffer : RecordingBuffer.t)
    : BG RecordingBuffer.t :=
  match steps with
  | [] => mret buffer
  | step :: steps =>
      buffer ← try_catch
        ('(success, errorMessage) ← sendStepToTab tabId step;
         if success : bool then
           let buffer := buffer_push step buffer in
           cache_set tabId buffer;;
           onStorage (upsertRecordingBuffer buffer);;
           mret buffer
         else throw (or_default errorMessage "Step execution failed"))
        (λ error,
           let buffer := buffer_push (withError step error) buffer in
           cache_set tabId buffer;;
           onStorage (upsertRecordingBuffer buffer);;
           mret buffer);
      promptLoop tabId steps buffer
  end.

(** [parsedSteps] is what was parsed out of the answer of the LLM, or
    the error thrown on the way. The default name cuts the prompt at
    50 bytes, which is the source's [slice] on ASCII text only. *)
Definition handleRunLlmPrompt (prompt : string) (taskName description : option string)
    (currentUrl : string) (parsedSteps : Outcome (list Step.t))
    : BG BackgroundResponse :=
  try_catch
    (tabId ← getActiveTabId;
     parsedSteps ← (λ b, (parsedSteps, b));
     steps ← stepsWithIds currentUrl parsedSteps;
     buffer ← openBuffer tabId;
     buffer ← promptLoop tabId steps buffer;
     tabs_sendMessage tabId StopRecording;;
     let finalSteps := RecordingBuffer.steps buffer in
     match finalSteps with
     | [] =>
         cache_delete tabId;;
         onStorage (removeRecordingBuffer tabId);;
         mret (RespError "No steps were executed")
     | _ =>
         id ← randomId "task";
         createdAt ← nowIso;
         updatedAt ← nowIso;
         let newTask :=
           Task.mk id (or_default taskName ("LLM: " +:+ String.substring 0 50 prompt))
             (Some (or_default description ("LLM生成タスク: " +:+ prompt)))
             finalSteps createdAt updatedAt None in
         onStorage (saveTask newTask);;
         cache_delete tabId;;
         onStorage (removeRecordingBuffer tabId);;
         mret (RespLlmTask newTask)
     end)
    (λ error, mret (RespError error)).

Definition conversation_set (state : ConversationState.t) : BG unit :=
  modify (λ b, Background.set_conversationStates
    (<[ConversationState.conversationId state := state]>
       (Background.conversationStates b)) b).

(** [const st = conversationStates.get(id); if (st) { update; set; await save }],
    the shape of every update of the conversation state. *)
Definition updateConversation (conversationId : string)
    (update : ConversationState.t → ConversationState.t) : BG unit :=
  st ← gets (λ b, Background.conversationStates b !! conversationId);
  match st with
  | Some st => conversation_set (update st);; onStorage (saveConversationState (update st))
  | None => mret tt
  end.

Definition markActive (st : ConversationState.t) : ConversationState.t :=
  ConversationState.mk (ConversationState.conversationId st)
    (ConversationState.history st) (ConversationState.tabId st) true.

Definition pushAssistant (response : string) (st : ConversationState.t)
    : ConversationState.t :=
  ConversationState.mk (ConversationState.conversationId st)
    (ConversationState.history st ++ [(ConversationState.Assistant, response)])
    (ConversationState.tabId st) (ConversationState.isActive st).

(** The result of [runConversation] (llmClient.ts) *)
Inductive ConversationAction :=
  | ActExecute (steps : list Step.t)
  | ActReport (reportContent : string).

Record ConversationResult := {
  response : string;
  action : option ConversationAction
}.

(** The loop over the steps of an [execute] action. Its [else] branch
    is empty and its [catch] ignores the error: a step that fails
    leaves the buffer as it is. *)
Fixpoint conversationLoop (conversationId : string) (tabId : Z) (steps : list Step.t)
    (buffer : RecordingBuffer.t) (executedSteps : list Step.t)
    : BG (RecordingBuffer.t * list Step.t) :=
  match steps with
  | [] => mret (buffer, executedSteps)
  | step :: steps =>
      '(buffer, executedSteps) ← try_catch
        (updateConversation conversationId markActive;;
         '(success, _) ← sendStepToTab tabId step;
         if success : bool then
           let buffer := buffer_push step buffer in
           let executedSteps := executedSteps ++ [step] in
           cache_set tabId buffer;;
           onStorage (upsertRecordingBuffer buffer);;
           updateConversation conversationId markActive;;
           mret (buffer, executedSteps)
         else mret (buffer, executedSteps))
        (λ _, mret (buffer, executedSteps));
      conversationLoop conversationId tabId steps buffer executedSteps
  end.

(** [xs.length > 0 ? xs : undefined] *)
Definition nonEmpty {A} (xs : list A) : option (list A) :=
  match xs with
  | [] => None
  | _ => Some xs
  end.

Definition isClickOrWait (step : Step.t) : bool :=
  match Step.type step with
  | Click | Wait => true
  | _ => false
  end.

(** [result] is what [runConversation] returned for the turn, and
    [reportRound] what the report-only second round produced, when the
    handler runs it ([None]: it did not run, or gave no report). *)
Definition handleRunLlmConversation (message : string) (conversationId : option string)
    (history : option (list (ConversationState.Role * string)))
    (currentUrl : string) (result : Outcome ConversationResult)
    (reportRound : option string) : BG BackgroundResponse :=
  try_catch
    (tabId ← getActiveTabId;
     conversationId ← match conversationId with
                      | Some id => if decide (id = "") then randomId "conv" else mret id
                      | None => randomId "conv"
                      end;
     let history := default [] history in
     let state := ConversationState.mk conversationId
                    (history ++ [(ConversationState.User, message)]) tabId true in
     conversation_set state;;
     onStorage (saveConversationState state);;
     result ← (λ b, (result, b));
     '(executedSteps, reportContent) ←
       match action result with
       | Some (ActExecute steps) =>
           steps ← stepsWithIds currentUrl steps;
           buffer ← openBuffer tabId;
           updateConversation conversationId
             (λ st, markActive (pushAssistant (response result) st));;
           '(buffer, executedSteps) ← conversationLoop conversationId tabId steps buffer [];
           let reportContent :=
             match last steps with
             | Some lastStep => if isClickOrWait lastStep then reportRound else None
             | None => None
             end in
           tabs_sendMessage tabId StopRecording;;
           cache_delete tabId;;
           onStorage (removeRecordingBuffer tabId);;
           mret (executedSteps, reportContent)
       | Some (ActReport reportContent) =>
           mret ([], if decide (reportContent = "") then None else Some reportContent)
       | None => mret ([], None)
       end;
     updateConversation conversationId (pushAssistant (response result));;
     mret (RespLlmConversation conversationId (response result)
             (nonEmpty executedSteps) reportContent))
    (λ error, mret (RespError error)).

(** ** The DOM of the page, for content/selectors.ts

    An element carries what the synthesizer reads from it: its
    [tagName] (upper case, as HTML documents report it), its attributes
    in document order, its [textContent] and its element children. *)
Module Dom.
Local Unset Elimination Schemes.
Inductive Element :=
  El (tagName : string) (attributes : list (string * string))
     (textContent : string) (children : list Element).
Local Set Elimination Schemes.

Definition tagName (e : Element) := let 'El t _ _ _ := e in t.
Definition attributes (e : Element) := let 'El _ a _ _ := e in a.
Definition textContent (e : Element) := let 'El _ _ x _ := e in x.
Definition children (e : Element) := let 'El _ _ _ c := e in c.

(** An element of the document is named by the child indices that
    lead to it, innermost first: [[]] is the root element [html],
    and [i :: p] is the child number [i] of the element [p]. *)
Definition NodeRef := list nat.

Fixpoint node (document : Element) (r : NodeRef) : option Element :=
  match r with
  | [] => Some document
  | i :: p => parent ← node document p; children parent !! i
  end.

Definition parentElement (r : NodeRef) : option NodeRef :=
  match r with
  | [] => None
  | _ :: p => Some p
  end.

(** [document.body]: the first [body] or [frameset] child of the root *)
Definition body (document : Element) : option NodeRef :=
  (λ i, [i]) <$>
    findIndex (λ c, bool_decide (tagName c = "BODY" ∨ tagName c = "FRAMESET"))
      (children document).

Definition getAttribute (name : string) (e : Element) : option string :=
  snd <$> find (λ a, bool_decide (a.1 = name)) (attributes e).

(** Every element of the document, in tree order. *)
Fixpoint elements (e : Element) : list Element :=
  e :: (fix all (l : list Element) : list Element :=
          match l with
          | [] => []
          | c :: l' => elements c ++ all l'
          end) (children e).

(** [document.querySelectorAll("#" + CSS.escape(id))]: the elements
    whose id is [id]. *)
Definition querySelectorAll_id (document : Element) (id : string) : list Element :=
  filter (λ e, getAttribute "id" e = Some id) (elements document).
End Dom.

(** *** Strings of the platform *)

Definition lower (c : ascii) : ascii :=
  let n := nat_of_ascii c in
  if bool_decide (65 ≤ n ≤ 90) then ascii_of_nat (n + 32) else c.

(** [String.prototype.toLowerCase], on the ASCII letters (tag names). *)
Fixpoint toLowerCase (s : string) : string :=
  match s with
  | EmptyString => EmptyString
  | String c s' => String (lower c) (toLowerCase s')
  end.

Definition hexDigit (n : nat) : ascii :=
  ascii_of_nat (if bool_decide (n < 10) then 48 + n else 87 + n).

(** A byte below 128 as a CSS code-point escape: backslash, the
    hexadecimal digits without leading zero, and a space. *)
Definition escapeCodePoint (n : nat) : string :=
  let hex := if bool_decide (n < 16) then String (hexDigit n) ""
             else String (hexDigit (n / 16)) (String (hexDigit (n mod 16)) "") in
  "\" +:+ hex +:+ " ".

Definition isDigit (n : nat) : bool := bool_decide (48 ≤ n ≤ 57).

Definition isIdentChar (n : nat) : bool :=
  bool_decide (128 ≤ n ∨ n = 45 ∨ n = 95 ∨ 48 ≤ n ≤ 57 ∨ 65 ≤ n ≤ 90 ∨ 97 ≤ n ≤ 122).

(** U+FFFD in UTF-8 *)
Definition replacementCharacter : string :=
  String "239" (String "191" (String "189" EmptyString)).

(** [CSS.escape] (CSSOM, "serialize an identifier") on the UTF-8 bytes
    of the string: [index] is the position of [c], [first] the first
    character of the whole string, [len] its length. *)
Definition escapeChar (first : option ascii) (len index : nat) (c : ascii) : string :=
  let n := nat_of_ascii c in
  if bool_decide (n = 0) then replacementCharacter
  else if bool_decide (1 ≤ n ≤ 31 ∨ n = 127) then escapeCodePoint n
  else if bool_decide (index = 0) && isDigit n then escapeCodePoint n
  else if bool_decide (index = 1) && isDigit n && bool_decide (first = Some "-"%char)
       then escapeCodePoint n
  else if bool_decide (index = 0 ∧ len = 1 ∧ n = 45) then "\-"
  else if isIdentChar n then String c ""
  else String "\"%char (String c "").

Fixpoint escapeFrom (first : option ascii) (len index : nat) (s : string) : string :=
  match s with
  | EmptyString => EmptyString
  | String c s' => escapeChar first len index c +:+ escapeFrom first len (S index) s'
  end.

Definition CSS_escape (s : string) : string :=
  escapeFrom (match s with String c _ => Some c | EmptyString => None end)
    (String.length s) 0 s.

(** [s.split(" ")]: the pieces between single spaces, [acc] being the
    piece under way, in reverse. *)
Fixpoint split_space (acc : string) (s : string) : list string :=
  match s with
  | EmptyString => [String.rev acc]
  | String c s' =>
      if decide (c = " "%char) then String.rev acc :: split_space "" s'
      else split_space (String c acc) s'
  end.

Definition isSpace (c : ascii) : bool :=
  let n := nat_of_ascii c in bool_decide (n = 32 ∨ 9 ≤ n ≤ 13).

Fixpoint trimStart (s : string) : string :=
  match s with
  | String c s' => if isSpace c then trimStart s' else s
  | EmptyString => EmptyString
  end.

(** [String.prototype.trim], for the ASCII white space. *)
Definition trim (s : string) : string :=
  String.rev (trimStart (String.rev (trimStart s))).

(** ** content/selectors.ts *)

Definition hasUniqueId (document : Dom.Element) (el : Dom.Element) : option string :=
  match Dom.getAttribute "id" el with
  | Some id =>
      if bool_decide (id ≠ "" ∧ length (Dom.querySelectorAll_id document id) = 1)
      then Some ("#" +:+ CSS_escape id)
      else None
  | None => None
  end.

(** The double quote of the attribute selector *)
Definition quote : string := String "034" EmptyString.

(** [a || b] on two attribute values: [a] unless it is absent or empty *)
Definition or_else (a b : option string) : option string :=
  match a with
  | Some s => if decide (s = "") then b else a
  | None => b
  end.

Definition dataTestId (el : Dom.Element) : option string :=
  let testId := or_else (Dom.getAttribute "data-testid" el) (Dom.getAttribute "data-test" el) in
  match testId with
  | Some testId =>
      if decide (testId = "") then None
      else Some ("[data-testid=" +:+ quote +:+ testId +:+ quote +:+ "]")
  | None => None
  end.

(** [(current.getAttribute("class") || "").split(" ").filter(Boolean)
      .map((c) => `.${CSS.escape(c)}`)]: one fragment per class name. *)
Definition classFragments (e : Dom.Element) : list string :=
  (λ c, "." +:+ CSS_escape c) <$>
    filter (λ c, c ≠ EmptyString)
      (split_space EmptyString (default EmptyString (Dom.getAttribute "class" e))).

(** [current.parentElement?.children || []] *)
Definition siblings (document : Dom.Element) (current : Dom.NodeRef) : list Dom.Element :=
  match Dom.parentElement current with
  | Some parent => default [] (Dom.children <$> Dom.node document parent)
  | None => []
  end.

(** [Array.from(siblings).indexOf(current) + 1] *)
Definition indexAmongSiblings (current : Dom.NodeRef) : nat :=
  match current with
  | i :: _ => i + 1
  | [] => 0 (* indexOf gives -1 *)
  end.

(** What one round of the loop of [fallbackCss] puts in front of
    [parts]. *)
Definition cssPart (document : Dom.Element) (current : Dom.NodeRef) (e : Dom.Element)
    : string :=
  let tag := toLowerCase (Dom.tagName e) in
  let className := String.concat EmptyString (classFragments e) in
  let siblings := siblings document current in
  let index := indexAmongSiblings current in
  let nth := if bool_decide (1 < length siblings)
             then ":nth-child(" +:+ pretty index +:+ ")"
             else EmptyString in
  tag +:+ className +:+ nth.

(** The [while] loop of [fallbackCss]. [current = current.parentElement]
    shortens the reference, which is what the recursion follows; a
    reference that names no element stands for [null]. *)
Fixpoint fallbackCss_loop (document : Dom.Element) (current : Dom.NodeRef)
    (parts : list string) : list string :=
  match Dom.node document current with
  | None => parts
  | Some e =>
      if bool_decide (Some current ≠ Dom.body document ∧ length parts < 5) then
        let parts := cssPart document current e :: parts in
        match current with
        | [] => parts
        | _ :: parent => fallbackCss_loop document parent parts
        end
      else parts
  end.

Definition fallbackCss (document : Dom.Element) (el : Dom.NodeRef) : string :=
  String.concat " > " (fallbackCss_loop document el []).

(** The position of [current] among the children of its parent that
    have its tag name, from 1. *)
Definition indexAmongSameTag (document : Dom.Element) (current : Dom.NodeRef)
    (e : Dom.Element) : nat :=
  match current with
  | i :: _ =>
      length (filter (λ child, Dom.tagName child = Dom.tagName e)
                (take i (siblings document current))) + 1
  | [] => 1
  end.

Fixpoint buildXPath_loop (document : Dom.Element) (current : Dom.NodeRef)
    (segments : list string) : list string :=
  match Dom.node document current with
  | None => segments
  | Some e =>
      let index := indexAmongSameTag document current e in
      let segments :=
        (toLowerCase (Dom.tagName e) +:+ "[" +:+ pretty index +:+ "]") :: segments in
      match current with
      | [] => segments
      | _ :: parent => buildXPath_loop document parent segments
      end
  end.

Definition buildXPath (document : Dom.Element) (el : Dom.NodeRef) : string :=
  if decide (Some el = Dom.body document) then "/html/body"
  else "/" +:+ String.concat "/" (buildXPath_loop document el []).

Definition startsWith (p s : string) : bool := String.prefix p s.

(** [buildSelectorInfo]; an [el] that is no element of the document
    has no selector. Strings are byte strings: [textSnapshot] trims
    ASCII white space and counts its 200 characters in bytes, which is
    the source's [trim] and [slice] on ASCII text only. *)
Definition buildSelectorInfo (document : Dom.Element) (el : Dom.NodeRef)
    : option SelectorInfo.t :=
  e ← Dom.node document el;
  let css :=
    match hasUniqueId document e with
    | Some css => css
    | None =>
        match dataTestId e with
        | Some css => css
        | None => fallbackCss document el
        end
    end in
  let xpath := buildXPath document el in
  let textSnapshot := String.substring 0 200 (trim (Dom.textContent e)) in
  let attributes := filter (λ attr, startsWith "data-" attr.1 = true) (Dom.attributes e) in
  Some (SelectorInfo.mk (Some css) (Some xpath) (Some textSnapshot) (Some attributes)).

(** ** content/executor.ts

    The page is seen through oracles as well: what a query gives, and
    whether a call on an element throws, depend on the moment, counted
    in the events that the executor has caused so far. *)

Module Page.
Record Element := { handle : nat; isForm : bool }.

Inductive Lookup :=
  | Invalid                 (* the query throws *)
  | Missing                 (* null *)
  | Present (el : Element).

Inductive Event :=
  | Sleep (ms : Z)
  | QuerySelector (selector : string)
  | Evaluate (xpath : string)
  | ClickOn (el : Element)
  | Focus (el : Element)
  | SetValue (el : Element) (value : string)
  | Dispatch (el : Element) (event : string)
  | RequestSubmit (el : Element)
  | RunScript (script : string).

Record t := mk {
  querySelector : nat → string → Lookup;
  evaluate : nat → string → Lookup;
  scriptThrows : nat → string → option string;
  callThrows : nat → Event → option string;
  events : list Event
}.

Definition record (e : Event) (p : t) : t :=
  mk (querySelector p) (evaluate p) (scriptThrows p) (callThrows p) (events p ++ [e]).
End Page.

Abbreviation CS := (Async Page.t).

Definition emit (e : Page.Event) : CS unit := modify (Page.record e).

(** A call that the page may refuse: [el.click()] and [el.focus()]
    throw a [TypeError] on an element that has no such method (an SVG
    element has no [click]), and [el.value = ...] throws on a file
    input. A call that throws has not happened. *)
Definition call (e : Page.Event) : CS unit := λ p,
  match Page.callThrows p (length (Page.events p)) e with
  | Some message => (Thrown message, p)
  | None => (Returned tt, Page.record e p)
  end.

Definition findByCss (selector : string) : CS (option Page.Element) := λ p,
  let found := match Page.querySelector p (length (Page.events p)) selector with
               | Page.Present el => Some el
               | _ => None
               end in
  (Returned found, Page.record (Page.QuerySelector selector) p).

Definition findByXPath (xpath : option string) : CS (option Page.Element) :=
  match xpath with
  | None => mret None
  | Some xpath =>
      if decide (xpath = EmptyString) then mret None
      else λ p,
        let found := match Page.evaluate p (length (Page.events p)) xpath with
                     | Page.Present el => Some el
                     | _ => None
                     end in
        (Returned found, Page.record (Page.Evaluate xpath) p)
  end.

(** [selector.css ? findByCss(selector.css) : findByXPath(selector.xpath)] *)
Definition resolveElement (selector : option SelectorInfo.t) : CS (option Page.Element) :=
  match selector with
  | None => mret None
  | Some selector =>
      match SelectorInfo.css selector with
      | Some css =>
          if decide (css = EmptyString) then findByXPath (SelectorInfo.xpath selector)
          else findByCss css
      | None => findByXPath (SelectorInfo.xpath selector)
      end
  end.

(** [setTimeout(resolve, ms)]: the timer takes its delay as a signed
    32-bit integer, so that a delay above 2^31-1 wraps around, and a
    negative delay is no delay. [Page.Sleep] holds the time slept.
    The numbers of a step are taken to be integers. *)
Definition toInt32 (n : Z) : Z :=
  ((n + 2147483648) mod 4294967296 - 2147483648)%Z.

Definition timerDelay (ms : Z) : Z := Z.max 0 (toInt32 ms).

Definition waitMs (ms : Z) : CS unit := emit (Page.Sleep (timerDelay ms)).

(** The loop of [waitForElement], [remaining] being [attempts - i]. *)
Fixpoint waitForElement_loop (selector : option SelectorInfo.t) (intervalMs : Z)
    (remaining : nat) : CS (option Page.Element) :=
  match remaining with
  | 0 => mret None
  | S remaining =>
      el ← resolveElement selector;
      match el with
      | Some el => mret (Some el)
      | None =>
          (if bool_decide (0 < remaining) then waitMs intervalMs else mret tt);;
          waitForElement_loop selector intervalMs remaining
      end
  end.

Definition waitForElement (selector : option SelectorInfo.t) : CS (option Page.Element) :=
  match selector with
  | None => mret None
  | Some _ => waitForElement_loop selector 500 5
  end.

(** [step.selector?.css || step.selector?.xpath || "unknown"] *)
Definition selectorStr (step : Step.t) : string :=
  or_default
    (or_else (Step.selector step ≫= SelectorInfo.css)
             (Step.selector step ≫= SelectorInfo.xpath))
    "unknown".

(** The [switch] of [runStep]. *)
Definition runStep_switch (step : Step.t) : CS unit :=
  match Step.type step with
  | Wait => waitMs (default 500%Z (Step.waitMs step))
  | Click =>
      el ← waitForElement (Step.selector step);
      match el with
      | None => throw ("Element not found for click. Selector: " +:+ selectorStr step)
      | Some el => call (Page.ClickOn el)
      end
  | Input =>
      el ← waitForElement (Step.selector step);
      match el with
      | None => throw ("Element not found for input. Selector: " +:+ selectorStr step)
      | Some el =>
          call (Page.Focus el);;
          call (Page.SetValue el (default EmptyString (Step.value step)));;
          emit (Page.Dispatch el "input");;
          emit (Page.Dispatch el "change")
      end
  | Submit =>
      el ← waitForElement (Step.selector step);
      match el with
      | None => throw "Element not found for submit"
      | Some el =>
          if Page.isForm el then emit (Page.RequestSubmit el)
          else emit (Page.Dispatch el "submit")
      end
  | CustomJs =>
      match Step.meta step ≫= (.!! "script") with
      | None => throw "No custom script provided"
      | Some script =>
          if decide (script = EmptyString) then throw "No custom script provided"
          else λ p,
            let p' := Page.record (Page.RunScript script) p in
            match Page.scriptThrows p (length (Page.events p)) script with
            | Some message => (Thrown message, p')
            | None => (Returned tt, p')
            end
      end
  | Unsupported name => throw ("Unsupported step type: " +:+ name)
  end.

Definition runStep (step : Step.t) : CS unit :=
  (* if (step.waitMs && step.waitMs > 0) await waitMs(step.waitMs) *)
  match Step.waitMs step with
  | Some ms => if bool_decide (0 < ms)%Z then waitMs ms else mret tt
  | None => mret tt
  end;;
  runStep_switch step.

(** The listener of [ExecuteStep]: the reply sent back to the runner. *)
Definition executeStep (step : Step.t) : Page.t → SendResult * Page.t := λ p,
  match runStep step p with
  | (Returned _, p') => (Resolved true None, p')
  | (Thrown message, p') => (Resolved false (Some message), p')
  end.

(** *** The requests of the popup and of the content scripts

    [dispatch], for the requests that change the state of the service
    worker; the collaborators' answers travel with the two LLM
    requests. *)
Inductive Request :=
  | ReqStartRecording
  | ReqStopRecording (taskName description : option string)
  | ReqRecordStep (step : Step.t) (senderTabId : option Z)
  | ReqSaveTask (task : Task.t)
  | ReqDeleteTask (taskId : string)
  | ReqSaveFlow (flow : Flow.t)
  | ReqDeleteFlow (flowId : string)
  | ReqRunFlow (flowId : string) (tabId : option Z)
  | ReqSaveTrigger (trigger : Trigger.t)
  | ReqDeleteTrigger (triggerId : string)
  | ReqImportData (payload : ImportExportPayload.t) (mode : option ImportMode)
  | ReqRunLlmPrompt (prompt : string) (taskName description : option string)
      (currentUrl : string) (parsedSteps : Outcome (list Step.t))
  | ReqRunLlmConversation (message : string) (conversationId : option string)
      (history : option (list (ConversationState.Role * string)))
      (currentUrl : string) (result : Outcome ConversationResult)
      (reportRound : option string).

Definition handleSaveTrigger (trigger : Trigger.t) : BG BackgroundResponse :=
  trigger ← (if decide (Trigger.id trigger = EmptyString)
             then id ← randomId "trigger";
                  mret (Trigger.mk id (Trigger.type trigger) (Trigger.flowId trigger)
                          (Trigger.urlPattern trigger) (Trigger.shortcutName trigger)
                          (Trigger.enabled trigger))
             else mret trigger);
  onStorage (saveTrigger trigger);;
  mret RespOk.

Definition dispatch (message : Request) : BG BackgroundResponse :=
  match message with
  | ReqStartRecording => handleStartRecording
  | ReqStopRecording taskName description => handleStopRecording taskName description
  | ReqRecordStep step senderTabId => handleRecordStep step senderTabId
  | ReqSaveTask task => onStorage (saveTask task);; mret RespOk
  | ReqDeleteTask taskId => onStorage (deleteTask taskId);; mret RespOk
  | ReqSaveFlow flow => onStorage (saveFlow flow);; mret RespOk
  | ReqDeleteFlow flowId => handleDeleteFlow flowId
  | ReqRunFlow flowId tabId => handleRunFlow flowId tabId
  | ReqSaveTrigger trigger => handleSaveTrigger trigger
  | ReqDeleteTrigger triggerId => onStorage (deleteTrigger triggerId);; mret RespOk
  | ReqImportData payload mode => handleImportData payload mode
  | ReqRunLlmPrompt prompt taskName description currentUrl parsedSteps =>
      handleRunLlmPrompt prompt taskName description currentUrl parsedSteps
  | ReqRunLlmConversation message conversationId history currentUrl result reportRound =>
      handleRunLlmConversation message conversationId history currentUrl result
        reportRound
  end.

(** The listener of [chrome.runtime.onMessage]: what a handler throws
    is answered as an error. *)
Definition onMessage (message : Request) (b : Background.t)
    : BackgroundResponse * Background.t :=
  match dispatch message b with
  | (Returned response, b') => (response, b')
  | (Thrown error, b') => (RespError error, b')
  end.

(** The start of the service worker: the in-memory map is loaded from
    the stored buffers ([buffers.forEach((b) => recordingBuffers.set(b.tabId, b))]). *)
Definition hydrate (b : Background.t) : Background.t :=
  Background.set_recordingBuffers
    (foldl (λ m buffer, <[RecordingBuffer.tabId buffer := buffer]> m) ∅
       (Storage.recordingBuffers (Background.storage b))) b.


(** ** Vocabulary of the properties *)

Definition sentOf (b : Background.t) : list (Z * TabMessage) :=
  Chrome.sent (Background.chrome b).

Definition logsOf (b : Background.t) : list FlowRunLog.t :=
  Storage.logs (Background.storage b).

(** The reply of the executor to [step], were it the [n]-th message. *)
Definition replyTo (b : Background.t) (n : nat) (tabId : Z) (step : Step.t) : SendResult :=
  Chrome.respond (Background.chrome b) n tabId (ExecuteStep step).

Definition succeedsAt (b : Background.t) (n : nat) (tabId : Z) (step : Step.t) : Prop :=
  ∃ errorMessage, replyTo b n tabId step = Resolved true errorMessage.

(** A failure result of the executor, or an error of the channel;
    [message] is what either of them carries. *)
Definition failsAt (b : Background.t) (n : nat) (tabId : Z) (step : Step.t)
    (message : option string) : Prop :=
  replyTo b n tabId step = Resolved false message ∨
  ∃ lastError, message = Some lastError ∧ replyTo b n tabId step = Rejected lastError.

(** All of [steps] succeed when sent in order from the [n]-th message on. *)
Definition allSucceedFrom (b : Background.t) (n : nat) (tabId : Z) (steps : list Step.t)
    : Prop :=
  ∀ i step, steps !! i = Some step → succeedsAt b (n + i) tabId step.

(** What a step log says, apart from its time stamps. *)
Definition entry (l : StepRunLog.t) : string * RunStatus * option string :=
  (StepRunLog.stepId l, StepRunLog.status l, StepRunLog.errorMessage l).

Definition successEntry (step : Step.t) : string * RunStatus * option string :=
  (Step.id step, Success, None).

Definition executeMessages (tabId : Z) (steps : list Step.t) : list (Z * TabMessage) :=
  (λ step, (tabId, ExecuteStep step)) <$> steps.

(** The steps [runFlow] works on: those of the tasks of the flow. *)
Definition stepsOfFlow (flow : Flow.t) (b : Background.t) : list Step.t :=
  flattenSteps flow
    (foldl (λ m t, <[Task.id t := Task.steps t]> m) ∅
       (Storage.tasks (Background.storage b))).

(** The tab a run is aimed at. *)
Definition targetTab (explicitTabId : option Z) (b : Background.t) (tabId : Z) : Prop :=
  explicitTabId = Some tabId ∨
  (explicitTabId = None ∧ queryActiveTab b = (Returned tabId, b)).

(** [flowLog] after [added] has been pushed on its step logs and it
    has been finalized. *)
Definition finishedLog (flowLog : FlowRunLog.t) (added : list StepRunLog.t)
    (status : RunStatus) (finishedAt : string) : FlowRunLog.t :=
  FlowRunLog.mk (FlowRunLog.id flowLog) (FlowRunLog.flowId flowLog)
    (FlowRunLog.flowName flowLog) (FlowRunLog.triggeredBy flowLog)
    (FlowRunLog.startedAt flowLog) finishedAt status
    (FlowRunLog.stepLogs flowLog ++ added) (FlowRunLog.urlAtStart flowLog).

Definition sameLog (log : FlowRunLog.t) : FlowRunLog.t → bool :=
  λ l, bool_decide (FlowRunLog.id l = FlowRunLog.id log).

(** The last item of [l] whose id is [i]: the one a [Map] built from
    [l] holds under [i]. *)
Definition lastWithId {T} `{HasId T} (i : string) (l : list T) : option T :=
  last (filter (λ x, id_of x = i) l).

(** The steps that a task id stands for in a flow: those of the task
    stored under it, of the last such task should there be several (the
    one [tasksMap] holds), and none when no task has the id. *)
Definition stepsOfTask (tasks : list Task.t) (taskId : string) : list Step.t :=
  default [] (Task.steps <$> lastWithId taskId tasks).

(** The flattened step sequence of a flow, as the specification words
    it: the steps of the tasks that [taskIds] names, in the order of
    [taskIds], a task that is missing giving no step. *)
Definition flattened (flow : Flow.t) (tasks : list Task.t) : list Step.t :=
  Flow.taskIds flow ≫= stepsOfTask tasks.

(** [result] is the id-keyed union of [base] and [incoming] in which
    incoming items win: it holds one item per id, and an item is in it
    exactly when it is the incoming item of its id or, no incoming item
    having that id, the base item of its id. *)
Definition isMergeOf {T} `{HasId T} (base incoming result : list T) : Prop :=
  NoDup (id_of <$> result) ∧
  ∀ x, x ∈ result ↔
    lastWithId (id_of x) incoming = Some x ∨
    (lastWithId (id_of x) incoming = None ∧ lastWithId (id_of x) base = Some x).

(** The entry of an insertion-ordered map under a key. *)
Definition map_get {V} (k : string) (m : list (string * V)) : option V :=
  snd <$> find (λ e, bool_decide (e.1 = k)) m.

(** Every entry of the map sits under the id of its item. *)
Definition wellKeyed {T} `{HasId T} (m : list (string * T)) : Prop :=
  Forall (λ e, id_of e.2 = e.1) m.

(** [new Map(...)] and the [for] loop of [mergeById] are both this fold. *)
Definition setAll {T} `{HasId T} (m : list (string * T)) (l : list T)
    : list (string * T) :=
  foldl (λ m item, map_set (id_of item) item m) m l.

(** *** Sample data *)

Definition sampleTrigger (id flowId : string) : Trigger.t :=
  Trigger.mk id Url flowId (Some "example.com") None true.

Definition sampleFlow (id : string) (taskIds : list string) : Flow.t :=
  Flow.mk id id None taskIds (Some []) true "2024-01-01T00:00:00Z" "2024-01-01T00:00:00Z".

Definition sampleStep (id : string) (type : StepType) (css : string) : Step.t :=
  Step.mk id None type (Some (SelectorInfo.mk (Some css) None None None))
    None None None None.

Definition sampleTask (id : string) (steps : list Step.t) : Task.t :=
  Task.mk id id None steps "2024-01-01T00:00:00Z" "2024-01-01T00:00:00Z" None.

(** Two triggers bound to the flow f1 and a third bound to f2. *)
Definition threeTriggers : Storage.t :=
  Storage.mk [] [sampleFlow "f1" []; sampleFlow "f2" []] []
    [sampleTrigger "t1" "f1"; sampleTrigger "t2" "f1"; sampleTrigger "t3" "f2"] [] [].

(** [handleDeleteFlow] with its calls of [deleteTrigger] awaited one
    after the other, for comparison. *)
Definition deleteTrigger_each (ids : list string) (s : Storage.t) : Storage.t :=
  foldl (λ s id, deleteTrigger id s) s ids.

(** *** Recording buffers *)

Definition storedBuffers (b : Background.t) : list RecordingBuffer.t :=
  Storage.recordingBuffers (Background.storage b).

(** At most one recording buffer per tab: in the store no two buffers
    have the same tab, and in the in-memory map a buffer sits under
    its own tab. *)
Definition oneBufferPerTab (b : Background.t) : Prop :=
  NoDup (RecordingBuffer.tabId <$> storedBuffers b) ∧
  map_Forall (λ tabId buffer, RecordingBuffer.tabId buffer = tabId)
    (Background.recordingBuffers b).

(** [m], started in a state where [I] holds, ends in such a state,
    and what it returns satisfies [Q]. *)
Definition triple {A} (I : Background.t → Prop) (m : BG A) (Q : A → Prop) : Prop :=
  ∀ b, I b →
    match m b with
    | (Returned a, b') => I b' ∧ Q a
    | (Thrown _, b') => I b'
    end.

(** [m] leaves the part [f] of the state as it is, however it ends. *)
Definition keeps {X A} (f : Background.t → X) (m : BG A) : Prop :=
  ∀ b, f (m b).2 = f b.

(** The recording buffers, stored and in memory. *)
Definition buffersOf (b : Background.t) : list RecordingBuffer.t * gmap Z RecordingBuffer.t :=
  (storedBuffers b, Background.recordingBuffers b).

Definition tasksOf (b : Background.t) : list Task.t :=
  Storage.tasks (Background.storage b).

(** A browser whose tabs answer every message with success, with
    [activeTab] as the active tab. *)
Definition quietChrome (activeTab : Z) : Chrome.t :=
  Chrome.mk (λ _ _ _, Resolved true None) [] (QueryTabs [Some activeTab])
    (λ n, "time-" +:+ pretty n) 0 (λ n, pretty n) 0.

(** The service worker as installed, on an empty store. *)
Definition installed (chrome : Chrome.t) : Background.t :=
  Background.mk chrome Storage.empty ∅ ∅.




(** The answer of the LLM: click on [#gone], then on [#btn]. *)
Definition twoClicks : ConversationResult :=
  {| response := "ok";
     action := Some (ActExecute [sampleStep "s1" Click "#gone";
                                 sampleStep "s2" Click "#btn"]) |}.

(** *** Locators *)

(** The attribute-equality selector [[name="value"]]. *)
Definition attrEquals (name value : string) : string :=
  "[" +:+ name +:+ "=" +:+ quote +:+ value +:+ quote +:+ "]".

(** What such a selector matches. *)
Definition matchesAttrEquals (name value : string) (e : Dom.Element) : Prop :=
  Dom.getAttribute name e = Some value.

(** [el] and its ancestors, innermost first, as far as the element
    below the body (or the root, outside of the body). *)
Fixpoint belowBody (document : Dom.Element) (r : Dom.NodeRef) : list Dom.NodeRef :=
  if decide (Some r = Dom.body document) then []
  else r :: match r with
            | [] => []
            | _ :: parent => belowBody document parent
            end.

(** The levels the structural fallback goes through: at most five. *)
Definition levels (document : Dom.Element) (el : Dom.NodeRef) : list Dom.NodeRef :=
  take 5 (belowBody document el).

Definition partAt (document : Dom.Element) (r : Dom.NodeRef) : string :=
  match Dom.node document r with
  | Some e => cssPart document r e
  | None => EmptyString
  end.

(** A page whose body holds a button that carries [data-test] only. *)
Definition saveButton : Dom.Element :=
  Dom.El "BUTTON" [("data-test", "save")] "Save" [].

Definition saveButtonPage : Dom.Element :=
  Dom.El "HTML" [] "Save"
    [Dom.El "HEAD" [] EmptyString []; Dom.El "BODY" [] "Save" [saveButton]].

(** A page whose body holds a [div] with three class names, and in it
    a [span] followed by a [p]. *)
Definition cardPage : Dom.Element :=
  Dom.El "HTML" [] "Hi there"
    [Dom.El "HEAD" [] EmptyString [];
     Dom.El "BODY" [] "Hi there"
       [Dom.El "DIV" [("class", "card wide dark")] "Hi there"
          [Dom.El "SPAN" [] "Hi" []; Dom.El "P" [] " there" []]]].

(** The class names of an element: the non-empty pieces of its
    [class] attribute between spaces. *)
Definition classNames (e : Dom.Element) : list string :=
  filter (λ c, c ≠ EmptyString)
    (split_space EmptyString (default EmptyString (Dom.getAttribute "class" e))).

(** *** The executor *)

(** The pre-delay of a step, as events. *)
Definition preDelay (step : Step.t) : list Page.Event :=
  match Step.waitMs step with
  | Some ms => if bool_decide (0 < ms)%Z then [Page.Sleep (timerDelay ms)] else []
  | None => []
  end.

(** The time slept in the course of the events. *)
Definition slept (events : list Page.Event) : Z :=
  foldr (λ e total, match e with Page.Sleep ms => (ms + total)%Z | _ => total end)
    0%Z events.

(** The selector is never found by [document.querySelector]. *)
Definition neverFound (p : Page.t) (css : string) : Prop :=
  ∀ n el, Page.querySelector p n css ≠ Page.Present el.

(** Five attempts on a CSS selector, 500ms apart. *)
Definition fiveAttempts (css : string) : list Page.Event :=
  [Page.QuerySelector css; Page.Sleep 500; Page.QuerySelector css; Page.Sleep 500;
   Page.QuerySelector css; Page.Sleep 500; Page.QuerySelector css; Page.Sleep 500;
   Page.QuerySelector css].

(** The page after [added] has happened on it. *)
Definition after (added : list Page.Event) (p : Page.t) : Page.t :=
  Page.mk (Page.querySelector p) (Page.evaluate p) (Page.scriptThrows p)
    (Page.callThrows p) (Page.events p ++ added).

(** The events of [n] failed attempts on a CSS selector, [ms] apart. *)
Fixpoint failedAttempts (css : string) (ms : Z) (n : nat) : list Page.Event :=
  match n with
  | 0 => []
  | S n => Page.QuerySelector css ::
           (if bool_decide (0 < n) then [Page.Sleep ms] else []) ++
           failedAttempts css ms n
  end.

(** [m] adds events to those of the page and changes nothing else. *)
Definition appends {A} (m : CS A) : Prop :=
  ∀ p, ∃ added, (m p).2 = after added p.

(** A page on which no CSS selector finds anything, and every XPath
    finds the element 7. *)
Definition xpathOnlyPage : Page.t :=
  Page.mk (λ _ _, Page.Missing)
    (λ _ _, Page.Present {| Page.handle := 7; Page.isForm := false |})
    (λ _ _, None) (λ _ _, None) [].

(** A click whose locator has a CSS selector and an XPath. *)
Definition clickBoth : Step.t :=
  Step.mk "s1" None Click
    (Some (SelectorInfo.mk (Some "#gone") (Some "/html[1]/body[1]/button[1]") None None))
    None None None None.

Definition waitStep (waitMs : option Z) : Step.t :=
  Step.mk "w" None Wait None None waitMs None None.

(** The flow f1 made of the task t1, whose one step clicks on [#btn]. *)
Definition oneClickFlow (chrome : Chrome.t) : Background.t :=
  Background.mk chrome
    (Storage.mk [sampleTask "t1" [sampleStep "s1" Click "#btn"]]
       [sampleFlow "f1" ["t1"]] [] [] [] [])
    ∅ ∅.

(** The flow f1 made of the tasks t1, of the steps s1 and s2, and t2,
    of the step s3; the store holds t2 before t1. *)
Definition threeStepFlow (chrome : Chrome.t) : Background.t :=
  Background.mk chrome
    (Storage.mk
       [sampleTask "t2" [sampleStep "s3" Click "#c"];
        sampleTask "t1" [sampleStep "s1" Click "#a"; sampleStep "s2" Input "#b"]]
       [sampleFlow "f1" ["t1"; "t2"]] [] [] [] [])
    ∅ ∅.

(** A browser on whose tab 1 the step s2 fails with "ng" and every
    other step succeeds. *)
Definition s2FailsChrome : Chrome.t :=
  Chrome.mk
    (λ _ _ message,
       match message with
       | ExecuteStep step =>
           if decide (Step.id step = "s2") then Resolved false (Some "ng")
           else Resolved true None
       | _ => Resolved true None
       end)
    [] (QueryTabs [Some 1%Z]) (λ n, "time-" +:+ pretty n) 0 (λ n, pretty n) 0.

(** A browser whose tabs answer every step with the failure "ng". *)
Definition ngChrome : Chrome.t :=
  Chrome.mk (λ _ _ _, Resolved false (Some "ng")) [] (QueryTabs [Some 1%Z])
    (λ n, "time-" +:+ pretty n) 0 (λ n, pretty n) 0.

(** *** The LLM handlers *)

(** What a reply means for the step it answers: [None] for a success,
    otherwise the error, which is the failure message of the executor
    or the error of the channel. *)
Definition failureOf (r : SendResult) : option string :=
  match r with
  | Resolved true _ => None
  | Resolved false errorMessage => Some (or_default errorMessage "Step execution failed")
  | Rejected lastError => Some lastError
  end.

(** The steps with what became of each, when they are sent in order
    from the [n]-th message on. *)
Fixpoint outcomes (respond : nat → Z → TabMessage → SendResult) (n : nat) (tabId : Z)
    (steps : list Step.t) : list (Step.t * option string) :=
  match steps with
  | [] => []
  | step :: steps =>
      (step, failureOf (respond n tabId (ExecuteStep step))) ::
      outcomes respond (S n) tabId steps
  end.

(** A step as recorded with its outcome: as it is after a success,
    with the error in its [meta] after a failure. *)
Definition recordedStep (o : Step.t * option string) : Step.t :=
  match o.2 with
  | None => o.1
  | Some message => withError o.1 message
  end.

(** The steps that succeeded. *)
Definition succeeded (os : list (Step.t * option string)) : list Step.t :=
  fst <$> filter (λ o, o.2 = None) os.

Definition respondOf (b : Background.t) : nat → Z → TabMessage → SendResult :=
  Chrome.respond (Background.chrome b).

(** * The rest of the code

    The functions of the same files that the sections above do not
    need, and what they call. *)

(** ** background/storage.ts *)

Definition deleteConversationState (conversationId : string) (s : Storage.t) : Storage.t :=
  let states := Storage.conversationStates s in
  let filtered :=
    filter (λ c, ConversationState.conversationId c ≠ conversationId) states in
  Storage.set_conversationStates filtered s.

(** [xs.find((x) => x.id === k)], the way every reader of a collection
    looks an item up. *)
Definition findBy {A K} `{EqDecision K} (key : A → K) (k : K) (xs : list A) : option A :=
  find (λ x, bool_decide (key x = k)) xs.

(** [xs'] is [xs] with [x] stored under its key: looking the key of [x]
    up gives [x], every other key gives what it gave, and the keys are
    in the order they were in, with the key of [x] added last when it
    was not among them. *)
Definition storedUnder {A K} `{EqDecision K} (key : A → K) (x : A) (xs xs' : list A)
    : Prop :=
  (∀ k, findBy key k xs' = if decide (k = key x) then Some x else findBy key k xs) ∧
  key <$> xs' = if decide (key x ∈ key <$> xs) then key <$> xs else (key <$> xs) ++ [key x].

(** [xs'] is [xs] without the items stored under [k]: looking [k] up
    gives nothing, every other key gives what it gave, and the keys
    that are left are in the order they were in. *)
Definition removedUnder {A K} `{EqDecision K} (key : A → K) (k : K) (xs xs' : list A)
    : Prop :=
  (∀ k', findBy key k' xs' = if decide (k' = k) then None else findBy key k' xs) ∧
  key <$> xs' = filter (λ k', k' ≠ k) (key <$> xs).

(** No two tasks, flows or triggers of the store have the same id. *)
Definition uniqueIds (s : Storage.t) : Prop :=
  NoDup (Task.id <$> Storage.tasks s) ∧
  NoDup (Flow.id <$> Storage.flows s) ∧
  NoDup (Trigger.id <$> Storage.triggers s).

(** ** background/runner.ts *)

(** The error of [chrome.tabs.query] for a handler that needs the
    active tab: [lastError], or no tab with a usable id. *)
Definition activeTabError (q : QueryResult) : option string :=
  match q with
  | QueryFailed lastError => Some lastError
  | QueryTabs (Some tabId :: _) =>
      if decide (tabId = 0%Z) then Some "No active tab found" else None
  | QueryTabs _ => Some "No active tab found"
  end.

(** The service worker without its run logs and its browser. *)
Definition exceptLogs (b : Background.t)
    : Storage.t * gmap Z RecordingBuffer.t * gmap string ConversationState.t :=
  (Storage.set_logs [] (Background.storage b),
   Background.recordingBuffers b, Background.conversationStates b).

(** [upsertLog] has an await between its read of the logs and its
    write. A call suspended there is a [PendingLog]. The runs that the
    triggers start are not awaited, so that the call of one run can
    read before the call of another has written. *)
Record PendingLog := {
  pending_log : FlowRunLog.t;
  pending_logs : list FlowRunLog.t (* what [getLogs()] returned to it *)
}.

Definition upsertLog_start (log : FlowRunLog.t) (s : Storage.t) : PendingLog :=
  {| pending_log := log; pending_logs := Storage.logs s |}.

Definition upsertLog_resume (p : PendingLog) (s : Storage.t) : Storage.t :=
  Storage.set_logs
    (upsert (λ l, bool_decide (FlowRunLog.id l = FlowRunLog.id (pending_log p)))
       (pending_log p) (pending_logs p)) s.

(** ** background/index.ts *)

Definition activeTabsOf (b : Background.t) : QueryResult :=
  Chrome.activeTabs (Background.chrome b).

(** The [RecordStep] requests of the recorder of the tab, one per
    step, served in order. *)
Definition recordAll (tabId : Z) (steps : list Step.t) (b : Background.t) : Background.t :=
  foldl (λ b step, (onMessage (ReqRecordStep step (Some tabId)) b).2) b steps.

(** A recording is under way on the tab: its buffer holds [recorded],
    in memory and in the store alike. *)
Definition recordingOn (tabId : Z) (recorded : list Step.t) (b : Background.t) : Prop :=
  ∃ buffer,
    Background.recordingBuffers b !! tabId = Some buffer ∧
    getRecordingBuffer tabId (Background.storage b) = Some buffer ∧
    RecordingBuffer.steps buffer = recorded.

(** No recording is under way on the tab. *)
Definition recordingOff (tabId : Z) (b : Background.t) : Prop :=
  Background.recordingBuffers b !! tabId = None ∧
  getRecordingBuffer tabId (Background.storage b) = None.


(** The same for every tab but [tabId], which has [cached] in memory:
    the state between the two writes of a handler. *)
Definition mirrorsBut (tabId : Z) (cached : option RecordingBuffer.t) (b : Background.t)
    : Prop :=
  Background.recordingBuffers b !! tabId = cached ∧
  ∀ other, other ≠ tabId →
    Background.recordingBuffers b !! other =
    getRecordingBuffer other (Background.storage b).

(** [m], started in a state where [P] holds, returns some [a] in a
    state where [Q a] holds, or throws in a state where [E] holds. *)
Definition hoare {A} (P : Background.t → Prop) (m : BG A)
    (Q : A → Background.t → Prop) (E : Background.t → Prop) : Prop :=
  ∀ b, P b →
    match m b with
    | (Returned a, b') => Q a b'
    | (Thrown _, b') => E b'
    end.

(** *** Triggers

    [runUrlTriggers] and the listener of [chrome.commands.onCommand]
    start their flows without awaiting them
    ([runFlow(...).catch(...)]): each is modelled by the runs it
    starts, in the order in which it starts them. *)

Global Instance TriggerType_eq_dec : EqDecision TriggerType.
Proof. solve_decision. Defined.

Record Launch := {
  launch_flowId : string;
  launch_tabId : option Z;
  launch_triggeredBy : TriggeredBy
}.

(** [url.includes(pattern)] *)
Definition includes (pattern url : string) : bool :=
  bool_decide (is_Some (String.index 0 pattern url)).

Section Triggers.
(** [new RegExp(pattern)]: the [test] of the expression, or [None]
    when the constructor throws. *)
Context (regExp : string → option (string → bool)).

Definition matchUrlPattern (pattern : option string) (url : string) : bool :=
  match pattern with
  | None => false
  | Some pattern =>
      if decide (pattern = EmptyString) then false
      else match regExp pattern with
           | Some test => test url
           | None => includes pattern url
           end
  end.

Definition runUrlTriggers (tabId : Z) (url : string) (s : Storage.t) : list Launch :=
  let triggers := Storage.triggers s in
  let flows := Storage.flows s in
  let active :=
    filter (λ t, Trigger.enabled t && bool_decide (Trigger.type t = Url) &&
                 matchUrlPattern (Trigger.urlPattern t) url) triggers in
  let fromTriggers :=
    omap (λ trigger,
            (λ flow, {| launch_flowId := Flow.id flow; launch_tabId := Some tabId;
                        launch_triggeredBy := ByTrigger Url |}) <$>
            find (λ f, bool_decide (Flow.id f = Trigger.flowId trigger) &&
                       Flow.enabled f) flows) active in
  let autoFlows :=
    filter (λ f, Flow.enabled f &&
                 existsb (λ p, matchUrlPattern (Some p) url)
                   (default [] (Flow.autoRunUrlPatterns f))) flows in
  fromTriggers ++
  ((λ flow, {| launch_flowId := Flow.id flow; launch_tabId := Some tabId;
               launch_triggeredBy := ByTrigger Url |}) <$> autoFlows).
End Triggers.

Definition onCommand (command : string) (s : Storage.t) : list Launch :=
  let triggers := Storage.triggers s in
  let flows := Storage.flows s in
  let active :=
    filter (λ t, Trigger.enabled t && bool_decide (Trigger.type t = Shortcut) &&
                 bool_decide (Trigger.shortcutName t = Some command)) triggers in
  omap (λ trigger,
          (λ flow, {| launch_flowId := Flow.id flow; launch_tabId := None;
                      launch_triggeredBy := ByTrigger Shortcut |}) <$>
          find (λ f, bool_decide (Flow.id f = Trigger.flowId trigger) &&
                     Flow.enabled f) flows) active.

(** The flow [flowId] is stored and enabled. *)
Definition enabledFlow (flowId : string) (s : Storage.t) : Prop :=
  ∃ flow, flow ∈ Storage.flows s ∧ Flow.id flow = flowId ∧ Flow.enabled flow = true.

(** ** content/executor.ts *)

(** The events of an element found at the attempt number [k], counted
    from 0: [k] queries that find nothing, each followed by a sleep of
    500ms, and the query that finds it. *)
Definition retries (css : string) (k : nat) : list Page.Event :=
  mjoin (replicate k [Page.QuerySelector css; Page.Sleep 500]) ++ [Page.QuerySelector css].

(** What the attempt number [i] made from the page [p] on finds: it
    comes two events after the attempt before it. *)
Definition attempt (p : Page.t) (css : string) (i : nat) : Page.Lookup :=
  Page.querySelector p (length (Page.events p) + 2 * i) css.

(** The selector finds nothing at the first [k] attempts, and [el] at
    the next. *)
Definition appearsAt (p : Page.t) (css : string) (k : nat) (el : Page.Element) : Prop :=
  (∀ i x, i < k → attempt p css i ≠ Page.Present x) ∧
  attempt p css k = Page.Present el.

(** Events that look at the page or let time pass, and change nothing. *)
Definition isLookup (e : Page.Event) : bool :=
  match e with
  | Page.Sleep _ | Page.QuerySelector _ | Page.Evaluate _ => true
  | _ => false
  end.

Definition isSleep (e : Page.Event) : bool :=
  match e with
  | Page.Sleep _ => true
  | _ => false
  end.

(** What a step of each type does to the element it has found. *)
Definition actsOn (step : Step.t) (el : Page.Element) : list Page.Event :=
  match Step.type step with
  | Click => [Page.ClickOn el]
  | Input =>
      [Page.Focus el; Page.SetValue el (default EmptyString (Step.value step));
       Page.Dispatch el "input"; Page.Dispatch el "change"]
  | Submit => [if Page.isForm el then Page.RequestSubmit el else Page.Dispatch el "submit"]
  | _ => []
  end.

(** The error of a step whose element was not found. *)
Definition notFound (step : Step.t) : string :=
  match Step.type step with
  | Click => "Element not found for click. Selector: " +:+ selectorStr step
  | Input => "Element not found for input. Selector: " +:+ selectorStr step
  | _ => "Element not found for submit"
  end.

(** The step acts on an element: it is a click, an input or a submit. *)
Definition needsElement (step : Step.t) : bool :=
  match Step.type step with
  | Click | Input | Submit => true
  | _ => false
  end.

(** A string that JavaScript takes for false: absent or empty. *)
Definition falsy (s : option string) : Prop := s = None ∨ s = Some EmptyString.

(** ** content/selectors.ts *)

Fixpoint allChars (P : ascii → bool) (s : string) : bool :=
  match s with
  | EmptyString => true
  | String c s' => P c && allChars P s'
  end.

(** The characters of the tag names of an HTML document, which
    [tagName] gives in upper case: upper-case letters, digits and the
    hyphen of custom elements. *)
Definition isTagChar (c : ascii) : bool :=
  let n := nat_of_ascii c in bool_decide (65 ≤ n ≤ 90 ∨ 48 ≤ n ≤ 57 ∨ n = 45).

Definition htmlDocument (document : Dom.Element) : Prop :=
  Forall (λ e, allChars isTagChar (Dom.tagName e)) (Dom.elements document).

(** The segment of an element in its XPath: its tag in lower case and
    its position among the siblings of that tag. *)
Definition xpathSegment (document : Dom.Element) (r : Dom.NodeRef) : string :=
  match Dom.node document r with
  | Some e =>
      toLowerCase (Dom.tagName e) +:+ "[" +:+
      pretty (indexAmongSameTag document r e) +:+ "]"
  | None => EmptyString
  end.

(** The segments from the root down to the element. *)
Fixpoint xpathSegments (document : Dom.Element) (r : Dom.NodeRef) : list string :=
  match r with
  | [] => [xpathSegment document []]
  | _ :: parent => xpathSegments document parent ++ [xpathSegment document r]
  end.

(** ** content/recorder.ts

    The recorder of a page: its [recording] flag, the capture
    listeners it has on the document, and the [RecordStep] messages it
    has sent to the service worker. The document and the address are
    those of the moment; [crypto.randomUUID] is an oracle, as in the
    service worker. *)

Inductive DomEventType := ClickEvent | InputEvent | ChangeEvent | SubmitEvent.

Inductive Listener := HandleClick | HandleInput | HandleSubmit.

Global Instance DomEventType_eq_dec : EqDecision DomEventType.
Proof. solve_decision. Defined.

Global Instance Listener_eq_dec : EqDecision Listener.
Proof. solve_decision. Defined.

(** An event that reaches the document: its target, if any, and the
    [value] property of the target, which only form fields have. *)
Record DomEvent := {
  event_type : DomEventType;
  event_target : option Dom.NodeRef;
  event_value : option string
}.

Module Recorder.
Record t := mk {
  recording : bool;
  listeners : list (DomEventType * Listener);
  document : Dom.Element;
  href : string;
  tokenAt : nat → string;
  tokenDraws : nat;
  sent : list Step.t
}.

Definition set_recording (v : bool) (r : t) : t :=
  mk v (listeners r) (document r) (href r) (tokenAt r) (tokenDraws r) (sent r).
Definition set_listeners (v : list (DomEventType * Listener)) (r : t) : t :=
  mk (recording r) v (document r) (href r) (tokenAt r) (tokenDraws r) (sent r).

(** The content script as the page has loaded it. *)
Definition loaded (document : Dom.Element) (href : string) (tokenAt : nat → string) : t :=
  mk false [] document href tokenAt 0 [].
End Recorder.

(** [randomId] in the page. *)
Definition page_randomId (prefix : string) (r : Recorder.t) : string * Recorder.t :=
  (prefix +:+ "-" +:+ Recorder.tokenAt r (Recorder.tokenDraws r),
   Recorder.mk (Recorder.recording r) (Recorder.listeners r) (Recorder.document r)
     (Recorder.href r) (Recorder.tokenAt r) (S (Recorder.tokenDraws r)) (Recorder.sent r)).

Definition sendStep (step : Step.t) (r : Recorder.t) : Recorder.t :=
  Recorder.mk (Recorder.recording r) (Recorder.listeners r) (Recorder.document r)
    (Recorder.href r) (Recorder.tokenAt r) (Recorder.tokenDraws r)
    (Recorder.sent r ++ [step]).

(** [{ tag: target.tagName.toLowerCase() }] *)
Definition tagMeta (e : Dom.Element) : gmap string string :=
  {[ "tag" := toLowerCase (Dom.tagName e) ]}.

(** The handlers; a target that is no element of the document is no
    target of an event of this document. *)
Definition handleClick (event : DomEvent) (r : Recorder.t) : Recorder.t :=
  if negb (Recorder.recording r) then r else
  match event_target event with
  | None => r
  | Some target =>
      match Dom.node (Recorder.document r) target with
      | None => r
      | Some e =>
          let '(id, r) := page_randomId "step" r in
          sendStep
            (Step.mk id None Click (buildSelectorInfo (Recorder.document r) target)
               None None (Some (Recorder.href r)) (Some (tagMeta e))) r
      end
  end.

Definition handleInput (event : DomEvent) (r : Recorder.t) : Recorder.t :=
  if negb (Recorder.recording r) then r else
  match event_target event with
  | None => r
  | Some target =>
      match Dom.node (Recorder.document r) target with
      | None => r
      | Some e =>
          let '(id, r) := page_randomId "step" r in
          sendStep
            (Step.mk id None Input (buildSelectorInfo (Recorder.document r) target)
               (event_value event) None (Some (Recorder.href r)) (Some (tagMeta e))) r
      end
  end.

Definition handleSubmit (event : DomEvent) (r : Recorder.t) : Recorder.t :=
  if negb (Recorder.recording r) then r else
  match event_target event with
  | None => r
  | Some target =>
      match Dom.node (Recorder.document r) target with
      | None => r
      | Some e =>
          let '(id, r) := page_randomId "step" r in
          sendStep
            (Step.mk id None Submit (buildSelectorInfo (Recorder.document r) target)
               None None (Some (Recorder.href r)) (Some (tagMeta e))) r
      end
  end.

(** [document.addEventListener(type, listener, true)]: a listener that
    is registered already for the type is not registered again. *)
Definition addEventListener (type : DomEventType) (listener : Listener) (r : Recorder.t)
    : Recorder.t :=
  if bool_decide ((type, listener) ∈ Recorder.listeners r) then r
  else Recorder.set_listeners (Recorder.listeners r ++ [(type, listener)]) r.

Definition removeEventListener (type : DomEventType) (listener : Listener)
    (r : Recorder.t) : Recorder.t :=
  Recorder.set_listeners
    (filter (λ l, l ≠ (type, listener)) (Recorder.listeners r)) r.

Definition addListeners (r : Recorder.t) : Recorder.t :=
  let r := addEventListener ClickEvent HandleClick r in
  let r := addEventListener InputEvent HandleInput r in
  let r := addEventListener ChangeEvent HandleInput r in
  addEventListener SubmitEvent HandleSubmit r.

Definition removeListeners (r : Recorder.t) : Recorder.t :=
  let r := removeEventListener ClickEvent HandleClick r in
  let r := removeEventListener InputEvent HandleInput r in
  let r := removeEventListener ChangeEvent HandleInput r in
  removeEventListener SubmitEvent HandleSubmit r.

Definition startRecording (r : Recorder.t) : Recorder.t :=
  if Recorder.recording r then r
  else addListeners (Recorder.set_recording true r).

Definition stopRecording (r : Recorder.t) : Recorder.t :=
  if negb (Recorder.recording r) then r
  else removeListeners (Recorder.set_recording false r).

(** The messages the content script gets; the recorder answers to two. *)
Inductive ContentMessage := MsgStartRecording | MsgStopRecording | MsgOther.

Definition onContentMessage (message : ContentMessage) (r : Recorder.t) : Recorder.t :=
  match message with
  | MsgStartRecording => startRecording r
  | MsgStopRecording => stopRecording r
  | MsgOther => r
  end.

Definition invoke (listener : Listener) (event : DomEvent) (r : Recorder.t) : Recorder.t :=
  match listener with
  | HandleClick => handleClick event r
  | HandleInput => handleInput event r
  | HandleSubmit => handleSubmit event r
  end.

(** The document dispatches an event to the listeners of its type, in
    the order of their registration. *)
Definition dispatchEvent (event : DomEvent) (r : Recorder.t) : Recorder.t :=
  foldl (λ r l, if bool_decide (l.1 = event_type event) then invoke l.2 event r else r)
    r (Recorder.listeners r).

(** What happens to a page: a message arrives, an event is
    dispatched, or the page changes its document or its address. *)
Inductive ContentInput :=
  | Message (message : ContentMessage)
  | Dispatched (event : DomEvent)
  | PageChange (document : Dom.Element) (href : string).

Definition contentStep (r : Recorder.t) (input : ContentInput) : Recorder.t :=
  match input with
  | Message message => onContentMessage message r
  | Dispatched event => dispatchEvent event r
  | PageChange document href =>
      Recorder.mk (Recorder.recording r) (Recorder.listeners r) document href
        (Recorder.tokenAt r) (Recorder.tokenDraws r) (Recorder.sent r)
  end.

(** The step type recorded for an event, and the step itself. *)
Definition recordedType (type : DomEventType) : StepType :=
  match type with
  | ClickEvent => Click
  | InputEvent | ChangeEvent => Input
  | SubmitEvent => Submit
  end.

Definition stepOfEvent (event : DomEvent) (r : Recorder.t) : option Step.t :=
  target ← event_target event;
  e ← Dom.node (Recorder.document r) target;
  Some (Step.mk ("step-" +:+ Recorder.tokenAt r (Recorder.tokenDraws r)) None
          (recordedType (event_type event))
          (buildSelectorInfo (Recorder.document r) target)
          (match event_type event with
           | InputEvent | ChangeEvent => event_value event
           | _ => None
           end)
          None (Some (Recorder.href r)) (Some (tagMeta e))).

Definition recorderListeners : list (DomEventType * Listener) :=
  [(ClickEvent, HandleClick); (InputEvent, HandleInput);
   (ChangeEvent, HandleInput); (SubmitEvent, HandleSubmit)].

(** ** background/llmClient.ts

    The client of the LLM: the settings stored under [llmSettings],
    and the endpoint seen through an oracle, as the tabs are. *)

Inductive LlmProvider := OpenAi | CustomProvider.

Module LlmSettings.
Record t := mk {
  enabled : bool;
  provider : LlmProvider;
  apiKey : option string;
  endpoint : option string;
  model : option string
}.
End LlmSettings.

(** [Partial<LlmSettings>]: a field that is absent is [None]. *)
Module LlmOverride.
Record t := mk {
  enabled : option bool;
  provider : option LlmProvider;
  apiKey : option string;
  endpoint : option string;
  model : option string
}.
End LlmOverride.

Inductive ChatRole := RoleSystem | RoleUser | RoleAssistant.

Record ChatMessage := { role : ChatRole; content : string }.

(** A POST to the endpoint; the content type and the temperature, 0.2,
    are the same in all of them. *)
Record FetchRequest := {
  fetch_url : string;
  fetch_authorization : string;
  fetch_model : string;
  fetch_messages : list ChatMessage
}.

(** What the endpoint answers: a status that is not ok with the text
    of the body, or a body read as JSON, if it can be, with its
    [choices[0].message.content], if it has one. *)
Inductive FetchResponse :=
  | NotOk (status : nat) (text : string)
  | Ok (json : Outcome (option string)).

(** [fetchAt] is [Thrown] when [fetch] rejects. *)
Module Llm.
Record t := mk {
  settings : option LlmSettings.t;
  fetchAt : nat → FetchRequest → Outcome FetchResponse;
  requests : list FetchRequest
}.
End Llm.

Abbreviation LLM := (Async Llm.t).

Definition DEFAULT_ENDPOINT : string := "https://api.openai.com/v1/chat/completions".
Definition DEFAULT_MODEL : string := "gpt-4o-mini".

Definition getLlmSettings : LLM (option LlmSettings.t) := gets Llm.settings.

Definition saveLlmSettings (settings : LlmSettings.t) : LLM unit :=
  modify (λ l, Llm.mk (Some settings) (Llm.fetchAt l) (Llm.requests l)).

Definition fetch (request : FetchRequest) : LLM FetchResponse := λ l,
  (Llm.fetchAt l (length (Llm.requests l)) request,
   Llm.mk (Llm.settings l) (Llm.fetchAt l) (Llm.requests l ++ [request])).

(** [!s] on an optional string. *)
Definition isFalsy (s : option string) : bool :=
  match s with
  | Some (String _ _) => false
  | _ => true
  end.

(** [a ?? b] on an optional field. *)
Definition orField {A} (a b : option A) : option A :=
  match a with Some _ => a | None => b end.

Definition loadSettings : LLM LlmSettings.t :=
  stored ← getLlmSettings;
  let settings :=
    default (LlmSettings.mk false OpenAi (Some EmptyString) (Some DEFAULT_ENDPOINT)
               (Some DEFAULT_MODEL)) stored in
  mret (LlmSettings.mk (LlmSettings.enabled settings) (LlmSettings.provider settings)
          (LlmSettings.apiKey settings)
          (orField (LlmSettings.endpoint settings) (Some DEFAULT_ENDPOINT))
          (orField (LlmSettings.model settings) (Some DEFAULT_MODEL))).

(** [{ ...settings, ...settingsOverride }] *)
Definition overridden (settings : LlmSettings.t) (override : option LlmOverride.t)
    : LlmSettings.t :=
  match override with
  | None => settings
  | Some o =>
      LlmSettings.mk
        (default (LlmSettings.enabled settings) (LlmOverride.enabled o))
        (default (LlmSettings.provider settings) (LlmOverride.provider o))
        (orField (LlmOverride.apiKey o) (LlmSettings.apiKey settings))
        (orField (LlmOverride.endpoint o) (LlmSettings.endpoint settings))
        (orField (LlmOverride.model o) (LlmSettings.model settings))
  end.

Definition callLlm (messages : list ChatMessage) (settingsOverride : option LlmOverride.t)
    : LLM string :=
  loaded ← loadSettings;
  let settings := overridden loaded settingsOverride in
  if negb (LlmSettings.enabled settings) then throw "LLM 機能が無効です" else
  if isFalsy (LlmSettings.apiKey settings) then throw "LLM APIキーが設定されていません" else
  let endpoint := or_default (LlmSettings.endpoint settings) DEFAULT_ENDPOINT in
  let model := or_default (LlmSettings.model settings) DEFAULT_MODEL in
  response ← fetch {|
    fetch_url := endpoint;
    fetch_authorization :=
      "Bearer " +:+ default EmptyString (LlmSettings.apiKey settings);
    fetch_model := model;
    fetch_messages := messages |};
  match response with
  | NotOk status text => throw ("LLM API error: " +:+ pretty status +:+ " " +:+ text)
  | Ok (Returned content) => mret (default EmptyString content)
  | Ok (Thrown message) => throw message
  end.

(** What a call answers to a response of the endpoint. *)
Definition answerOf (response : Outcome FetchResponse) : Outcome string :=
  match response with
  | Thrown message => Thrown message
  | Returned (NotOk status text) =>
      Thrown ("LLM API error: " +:+ pretty status +:+ " " +:+ text)
  | Returned (Ok (Thrown message)) => Thrown message
  | Returned (Ok (Returned content)) => Returned (default EmptyString content)
  end.

(** The settings a call works with, read off the store and the
    override: whether the client is enabled, and its key. *)
Definition enabledFor (override : option LlmOverride.t) (stored : option LlmSettings.t)
    : bool :=
  match override ≫= LlmOverride.enabled with
  | Some enabled => enabled
  | None => from_option LlmSettings.enabled false stored
  end.

Definition apiKeyFor (override : option LlmOverride.t) (stored : option LlmSettings.t)
    : string :=
  match override ≫= LlmOverride.apiKey with
  | Some key => key
  | None => default EmptyString (stored ≫= LlmSettings.apiKey)
  end.

(** ** The conversations of background/index.ts *)

(** The conversation states, stored and in memory. *)
Definition conversationsOf (b : Background.t)
    : list ConversationState.t * gmap string ConversationState.t :=
  (Storage.conversationStates (Background.storage b), Background.conversationStates b).

(** [st] is the state of the conversation, in memory and in the store. *)
Definition conversationIs (conversationId : string) (st : ConversationState.t)
    (b : Background.t) : Prop :=
  Background.conversationStates b !! conversationId = Some st ∧
  findBy ConversationState.conversationId conversationId
    (Storage.conversationStates (Background.storage b)) = Some st.

(** The state of a conversation of the tab in which, after what was
    [said], the answer of the assistant has been entered [n] times. *)
Definition answered (conversationId : string) (tabId : Z)
    (said : list (ConversationState.Role * string)) (answer : string) (n : nat)
    : ConversationState.t :=
  ConversationState.mk conversationId
    (said ++ replicate n (ConversationState.Assistant, answer)) tabId true.

(** ** The ids of the store *)

(** The tasks, flows and triggers of the store. *)
Definition itemsOf (b : Background.t) : list Task.t * list Flow.t * list Trigger.t :=
  let s := Background.storage b in
  (Storage.tasks s, Storage.flows s, Storage.triggers s).

Definition uniqueItems (b : Background.t) : Prop := uniqueIds (Background.storage b).

(** Every conversation state, stored or in memory, is marked active. *)
Definition everActive (b : Background.t) : Prop :=
  Forall (λ st, ConversationState.isActive st = true)
    (Storage.conversationStates (Background.storage b)) ∧
  map_Forall (λ _ st, ConversationState.isActive st = true)
    (Background.conversationStates b).

(** The ids of the conversations of the store. *)
Definition conversationIds (b : Background.t) : list string :=
  ConversationState.conversationId <$> Storage.conversationStates (Background.storage b).

(** A browser whose tab 1 takes every message but [StopRecording],
    which it rejects. *)
Definition stopRejectedChrome : Chrome.t :=
  Chrome.mk
    (λ _ _ message,
       match message with
       | StopRecording => Rejected "The tab was closed"
       | _ => Resolved true None
       end)
    [] (QueryTabs [Some 1%Z]) (λ n, "time-" +:+ pretty n) 0 (λ n, pretty n) 0.

(** * Properties *)

(** ** Tactics and lemmas on the monad and on [upsert] *)

Ltac run :=
  repeat (progress (cbn [mbind mret async_bind async_ret try_catch gets modify throw
                          onStorage fst snd]
                    || unfold mbind, mret, async_bind, async_ret, try_catch, gets,
                         modify, throw, onStorage)).

Lemma findIndex_Some {A} (p : A → bool) l idx :
  findIndex p l = Some idx → idx < length l.
Proof.
  revert idx. induction l as [|x l IH]; intros idx; simpl; [done|].
  destruct (p x); [intros [= <-]; lia|].
  destruct (findIndex p l) as [j|]; simpl; [|done].
  intros [= <-]. specialize (IH j eq_refl). lia.
Qed.

Lemma findIndex_insert {A} (p : A → bool) l idx x :
  findIndex p l = Some idx → p x = true → findIndex p (<[idx := x]> l) = Some idx.
Proof.
  revert idx. induction l as [|y l IH]; intros idx; simpl; [done|].
  destruct (p y) eqn:Hy.
  - intros [= <-] Hx. simpl. by rewrite Hx.
  - destruct (findIndex p l) as [j|] eqn:Hj; simpl; [|done].
    intros [= <-] Hx. simpl. rewrite Hy. by rewrite (IH j eq_refl Hx).
Qed.

Lemma findIndex_snoc {A} (p : A → bool) l x :
  findIndex p l = None → p x = true → findIndex p (l ++ [x]) = Some (length l).
Proof.
  induction l as [|y l IH]; simpl; intros Hl Hx; [by rewrite Hx|].
  destruct (p y); [done|].
  destruct (findIndex p l); [done|]. by rewrite IH.
Qed.

(** Writing twice under the same key is writing the second value. *)
Lemma upsert_upsert {A} (p : A → bool) x y l :
  p x = true → p y = true → upsert p x (upsert p y l) = upsert p x l.
Proof.
  intros Hx Hy. unfold upsert at 2 3.
  destruct (findIndex p l) as [idx|] eqn:Hl.
  - unfold upsert. rewrite (findIndex_insert _ _ _ _ Hl Hy).
    by rewrite list_insert_insert_eq.
  - unfold upsert. rewrite (findIndex_snoc _ _ _ Hl Hy).
    rewrite insert_app_r_alt; [|lia]. by rewrite Nat.sub_diag.
Qed.

Lemma upsert_elem {A} (p : A → bool) x l : x ∈ upsert p x l.
Proof.
  unfold upsert. destruct (findIndex p l) as [idx|] eqn:Hl.
  - apply list_elem_of_lookup. exists idx.
    apply list_lookup_insert_eq. by eapply findIndex_Some.
  - apply elem_of_app. right. by apply list_elem_of_singleton.
Qed.

(** ** The Flow Runner *)

Lemma allSucceedFrom_cons b n tabId step steps :
  allSucceedFrom b n tabId (step :: steps) →
  succeedsAt b n tabId step ∧ allSucceedFrom b (S n) tabId steps.
Proof.
  intros H. split.
  - specialize (H 0 step eq_refl). by rewrite Nat.add_0_r in H.
  - intros i s Hs. specialize (H (S i) s Hs).
    by replace (S n + i) with (n + S i) by lia.
Qed.

(** The loop on steps that all succeed: every step is sent, one
    success entry is logged for each, and the log is finalized as a
    success. *)
Lemma runFlow_loop_success steps : ∀ tabId flowLog b,
  allSucceedFrom b (length (sentOf b)) tabId steps →
  ∃ b' added finishedAt,
    runFlow_loop tabId steps flowLog b = (Returned tt, b') ∧
    logsOf b' = upsert (sameLog flowLog)
                  (finishedLog flowLog added Success finishedAt) (logsOf b) ∧
    entry <$> added = successEntry <$> steps ∧
    sentOf b' = sentOf b ++ executeMessages tabId steps.
Proof.
  induction steps as [|step steps IH]; intros tabId flowLog b Hall.
  - cbn [runFlow_loop]. unfold finalizeFlowLog, nowIso. run.
    eexists _, [], _. split_and!; [reflexivity| |done|by rewrite app_nil_r].
    unfold logsOf, upsertLog, finishedLog; cbn. by rewrite app_nil_r.
  - apply allSucceedFrom_cons in Hall as [[e He] Hall].
    cbn [runFlow_loop]. unfold runFlow_body, sendStepToTab, tabs_sendMessage.
    unfold replyTo, sentOf in He. run. rewrite He. run.
    unfold addStepLog, nowIso. run.
    match goal with |- context [runFlow_loop tabId steps ?l ?b2] =>
      destruct (IH tabId l b2) as (b' & added & fin & Hrun & Hlogs & Hentries & Hsent)
    end.
    { unfold sentOf; cbn. rewrite length_app; cbn.
      by rewrite Nat.add_1_r. }
    rewrite Hrun.
    eexists b', (_ :: added), fin. split_and!; [done| | |].
    + rewrite Hlogs. unfold logsOf, upsertLog; cbn.
      rewrite upsert_upsert; [|by apply bool_decide_eq_true..].
      unfold finishedLog; cbn. by rewrite <-app_assoc.
    + cbn. by rewrite Hentries.
    + rewrite Hsent. unfold sentOf; cbn. by rewrite <-app_assoc.
Qed.

(** The loop on steps of which [step] is the first to fail: the steps
    before it are logged as successes, [step] as the one failure, the
    log is finalized as failed, and nothing of [post] is sent. *)
Lemma runFlow_loop_failure pre : ∀ tabId flowLog b step post message,
  allSucceedFrom b (length (sentOf b)) tabId pre →
  failsAt b (length (sentOf b) + length pre) tabId step message →
  ∃ b' added failed finishedAt,
    runFlow_loop tabId (pre ++ step :: post) flowLog b = (Returned tt, b') ∧
    logsOf b' = upsert (sameLog flowLog)
                  (finishedLog flowLog (added ++ [failed]) Failed finishedAt) (logsOf b) ∧
    entry <$> added = successEntry <$> pre ∧
    entry failed = (Step.id step, Failed, message) ∧
    sentOf b' = sentOf b ++ executeMessages tabId (pre ++ [step]).
Proof.
  induction pre as [|s pre IH]; intros tabId flowLog b step post message Hall Hfail.
  - rewrite Nat.add_0_r in Hfail. cbn [app runFlow_loop].
    unfold runFlow_body, sendStepToTab, tabs_sendMessage.
    unfold failsAt, replyTo, sentOf in Hfail. run.
    destruct Hfail as [Hfail|(lastError & -> & Hfail)]; rewrite Hfail; run;
      unfold addStepLog, finalizeFlowLog, nowIso; run;
      (eexists _, [], (StepRunLog.mk (Step.id step) (Step.name step) Failed _ _ _), _;
       split_and!; [reflexivity| |done|reflexivity|done]);
      unfold logsOf, upsertLog; cbn;
      (rewrite upsert_upsert; [|by apply bool_decide_eq_true..]); reflexivity.
  - apply allSucceedFrom_cons in Hall as [[e He] Hall].
    cbn [app runFlow_loop]. unfold runFlow_body, sendStepToTab, tabs_sendMessage.
    unfold replyTo, sentOf in He. run. rewrite He. run.
    unfold addStepLog, nowIso. run.
    match goal with |- context [runFlow_loop tabId _ ?l ?b2] =>
      destruct (IH tabId l b2 step post message)
        as (b' & added & failed & fin & Hrun & Hlogs & Hentries & Hfailed & Hsent)
    end.
    { unfold sentOf; cbn. rewrite length_app; cbn. by rewrite Nat.add_1_r. }
    { unfold sentOf; cbn. rewrite length_app; cbn.
      by replace (length (Chrome.sent (Background.chrome b)) + 1 + length pre)
        with (length (sentOf b) + S (length pre)) by (unfold sentOf; lia). }
    rewrite Hrun.
    eexists b', (_ :: added), failed, fin. split_and!; [done| | |done|].
    + rewrite Hlogs. unfold logsOf, upsertLog; cbn.
      rewrite upsert_upsert; [|by apply bool_decide_eq_true..].
      unfold finishedLog; cbn. by rewrite <-app_assoc.
    + cbn. by rewrite Hentries.
    + rewrite Hsent. unfold sentOf; cbn. by rewrite <-app_assoc.
Qed.

(** What [runFlow] does before its loop leaves the messages, the
    oracles and the logs as they are. *)
Lemma createFlowLog_spec flow triggeredBy b :
  ∃ flowLog b1,
    createFlowLog flow triggeredBy None b = (Returned flowLog, b1) ∧
    FlowRunLog.flowId flowLog = Flow.id flow ∧
    FlowRunLog.stepLogs flowLog = [] ∧
    FlowRunLog.status flowLog = Partial ∧
    sentOf b1 = sentOf b ∧ logsOf b1 = logsOf b ∧
    (∀ n tabId step, replyTo b1 n tabId step = replyTo b n tabId step).
Proof.
  unfold createFlowLog, randomId, nowIso. run.
  eexists _, _. split_and!; reflexivity.
Qed.

Lemma allSucceedFrom_ext b b1 n tabId steps :
  (∀ n tabId step, replyTo b1 n tabId step = replyTo b n tabId step) →
  allSucceedFrom b n tabId steps → allSucceedFrom b1 n tabId steps.
Proof.
  intros Hext H i s Hs. destruct (H i s Hs) as [e He].
  exists e. by rewrite Hext.
Qed.

Lemma flattenSteps_bind flow (tasksMap : gmap string (list Step.t)) :
  flattenSteps flow tasksMap =
    Flow.taskIds flow ≫= (λ taskId, default [] (tasksMap !! taskId)).
Proof.
  unfold flattenSteps.
  assert (∀ ids acc,
    foldl (λ steps taskId, steps ++ default [] (tasksMap !! taskId)) acc ids =
    acc ++ (ids ≫= (λ taskId, default [] (tasksMap !! taskId)))) as Hfold.
  { induction ids as [|taskId ids IH]; intros acc; cbn.
    - by rewrite app_nil_r.
    - by rewrite IH, app_assoc. }
  by rewrite Hfold.
Qed.

Lemma tasksMap_lookup taskId tasks : ∀ m : gmap string (list Step.t),
  foldl (λ m t, <[Task.id t := Task.steps t]> m) m tasks !! taskId =
    match lastWithId taskId tasks with
    | Some t => Some (Task.steps t)
    | None => m !! taskId
    end.
Proof.
  unfold lastWithId. induction tasks as [|t tasks IH]; intros m; [done|].
  cbn [foldl]. rewrite IH.
  destruct (decide (id_of t = taskId)) as [Ht|Ht].
  - rewrite filter_cons_True by done. rewrite last_cons.
    destruct (last _); [done|]. rewrite <-Ht. apply lookup_insert_eq.
  - rewrite filter_cons_False by done.
    destruct (last _); [done|]. by apply lookup_insert_ne.
Qed.

(** The steps that [runFlow] computes with [flattenSteps] are the
    flattened sequence. *)
Lemma stepsOfFlow_flattened flow b : stepsOfFlow flow b = flattened flow (tasksOf b).
Proof.
  unfold stepsOfFlow, flattened. rewrite flattenSteps_bind.
  apply list_bind_ext; [|done]. intros taskId. unfold stepsOfTask, tasksOf.
  rewrite tasksMap_lookup. by destruct (lastWithId _ _).
Qed.

(** C1. A run of a flow works through the flattened steps, those of
    the tasks of the flow in the order of [taskIds], in order.
    When the executor reports success for every step, the run log is
    persisted with status success and one success entry per step, and
    exactly the steps were sent. When [step] is the first whose result
    is a failure (or whose sending raises an error), the persisted log
    has status failed, the success entries of the steps before [step]
    followed by the single failed entry of [step] with the error
    message, and the steps after [step] were never sent. *)
Theorem runFlow_log flowId explicitTabId triggeredBy flow tabId b :
  find (λ f, bool_decide (Flow.id f = flowId)) (Storage.flows (Background.storage b))
    = Some flow →
  targetTab explicitTabId b tabId →
  let steps := flattened flow (tasksOf b) in
  let n := length (sentOf b) in
  (allSucceedFrom b n tabId steps →
   ∃ b' log,
     runFlow flowId explicitTabId triggeredBy b = (Returned tt, b') ∧
     log ∈ logsOf b' ∧
     logsOf b' = upsert (sameLog log) log (logsOf b) ∧
     FlowRunLog.flowId log = Flow.id flow ∧
     FlowRunLog.status log = Success ∧
     entry <$> FlowRunLog.stepLogs log = successEntry <$> steps ∧
     sentOf b' = sentOf b ++ executeMessages tabId steps)
  ∧
  (∀ pre step post message,
     steps = pre ++ step :: post →
     allSucceedFrom b n tabId pre →
     failsAt b (n + length pre) tabId step message →
     ∃ b' log,
       runFlow flowId explicitTabId triggeredBy b = (Returned tt, b') ∧
       log ∈ logsOf b' ∧
       logsOf b' = upsert (sameLog log) log (logsOf b) ∧
       FlowRunLog.flowId log = Flow.id flow ∧
       FlowRunLog.status log = Failed ∧
       entry <$> FlowRunLog.stepLogs log =
         (successEntry <$> pre) ++ [(Step.id step, Failed, message)] ∧
       sentOf b' = sentOf b ++ executeMessages tabId (pre ++ [step])).
Proof.
  intros Hflow Htab steps n.
  assert (Hprelude :
    runFlow flowId explicitTabId triggeredBy b =
    (flowLog ← createFlowLog flow triggeredBy None;
     runFlow_loop tabId steps flowLog) b).
  { subst steps. rewrite <-stepsOfFlow_flattened. unfold runFlow. run. rewrite Hflow.
    destruct Htab as [->|[-> Hq]]; [done|]. by rewrite Hq. }
  destruct (createFlowLog_spec flow triggeredBy b)
    as (flowLog & b1 & Hcreate & HflowId & Hnil & _ & Hsent1 & Hlogs1 & Hext).
  split.
  - intros Hall.
    destruct (runFlow_loop_success steps tabId flowLog b1)
      as (b' & added & fin & Hrun & Hlogs & Hentries & Hsent).
    { rewrite Hsent1. by eapply allSucceedFrom_ext. }
    exists b', (finishedLog flowLog added Success fin).
    split_and!; [| | |done|done| |].
    + rewrite Hprelude. run. by rewrite Hcreate.
    + rewrite Hlogs. apply upsert_elem.
    + by rewrite Hlogs, Hlogs1.
    + cbn. by rewrite Hnil.
    + by rewrite Hsent, Hsent1.
  - intros pre step post message Hsteps Hall Hfail.
    destruct (runFlow_loop_failure pre tabId flowLog b1 step post message)
      as (b' & added & failed & fin & Hrun & Hlogs & Hentries & Hfailed & Hsent).
    { rewrite Hsent1. by eapply allSucceedFrom_ext. }
    { rewrite Hsent1. destruct Hfail as [Hfail|(e & -> & Hfail)]; [left|right; exists e; split; [done|]];
        by rewrite Hext. }
    exists b', (finishedLog flowLog (added ++ [failed]) Failed fin).
    split_and!; [| | |done|done| |].
    + rewrite Hprelude. run. rewrite Hcreate. by rewrite Hsteps.
    + rewrite Hlogs. apply upsert_elem.
    + by rewrite Hlogs, Hlogs1.
    + cbn. rewrite Hnil. cbn. rewrite fmap_app. cbn. by rewrite Hentries, Hfailed.
    + by rewrite Hsent, Hsent1.
Qed.

Lemma find_None {A} (p : A → bool) l :
  (∀ x, x ∈ l → p x = false) → find p l = None.
Proof.
  induction l as [|x l IH]; intros H; simpl; [done|].
  rewrite (H x) by apply list_elem_of_here.
  apply IH. intros y Hy. apply H. by apply list_elem_of_further.
Qed.

(** C10. When [flowId] matches no stored flow, [runFlow] throws
    "Flow not found" and leaves the service worker as it was: no log is
    created, the persisted logs are unchanged, and nothing is sent. *)
Theorem runFlow_unknown_flow flowId explicitTabId triggeredBy b :
  (∀ f, f ∈ Storage.flows (Background.storage b) → Flow.id f ≠ flowId) →
  runFlow flowId explicitTabId triggeredBy b = (Thrown "Flow not found", b).
Proof.
  intros Hnone. unfold runFlow. run.
  rewrite find_None; [done|].
  intros f Hf. apply bool_decide_eq_false. by apply Hnone.
Qed.

(** ** Import and export *)

Section MergeById.
Context {T : Type} `{HasId T}.

Implicit Types (m : list (string * T)) (l : list T) (k : string) (x : T).

Lemma map_get_set k k' x m :
  map_get k (map_set k' x m) = if decide (k = k') then Some x else map_get k m.
Proof.
  unfold map_get. induction m as [|[k0 x0] m IH]; simpl.
  - case_bool_decide; case_decide; simpl in *; congruence.
  - destruct (decide (k0 = k')) as [->|Hne]; simpl.
    + case_bool_decide; case_decide; simpl in *; congruence.
    + case_bool_decide; [|done]. simpl in *. case_decide; congruence.
Qed.

Lemma map_set_keys k x m k' :
  k' ∈ (map_set k x m).*1 → k' = k ∨ k' ∈ m.*1.
Proof.
  induction m as [|[k0 x0] m IH]; simpl.
  - intros ?%list_elem_of_singleton. by left.
  - destruct (decide (k0 = k)) as [->|Hne]; simpl.
    + intros [->|?]%elem_of_cons; [by left|]. right. by apply list_elem_of_further.
    + intros [->|[?|?]%IH]%elem_of_cons.
      * right. apply list_elem_of_here.
      * by left.
      * right. by apply list_elem_of_further.
Qed.

Lemma map_set_NoDup k x m : NoDup m.*1 → NoDup (map_set k x m).*1.
Proof.
  induction m as [|[k0 x0] m IH]; simpl; intros Hnd.
  - apply NoDup_singleton.
  - apply NoDup_cons in Hnd as [Hk0 Hnd].
    destruct (decide (k0 = k)) as [->|Hne]; simpl.
    + by apply NoDup_cons.
    + apply NoDup_cons. split; [|by apply IH].
      intros [->|?]%map_set_keys; done.
Qed.

Lemma map_set_wellKeyed x m : wellKeyed m → wellKeyed (map_set (id_of x) x m).
Proof.
  unfold wellKeyed. induction m as [|[k0 x0] m IH]; simpl; intros Hwk.
  - by apply Forall_singleton.
  - apply Forall_cons in Hwk as [Hk0 Hwk].
    destruct (decide (k0 = id_of x)); apply Forall_cons; auto.
Qed.

Lemma setAll_NoDup l : ∀ m, NoDup m.*1 → NoDup (setAll m l).*1.
Proof.
  induction l as [|x l IH]; intros m Hnd; [done|].
  apply IH. by apply map_set_NoDup.
Qed.

Lemma setAll_wellKeyed l : ∀ m, wellKeyed m → wellKeyed (setAll m l).
Proof.
  induction l as [|x l IH]; intros m Hwk; [done|].
  apply IH. by apply map_set_wellKeyed.
Qed.

Lemma setAll_get k l : ∀ m,
  map_get k (setAll m l) =
    match lastWithId k l with Some x => Some x | None => map_get k m end.
Proof.
  unfold lastWithId.
  induction l as [|x l IH]; intros m; [done|].
  cbn [setAll foldl]. fold (setAll (map_set (id_of x) x m) l).
  rewrite IH, map_get_set.
  destruct (decide (id_of x = k)) as [Hk|Hk].
  - rewrite filter_cons_True by done. rewrite last_cons.
    destruct (last _); [done|]. by rewrite decide_True.
  - rewrite filter_cons_False by done.
    destruct (last _); [done|]. by rewrite decide_False.
Qed.

Lemma map_values_get x m :
  NoDup m.*1 → wellKeyed m → x ∈ map_values m ↔ map_get (id_of x) m = Some x.
Proof.
  unfold map_values, map_get, wellKeyed.
  induction m as [|[k0 x0] m IH]; simpl; intros Hnd Hwk.
  - split; [by intros ?%elem_of_nil|done].
  - apply NoDup_cons in Hnd as [Hk0 Hnd]. apply Forall_cons in Hwk as [Hid Hwk].
    simpl in Hid. rewrite elem_of_cons, (IH Hnd Hwk).
    case_bool_decide as Hk; simpl.
    + split; [|by intros [= ->]; left].
      intros [->|Hget]; [done|]. exfalso. apply Hk0.
      destruct (find _ m) as [[k1 x1]|] eqn:Hfind; [|done].
      simpl in Hget. injection Hget as ->.
      assert ((k1, x) ∈ m) as Hin.
      { clear -Hfind. induction m as [|e m IH]; simpl in *; [done|].
        destruct (bool_decide _); [injection Hfind as ->; apply list_elem_of_here|].
        apply list_elem_of_further. by apply IH. }
      rewrite Forall_forall in Hwk. specialize (Hwk _ Hin). simpl in Hwk, Hk.
      apply list_elem_of_fmap. exists (k1, x). split; [|done]. simpl. congruence.
    + split; [|by right]. intros [->|?]; [|done]. by subst.
Qed.

Lemma mergeById_isMergeOf base incoming :
  isMergeOf base incoming (mergeById base incoming).
Proof.
  unfold mergeById. fold (setAll [] base). fold (setAll (setAll [] base) incoming).
  assert (NoDup (setAll (setAll [] base) incoming).*1) as Hnd.
  { apply setAll_NoDup, setAll_NoDup. apply NoDup_nil_2. }
  assert (wellKeyed (setAll (setAll [] base) incoming)) as Hwk.
  { apply setAll_wellKeyed, setAll_wellKeyed. apply Forall_nil_2. }
  split.
  - unfold map_values. rewrite <-list_fmap_compose.
    rewrite (Forall_fmap_ext_1 (id_of ∘ snd) fst); [exact Hnd|].
    unfold wellKeyed in Hwk. eapply Forall_impl; [exact Hwk|]. by intros [? ?].
  - intros x. rewrite (map_values_get _ _ Hnd Hwk), !setAll_get.
    destruct (lastWithId (id_of x) incoming) as [y|].
    { split; [by left|by intros [?|[? ?]]]. }
    destruct (lastWithId (id_of x) base) as [y|].
    + split; [by right|by intros [?|[_ ?]]].
    + split; [done|by intros [?|[_ ?]]].
Qed.
End MergeById.

(** C9. In merge mode, each of the three collections becomes the
    id-keyed union of what was stored and what comes in, an incoming
    item taking the place of a stored item with its id; importing [B]
    over a stored [A] with another id gives [A; B]. In replace mode,
    each collection becomes exactly what comes in, and importing [B]
    over [A] gives [B] alone. *)
Theorem importData_modes (payload : ImportExportPayload.t) (s : Storage.t) :
  (let s' := importData payload MergeMode s in
   isMergeOf (Storage.tasks s) (default [] (ImportExportPayload.tasks payload))
     (Storage.tasks s') ∧
   isMergeOf (Storage.flows s) (default [] (ImportExportPayload.flows payload))
     (Storage.flows s') ∧
   isMergeOf (Storage.triggers s) (default [] (ImportExportPayload.triggers payload))
     (Storage.triggers s'))
  ∧
  (let s' := importData payload ReplaceMode s in
   Storage.tasks s' = default [] (ImportExportPayload.tasks payload) ∧
   Storage.flows s' = default [] (ImportExportPayload.flows payload) ∧
   Storage.triggers s' = default [] (ImportExportPayload.triggers payload))
  ∧
  (∀ A B : Task.t,
     Storage.tasks s = [A] → ImportExportPayload.tasks payload = Some [B] →
     Task.id A ≠ Task.id B →
     Storage.tasks (importData payload MergeMode s) = [A; B] ∧
     Storage.tasks (importData payload ReplaceMode s) = [B]).
Proof.
  split; [|split].
  - cbn. split_and!; apply mergeById_isMergeOf.
  - cbn. done.
  - intros A B HA HB Hne. cbn. rewrite HA, HB. cbn.
    unfold mergeById, id_of, task_has_id; cbn. by rewrite decide_False.
Qed.

(** ** Deleting a flow *)

(** One call of [deleteTrigger] on its own removes the trigger. *)
Lemma deleteTrigger_alone triggerId s :
  deleteTrigger_resume (deleteTrigger_start triggerId s) s = deleteTrigger triggerId s.
Proof. reflexivity. Qed.

Lemma filter_all {A} (P : A → Prop) `{!∀ x, Decision (P x)} (l : list A) :
  (∀ x, P x) → filter P l = l.
Proof.
  intros HP. induction l as [|x l IH]; [done|].
  rewrite filter_cons_True by done. by rewrite IH.
Qed.

(** Awaited one after the other, the calls remove every trigger named. *)
Lemma deleteTrigger_each_triggers ids : ∀ s,
  Storage.triggers (deleteTrigger_each ids s) =
    filter (λ t, Trigger.id t ∉ ids) (Storage.triggers s).
Proof.
  induction ids as [|id ids IH]; intros s; cbn.
  - symmetry. apply filter_all. intros t. apply not_elem_of_nil.
  - fold (deleteTrigger_each ids (deleteTrigger id s)). rewrite IH. cbn.
    unfold deleteTrigger_next. rewrite list_filter_filter.
    apply list_filter_iff. intros t. rewrite not_elem_of_cons. tauto.
Qed.

(** Whatever the order in which the suspended calls resume, the store
    ends with what the last of them wrote: the list each of them had
    read, less one trigger. *)
Lemma resumes_last_write pending s s' :
  resumes pending s s' → pending ≠ [] →
  ∃ p, p ∈ pending ∧
       Storage.triggers s' = deleteTrigger_next (pending_id p) (pending_triggers p).
Proof.
  induction 1 as [s|before p after s s' Hrest IH]; intros Hne; [done|].
  destruct (decide (before ++ after = [])) as [Hnil|Hmore].
  - rewrite Hnil in Hrest. inversion Hrest as [s0 Hs0 Hs|b0 p0 a0 ? ? ? Heq]; subst.
    + exists p. split; [|done]. apply elem_of_app. right. apply list_elem_of_here.
    + by destruct b0.
  - destruct (IH Hmore) as (q & Hq & Htriggers). exists q. split; [|done].
    apply elem_of_app in Hq as [?|?]; apply elem_of_app; [by left|].
    right. by apply list_elem_of_further.
Qed.

(** The calls of [Promise.all] resuming in the order of their start is
    one of these orders. *)
Lemma resumes_in_order pending : ∀ s,
  resumes pending s (foldl (λ s p, deleteTrigger_resume p s) s pending).
Proof.
  induction pending as [|p pending IH]; intros s; [constructor|].
  apply (resumes_one [] p pending). apply IH.
Qed.

(** C7, at the input on which the code departs from it: the flow f1 is
    referenced by the triggers t1 and t2, and t3 references f2.
    Deleting f1 leaves t1 in the store next to t3, because both calls
    of [deleteTrigger] read the trigger list before either writes, and
    the write of the second (the list less t2) lands last. The same
    input with the calls awaited in turn loses both t1 and t2; and in
    whatever order the two suspended calls resume, one of t1 and t2
    survives. *)
Theorem handleDeleteFlow_keeps_orphan :
  Storage.triggers (handleDeleteFlow_storage "f1" threeTriggers) =
    [sampleTrigger "t1" "f1"; sampleTrigger "t3" "f2"] ∧
  Storage.triggers (deleteTrigger_each ["t1"; "t2"] (deleteFlow "f1" threeTriggers)) =
    [sampleTrigger "t3" "f2"] ∧
  (∀ s',
     let s := deleteFlow "f1" threeTriggers in
     resumes [deleteTrigger_start "t1" s; deleteTrigger_start "t2" s] s s' →
     Storage.triggers s' = [sampleTrigger "t1" "f1"; sampleTrigger "t3" "f2"] ∨
     Storage.triggers s' = [sampleTrigger "t2" "f1"; sampleTrigger "t3" "f2"]).
Proof.
  split_and!; [done|done|].
  intros s' s Hres.
  destruct (resumes_last_write _ _ _ Hres) as (p & Hp & ->); [done|].
  apply elem_of_cons in Hp as [->|Hp]; [by right|].
  apply list_elem_of_singleton in Hp as ->. by left.
Qed.

(** ** Recording buffers

    A small program logic over [BG]: [triple I m Q] for an invariant
    [I], and [keeps f m] for handlers that leave a part of the state alone. *)

Section Triples.
Context (I : Background.t → Prop).

Lemma triple_ret {A} (a : A) (Q : A → Prop) : Q a → triple I (mret a) Q.
Proof. by intros HQ b Hb. Qed.

Lemma triple_throw {A} message (Q : A → Prop) : triple I (throw message) Q.
Proof. by intros b Hb. Qed.

Lemma triple_bind {A B} (m : BG A) (k : A → BG B) Q R :
  triple I m Q → (∀ a, Q a → triple I (k a) R) → triple I (m ≫= k) R.
Proof.
  intros Hm Hk b Hb. specialize (Hm b Hb). run.
  destruct (m b) as [[a|e] b']; [|done].
  destruct Hm as [Hb' HQ]. by apply Hk.
Qed.

Lemma triple_try_catch {A} (m : BG A) (h : string → BG A) Q :
  triple I m Q → (∀ e, triple I (h e) Q) → triple I (try_catch m h) Q.
Proof.
  intros Hm Hh b Hb. specialize (Hm b Hb). run.
  destruct (m b) as [[a|e] b']; [done|]. by apply Hh.
Qed.

Lemma triple_weaken {A} (m : BG A) (Q R : A → Prop) :
  triple I m Q → (∀ a, Q a → R a) → triple I m R.
Proof.
  intros Hm HQR b Hb. specialize (Hm b Hb).
  destruct (m b) as [[a|e] b']; [|done]. destruct Hm. auto.
Qed.

(** What a triple says of the state alone. *)
Lemma triple_state {A} (m : BG A) Q b : triple I m Q → I b → I (m b).2.
Proof.
  intros Hm Hb. specialize (Hm b Hb).
  destruct (m b) as [[a|e] b']; [by destruct Hm|done].
Qed.
End Triples.

Section Keeps.
Context {X : Type} (f : Background.t → X).

Lemma keeps_ret {A} (a : A) : keeps f (mret a : BG A).
Proof. by intros b. Qed.

Lemma keeps_throw {A} message : keeps f (throw message : BG A).
Proof. by intros b. Qed.

Lemma keeps_bind {A B} (m : BG A) (k : A → BG B) :
keeps f m → (∀ a, keeps f (k a)) → keeps f (m ≫= k).
Proof.
intros Hm Hk b. specialize (Hm b). run.
destruct (m b) as [[a|e] b']; [|done]. by rewrite Hk.
Qed.

Lemma keeps_try_catch {A} (m : BG A) (h : string → BG A) :
keeps f m → (∀ e, keeps f (h e)) → keeps f (try_catch m h).
Proof.
intros Hm Hh b. specialize (Hm b). run.
destruct (m b) as [[a|e] b']; [done|]. by rewrite Hh.
Qed.
End Keeps.

(** The operations that a handler is made of keep [f] when computing
    shows it. *)
Ltac keeps_leaf :=
  solve [ intros ?;
          unfold nowIso, randomId, tabs_sendMessage, tabs_postMessage, queryActiveTab,
            cache_set, cache_get, cache_delete, onStorage, updateConversation,
            conversation_set, gets, modify, throw;
          cbn; repeat case_match; reflexivity ].

Ltac keeps_steps :=
  repeat first
    [ apply keeps_bind; [|intros ?]
    | apply keeps_try_catch; [|intros ?]
    | apply keeps_ret
    | assumption
    | match goal with |- keeps _ (match ?x with _ => _ end) => destruct x end
    | match goal with |- keeps _ (if ?x then _ else _) => destruct x end
    | match goal with H : ∀ _, keeps _ _ |- _ => apply H end
    | keeps_leaf ].

Lemma keeps_addStepLog {X} (f : Background.t → X) flowLog step status errorMessage :
  (∀ s c b, f (Background.set_chrome c (Background.set_storage
                (Storage.set_logs s (Background.storage b)) b)) = f b) →
  (∀ c b, f (Background.set_chrome c b) = f b) →
  keeps f (addStepLog flowLog step status errorMessage).
Proof.
  intros Hlogs Hchrome b. unfold addStepLog, nowIso, upsertLog. run.
  destruct b as [c s rb cs]. cbn. exact (Hlogs _ _ (Background.mk c s rb cs)).
Qed.

Lemma keeps_finalizeFlowLog {X} (f : Background.t → X) flowLog status :
  (∀ s c b, f (Background.set_chrome c (Background.set_storage
                (Storage.set_logs s (Background.storage b)) b)) = f b) →
  keeps f (finalizeFlowLog flowLog status).
Proof.
  intros Hlogs b. unfold finalizeFlowLog, nowIso, upsertLog. run.
  destruct b as [c s rb cs]. cbn. exact (Hlogs _ _ (Background.mk c s rb cs)).
Qed.





Lemma findIndex_lookup {A} (p : A → bool) l idx :
  findIndex p l = Some idx → ∃ y, l !! idx = Some y ∧ p y = true.
Proof.
  revert idx. induction l as [|x l IH]; intros idx; simpl; [done|].
  destruct (p x) eqn:Hx; [intros [= <-]; by exists x|].
  destruct (findIndex p l) as [j|]; simpl; [|done].
  intros [= <-]. by apply IH.
Qed.

Lemma findIndex_None {A} (p : A → bool) l x :
  findIndex p l = None → x ∈ l → p x = false.
Proof.
  induction l as [|y l IH]; simpl; [by intros _ ?%elem_of_nil|].
  destruct (p y) eqn:Hy; [done|].
  destruct (findIndex p l); [done|].
  intros _ [->|?]%elem_of_cons; auto.
Qed.

Lemma find_Some {A} (p : A → bool) l x : find p l = Some x → x ∈ l ∧ p x = true.
Proof.
  induction l as [|y l IH]; simpl; [done|].
  destruct (p y) eqn:Hy.
  - intros [= ->]. split; [apply list_elem_of_here|done].
  - intros [? ?]%IH. split; [by apply list_elem_of_further|done].
Qed.

(** The two writers of the stored buffers keep them one per tab. *)
Lemma upsertRecordingBuffer_NoDup buffer s :
  NoDup (RecordingBuffer.tabId <$> Storage.recordingBuffers s) →
  NoDup (RecordingBuffer.tabId <$>
           Storage.recordingBuffers (upsertRecordingBuffer buffer s)).
Proof.
  intros Hnd. unfold upsertRecordingBuffer. cbn. unfold upsert.
  destruct (findIndex _ _) as [idx|] eqn:Hidx.
  - apply findIndex_lookup in Hidx as (y & Hy & Hsame).
    apply bool_decide_eq_true in Hsame.
    rewrite list_fmap_insert, list_insert_id; [done|].
    by rewrite list_lookup_fmap, Hy, <-Hsame.
  - rewrite fmap_app. apply NoDup_app. split_and!; [done| |apply NoDup_singleton].
    intros t Ht ->%list_elem_of_singleton.
    apply list_elem_of_fmap in Ht as (y & Hty & Hy).
    pose proof (findIndex_None _ _ _ Hidx Hy) as Hp.
    by apply bool_decide_eq_false in Hp.
Qed.

Lemma removeRecordingBuffer_NoDup tabId s :
  NoDup (RecordingBuffer.tabId <$> Storage.recordingBuffers s) →
  NoDup (RecordingBuffer.tabId <$>
           Storage.recordingBuffers (removeRecordingBuffer tabId s)).
Proof.
  intros Hnd. cbn. eapply sublist_NoDup; [exact Hnd|].
  apply fmap_sublist, sublist_filter.
Qed.

Lemma triple_upsertRecordingBuffer buffer :
  triple oneBufferPerTab (onStorage (upsertRecordingBuffer buffer)) (λ _, True).
Proof.
  intros b [Hnd Hcache]. split; [|done]. split; [|done].
  by apply upsertRecordingBuffer_NoDup.
Qed.

Lemma triple_removeRecordingBuffer tabId :
  triple oneBufferPerTab (onStorage (removeRecordingBuffer tabId)) (λ _, True).
Proof.
  intros b [Hnd Hcache]. split; [|done]. split; [|done].
  by apply removeRecordingBuffer_NoDup.
Qed.


Lemma triple_cache_delete tabId :
  triple oneBufferPerTab (cache_delete tabId) (λ _, True).
Proof.
  intros b [Hnd Hcache]. split; [|done]. split; [done|].
  by apply map_Forall_delete.
Qed.



Create HintDb triples.
#[local] Hint Resolve triple_ret triple_throw triple_upsertRecordingBuffer
  triple_removeRecordingBuffer triple_cache_delete : triples.






Lemma keeps_stepsWithIds {X} (f : Background.t → X) currentUrl steps :
  (∀ c b, f (Background.set_chrome c b) = f b) →
  keeps f (stepsWithIds currentUrl steps).
Proof.
  intros Hchrome.
  induction steps as [|s steps IH]; cbn [stepsWithIds]; [apply keeps_ret|].
  unfold withId. keeps_steps. intros b. apply Hchrome.
Qed.










Lemma find_upsert {A} (p : A → bool) x l : p x = true → find p (upsert p x l) = Some x.
Proof.
  intros Hx. unfold upsert.
  destruct (findIndex p l) as [idx|] eqn:Hidx.
  - revert idx Hidx. induction l as [|y l IH]; intros idx; simpl; [done|].
    destruct (p y) eqn:Hy.
    + intros [= <-]. simpl. by rewrite Hx.
    + destruct (findIndex p l) as [j|]; simpl; [|done].
      intros [= <-]. simpl. rewrite Hy. by apply IH.
  - induction l as [|y l IH]; simpl in *; [by rewrite Hx|].
    destruct (p y); [done|]. destruct (findIndex p l); [done|]. by apply IH.
Qed.




(** ** The LLM handlers *)


Lemma updateConversation_run conversationId update b :
  ∃ b', updateConversation conversationId update b = (Returned tt, b') ∧
        Background.chrome b' = Background.chrome b ∧
        (∃ states, Background.storage b' =
           Storage.set_conversationStates states (Background.storage b)) ∧
        Background.recordingBuffers b' = Background.recordingBuffers b.
Proof.
  unfold updateConversation, conversation_set, onStorage. run.
  destruct (Background.conversationStates b !! conversationId); eexists;
    (split; [reflexivity|]); (split; [reflexivity|]); (split; [|reflexivity]); cbn.
  - by eexists.
  - exists (Storage.conversationStates (Background.storage b)).
    by destruct (Background.storage b).
Qed.

Lemma succeeded_cons step o os :
  succeeded ((step, o) :: os) =
    match o with None => step :: succeeded os | Some _ => succeeded os end.
Proof.
  unfold succeeded. destruct o; [by rewrite filter_cons_False|by rewrite filter_cons_True].
Qed.

(** The loop of the conversation handler goes through all of its
    steps, whatever their outcomes, and adds to the buffer and to the
    executed steps those that succeeded, and no other. *)
Lemma conversationLoop_spec conversationId tabId steps : ∀ buffer executedSteps b,
  let kept := succeeded (outcomes (respondOf b) (length (sentOf b)) tabId steps) in
  ∃ b' buffer',
    conversationLoop conversationId tabId steps buffer executedSteps b =
      (Returned (buffer', executedSteps ++ kept), b') ∧
    RecordingBuffer.steps buffer' = RecordingBuffer.steps buffer ++ kept ∧
    sentOf b' = sentOf b ++ executeMessages tabId steps ∧
    respondOf b' = respondOf b ∧
    tasksOf b' = tasksOf b.
Proof.
  induction steps as [|step steps IH]; intros buffer executedSteps b kept.
  - exists b, buffer. subst kept. cbn. by rewrite !app_nil_r.
  - subst kept. cbn [conversationLoop outcomes]. rewrite succeeded_cons.
    destruct (updateConversation_run conversationId markActive b)
      as (b1 & Hupdate & Hchrome & (states & Hstorage) & Hcache).
    unfold sendStepToTab, tabs_sendMessage. run. rewrite Hupdate, Hchrome.
    unfold respondOf, sentOf.
    destruct (Chrome.respond _ _ _ _) as [lastError|[] errorMessage]; cbn [failureOf].
    + destruct (IH buffer executedSteps (posted tabId (ExecuteStep step) b1))
        as (b' & buffer' & Hrun & Hsteps & Hsent & Hrespond & Htasks).
      revert Hrun Hsteps Hsent Hrespond Htasks.
      unfold respondOf, sentOf, tasksOf. cbn. rewrite Hchrome, Hstorage, length_app.
      cbn. rewrite Nat.add_1_r. intros Hrun Hsteps Hsent Hrespond Htasks.
      exists b', buffer'. rewrite Hrun, Hsent, <-app_assoc. done.
    + unfold cache_set. run.
      set (b2 := Background.set_storage _ _).
      destruct (updateConversation_run conversationId markActive b2)
        as (b3 & Hupdate3 & Hchrome3 & (states3 & Hstorage3) & Hcache3).
      rewrite Hupdate3.
      destruct (IH (buffer_push step buffer) (executedSteps ++ [step]) b3)
        as (b' & buffer' & Hrun & Hsteps & Hsent & Hrespond & Htasks).
      revert Hrun Hsteps Hsent Hrespond Htasks.
      unfold respondOf, sentOf, tasksOf. rewrite Hchrome3, Hstorage3. subst b2. cbn.
      rewrite Hchrome, Hstorage, length_app.
      cbn. rewrite Nat.add_1_r. intros Hrun Hsteps Hsent Hrespond Htasks.
      exists b', buffer'. rewrite Hrun, Hsteps, Hsent, <-!app_assoc. done.
    + destruct (IH buffer executedSteps (posted tabId (ExecuteStep step) b1))
        as (b' & buffer' & Hrun & Hsteps & Hsent & Hrespond & Htasks).
      revert Hrun Hsteps Hsent Hrespond Htasks.
      unfold respondOf, sentOf, tasksOf. cbn. rewrite Hchrome, Hstorage, length_app.
      cbn. rewrite Nat.add_1_r. intros Hrun Hsteps Hsent Hrespond Htasks.
      exists b', buffer'. rewrite Hrun, Hsent, <-app_assoc. done.
Qed.

(** The loop of the prompt handler goes through all of its steps as
    well, and records each of them: a step that failed goes in the
    buffer with the error in its [meta]. *)
Lemma promptLoop_spec tabId steps : ∀ buffer b,
  let recorded := recordedStep <$> outcomes (respondOf b) (length (sentOf b)) tabId steps in
  ∃ b' buffer',
    promptLoop tabId steps buffer b = (Returned buffer', b') ∧
    RecordingBuffer.steps buffer' = RecordingBuffer.steps buffer ++ recorded ∧
    sentOf b' = sentOf b ++ executeMessages tabId steps ∧
    respondOf b' = respondOf b ∧
    tasksOf b' = tasksOf b.
Proof.
  induction steps as [|step steps IH]; intros buffer b recorded.
  - exists b, buffer. subst recorded. cbn. by rewrite !app_nil_r.
  - subst recorded. cbn [promptLoop outcomes fmap list_fmap].
    unfold sendStepToTab, tabs_sendMessage, cache_set. run.
    unfold respondOf, sentOf, recordedStep at 1. cbn [fst snd].
    destruct (Chrome.respond _ _ _ _) as [lastError|[] errorMessage]; cbn [failureOf];
      match goal with |- context [promptLoop tabId steps ?buf ?b2] =>
        destruct (IH buf b2) as (b' & buffer' & Hrun & Hsteps & Hsent & Hrespond & Htasks)
      end;
      revert Hrun Hsteps Hsent Hrespond Htasks;
      unfold respondOf, sentOf, tasksOf; cbn; rewrite length_app;
      cbn; rewrite Nat.add_1_r; intros Hrun Hsteps Hsent Hrespond Htasks;
      exists b', buffer'; rewrite Hrun, Hsteps, Hsent, <-!app_assoc; done.
Qed.

Lemma stepsWithIds_run currentUrl raw : ∀ b,
  ∃ steps b1,
    stepsWithIds currentUrl raw b = (Returned steps, b1) ∧
    respondOf b1 = respondOf b ∧ sentOf b1 = sentOf b ∧
    Background.storage b1 = Background.storage b ∧
    length steps = length raw.
Proof.
  induction raw as [|s raw IH]; intros b; [by exists [], b|].
  cbn [stepsWithIds]. unfold withId, randomId. run.
  case_decide; cbn;
    match goal with |- context [stepsWithIds currentUrl raw ?b2] =>
      destruct (IH b2) as (steps & b1 & Hrun & Hrespond & Hsent & Hstorage & Hlength)
    end;
    rewrite Hrun; eexists (_ :: steps), b1; (split; [reflexivity|]);
    cbn; by rewrite Hlength.
Qed.

(** The conversation handler writes no task, however the turn goes. *)
Lemma handleRunLlmConversation_tasks message conversationId history currentUrl result
    reportRound :
  keeps tasksOf
    (handleRunLlmConversation message conversationId history currentUrl result
       reportRound).
Proof.
  unfold handleRunLlmConversation, getActiveTabId.
  apply keeps_try_catch; [|intros; apply keeps_ret].
  apply keeps_bind; [keeps_steps|intros tabId].
  apply keeps_bind; [keeps_steps|intros cid].
  apply keeps_bind; [keeps_steps|intros _].
  apply keeps_bind; [keeps_steps|intros _].
  apply keeps_bind; [keeps_steps|intros r].
  apply keeps_bind; [|intros [? ?]; keeps_steps].
  destruct (action r) as [[steps|reportContent]|]; [|keeps_steps..].
  apply keeps_bind; [by apply keeps_stepsWithIds|intros steps'].
  apply keeps_bind; [unfold openBuffer; keeps_steps|intros buffer].
  apply keeps_bind; [keeps_steps|intros _].
  apply keeps_bind; [|intros [? ?]; keeps_steps].
  intros b.
  destruct (conversationLoop_spec cid tabId steps' buffer [] b)
    as (b' & buffer' & -> & _ & _ & _ & Htasks).
  exact Htasks.
Qed.

(** The prompt handler, when the recorder of the tab takes the start
    and stop messages: the steps, completed with ids and URL, are sent
    in order, and all of them, as recorded, are saved as a new task. *)
Lemma handleRunLlmPrompt_saves prompt taskName description currentUrl raw b tabId :
  getActiveTabId b = (Returned tabId, b) →
  raw ≠ [] →
  let n := length (sentOf b) in
  (∃ success reply, respondOf b n tabId StartRecording = Resolved success reply) →
  (∃ success reply,
     respondOf b (S n + length raw) tabId StopRecording = Resolved success reply) →
  ∃ steps b1 task b',
    stepsWithIds currentUrl raw b = (Returned steps, b1) ∧
    handleRunLlmPrompt prompt taskName description currentUrl (Returned raw) b =
      (Returned (RespLlmTask task), b') ∧
    Task.steps task = recordedStep <$> outcomes (respondOf b) (S n) tabId steps ∧
    task ∈ tasksOf b'.
Proof.
  intros Htab Hraw n (s0 & r0 & Hstart) (s1 & r1 & Hstop).
  destruct (stepsWithIds_run currentUrl raw b)
    as (steps & b1 & Hsteps & Hrespond1 & Hsent1 & Hstorage1 & Hlength).
  exists steps, b1. unfold handleRunLlmPrompt. run.
  rewrite Htab, Hsteps.
  unfold openBuffer, randomId, nowIso, cache_set, tabs_sendMessage. run. cbn.
  unfold respondOf, sentOf in *. rewrite Hrespond1, Hsent1. fold n. rewrite Hstart.
  match goal with |- context [promptLoop tabId steps ?buf ?b2] =>
    destruct (promptLoop_spec tabId steps buf b2)
      as (b3 & buffer' & Hrun & Hrecorded & Hsent3 & Hrespond3 & Htasks3)
  end.
  revert Hrun Hrecorded Hsent3 Hrespond3 Htasks3.
  unfold respondOf, sentOf, tasksOf. cbn. rewrite ?Hrespond1, ?Hsent1, length_app. cbn.
  rewrite Nat.add_1_r. fold n. intros Hrun Hrecorded Hsent3 Hrespond3 Htasks3.
  rewrite Hrun, Hrespond3, Hsent3. rewrite !length_app. unfold executeMessages.
  rewrite length_fmap. cbn [length].
  replace (length (Chrome.sent (Background.chrome b)) + 1 + length steps)
    with (S n + length raw) by (subst n; lia).
  rewrite Hstop.
  destruct steps as [|step steps]; [by destruct raw|].
  rewrite Hrecorded. cbn [outcomes fmap list_fmap app].
  eexists _, _. split_and!; [done|reflexivity|reflexivity|].
  unfold tasksOf, saveTask. cbn. apply upsert_elem.
Qed.




(** ** Locator synthesis *)

(** An element without a unique id that carries a non-empty
    [data-testid] gets the attribute selector on it, which matches it. *)
Lemma buildSelectorInfo_testid document el e testId :
  Dom.node document el = Some e →
  hasUniqueId document e = None →
  Dom.getAttribute "data-testid" e = Some testId → testId ≠ EmptyString →
  SelectorInfo.css <$> buildSelectorInfo document el =
    Some (Some (attrEquals "data-testid" testId)) ∧
  matchesAttrEquals "data-testid" testId e.
Proof.
  intros Hnode Hid Htest Hne. split; [|done].
  unfold buildSelectorInfo. rewrite Hnode. cbn. rewrite Hid.
  unfold dataTestId. rewrite Htest. cbn.
  by rewrite !decide_False by done.
Qed.

(** With [data-test] in its place, the selector is still written on
    [data-testid], an attribute the element does not have. *)
Lemma buildSelectorInfo_data_test document el e testId :
  Dom.node document el = Some e →
  hasUniqueId document e = None →
  Dom.getAttribute "data-testid" e = None →
  Dom.getAttribute "data-test" e = Some testId → testId ≠ EmptyString →
  SelectorInfo.css <$> buildSelectorInfo document el =
    Some (Some (attrEquals "data-testid" testId)) ∧
  ¬ matchesAttrEquals "data-testid" testId e.
Proof.
  intros Hnode Hid Hnone Htest Hne. split; [|unfold matchesAttrEquals; congruence].
  unfold buildSelectorInfo. rewrite Hnode. cbn. rewrite Hid.
  unfold dataTestId. rewrite Hnone, Htest. cbn.
  by rewrite decide_False by done.
Qed.

(** C8, at an input on which the code departs from it: a button with
    no id whose test identifier is [data-test="save"]. The primary
    selector is the equality selector on [data-testid], which the
    button does not carry, so the selector does not match the button;
    the selector on the attribute it carries is not what is returned. *)
Theorem buildSelectorInfo_data_test_button :
  Dom.node saveButtonPage [0; 1] = Some saveButton ∧
  hasUniqueId saveButtonPage saveButton = None ∧
  Dom.getAttribute "data-test" saveButton = Some "save" ∧
  SelectorInfo.css <$> buildSelectorInfo saveButtonPage [0; 1] =
    Some (Some (attrEquals "data-testid" "save")) ∧
  ¬ matchesAttrEquals "data-testid" "save" saveButton ∧
  SelectorInfo.css <$> buildSelectorInfo saveButtonPage [0; 1] ≠
    Some (Some (attrEquals "data-test" "save")).
Proof. split_and!; try reflexivity; by vm_compute. Qed.

Lemma partAt_node document r e :
  Dom.node document r = Some e → partAt document r = cssPart document r e.
Proof. unfold partAt. by intros ->. Qed.

(** The loop of [fallbackCss], started on an element of the document
    with [parts] in hand, puts in front of [parts] the parts of the
    levels it still has room for, outermost first. *)
Lemma fallbackCss_loop_levels document : ∀ current parts,
  is_Some (Dom.node document current) →
  fallbackCss_loop document current parts =
    (partAt document <$> reverse (take (5 - length parts) (belowBody document current)))
    ++ parts.
Proof.
  induction current as [|i parent IH]; intros parts [e He].
  - cbn [fallbackCss_loop belowBody]. rewrite He.
    case_bool_decide as Hcond; case_decide as Hbody.
    + by destruct Hcond.
    + destruct Hcond as [_ Hlen].
      destruct (5 - length parts) as [|n] eqn:Hn; [lia|].
      cbn [take]. rewrite take_nil, reverse_singleton.
      cbn [fmap list_fmap app]. by rewrite (partAt_node _ _ _ He).
    + by rewrite take_nil.
    + assert (¬ length parts < 5) as Hfull by tauto.
      by replace (5 - length parts) with 0 by lia.
  - cbn [fallbackCss_loop belowBody]. rewrite He.
    assert (is_Some (Dom.node document parent)) as Hparent.
    { cbn in He. destruct (Dom.node document parent); [done|discriminate]. }
    case_bool_decide as Hcond; case_decide as Hbody.
    + by destruct Hcond.
    + destruct Hcond as [_ Hlen].
      destruct (5 - length parts) as [|n] eqn:Hn; [lia|].
      rewrite (IH _ Hparent). cbn [length take].
      replace (5 - S (length parts)) with n by lia.
      rewrite reverse_cons, fmap_app, <-app_assoc. cbn [fmap list_fmap app].
      by rewrite (partAt_node _ _ _ He).
    + by rewrite take_nil.
    + assert (¬ length parts < 5) as Hfull by tauto.
      by replace (5 - length parts) with 0 by lia.
Qed.

(** C4, as the code has it. For an element with no document-unique id
    and no non-empty test identifier, the primary selector is the
    structural fallback: it goes through at most five levels (the
    element and its ancestors, stopping below the body), writes for
    each level the lower-cased tag name, one escaped fragment for every
    class name, and [:nth-child(i)] whenever the parent has more than
    one child element, [i] being the position among all of them, and
    joins the levels, outermost first, with the child combinator. *)
Theorem fallbackCss_structure document el e :
  Dom.node document el = Some e →
  hasUniqueId document e = None →
  dataTestId e = None →
  SelectorInfo.css <$> buildSelectorInfo document el =
    Some (Some (String.concat " > " (partAt document <$> reverse (levels document el)))) ∧
  length (levels document el) ≤ 5 ∧
  ∀ r x, r ∈ levels document el → Dom.node document r = Some x →
    partAt document r =
      toLowerCase (Dom.tagName x) +:+
      String.concat EmptyString ((λ c, "." +:+ CSS_escape c) <$> classNames x) +:+
      (if bool_decide (1 < length (siblings document r))
       then ":nth-child(" +:+ pretty (indexAmongSiblings r) +:+ ")"
       else EmptyString).
Proof.
  intros Hnode Hid Htest. split_and!.
  - unfold buildSelectorInfo. rewrite Hnode. cbn. rewrite Hid, Htest.
    unfold fallbackCss. rewrite fallbackCss_loop_levels by done.
    by rewrite app_nil_r.
  - unfold levels. rewrite length_take. lia.
  - intros r x _ Hx. by rewrite (partAt_node _ _ _ Hx).
Qed.

(** A [span] with no id and no test identifier, first child of a
    [div] with three class names, its only sibling a [p]. The
    selector carries the three class names of the [div], gives the
    [span] a position although no sibling has its tag, and joins the
    two levels with [>]. *)
Lemma fallbackCss_card_span :
  let span := Dom.El "SPAN" [] "Hi" [] in
  let div := Dom.El "DIV" [("class", "card wide dark")] "Hi there"
               [span; Dom.El "P" [] " there" []] in
  Dom.node cardPage [0; 0; 1] = Some span ∧
  Dom.node cardPage [0; 1] = Some div ∧
  hasUniqueId cardPage span = None ∧
  dataTestId span = None ∧
  SelectorInfo.css <$> buildSelectorInfo cardPage [0; 0; 1] =
    Some (Some "div.card.wide.dark > span:nth-child(1)") ∧
  length (classFragments div) = 3 ∧
  filter (λ sibling, Dom.tagName sibling = Dom.tagName span)
    (siblings cardPage [0; 0; 1]) = [span].
Proof. split_and!; by vm_compute. Qed.

Lemma fallbackCss_structure_witness :
  SelectorInfo.css <$> buildSelectorInfo cardPage [0; 0; 1] =
    Some (Some (String.concat " > " (partAt cardPage <$> reverse (levels cardPage [0; 0; 1]))))
  ∧ length (levels cardPage [0; 0; 1]) ≤ 5.
Proof.
  destruct (fallbackCss_structure cardPage [0; 0; 1] (Dom.El "SPAN" [] "Hi" []))
    as (Hcss & Hlen & _); [reflexivity..|].
  by split.
Defined.

(** ** The Step Executor *)

Lemma appends_ret {A} (a : A) : appends (mret a : CS A).
Proof. intros [q x st ct ev]. exists []. unfold after. cbn. by rewrite app_nil_r. Qed.

Lemma appends_throw {A} message : appends (throw message : CS A).
Proof. intros [q x st ct ev]. exists []. unfold after. cbn. by rewrite app_nil_r. Qed.

Lemma appends_bind {A B} (m : CS A) (k : A → CS B) :
  appends m → (∀ a, appends (k a)) → appends (m ≫= k).
Proof.
  intros Hm Hk p. destruct (Hm p) as [added Hadded]. run.
  destruct (m p) as [[a|e] p']; cbn in *; [|by exists added].
  destruct (Hk a p') as [added' Hadded']. rewrite Hadded', Hadded.
  exists (added ++ added'). unfold after. cbn. by rewrite app_assoc.
Qed.

Lemma appends_emit e : appends (emit e).
Proof. intros p. by exists [e]. Qed.

Lemma appends_call e : appends (call e).
Proof.
  intros p. unfold call. destruct (Page.callThrows p _ e); [|by exists [e]].
  exists []. destruct p as [q x st ct ev]. unfold after. cbn. by rewrite app_nil_r.
Qed.

Lemma timerDelay_small ms : (0 ≤ ms ≤ 2147483647)%Z → timerDelay ms = ms.
Proof.
  intros Hms. unfold timerDelay, toInt32.
  rewrite Z.mod_small by lia. lia.
Qed.

Lemma appends_findByCss selector : appends (findByCss selector).
Proof. intros p. by exists [Page.QuerySelector selector]. Qed.

Lemma appends_findByXPath xpath : appends (findByXPath xpath).
Proof.
  destruct xpath as [xpath|]; cbn; [|apply appends_ret].
  case_decide; [apply appends_ret|]. intros p. by exists [Page.Evaluate xpath].
Qed.

Lemma appends_resolveElement selector : appends (resolveElement selector).
Proof.
  destruct selector as [[[css|] xpath ? ?]|]; cbn;
    [case_decide| |]; auto using appends_ret, appends_findByCss, appends_findByXPath.
Qed.

Lemma appends_waitForElement selector : appends (waitForElement selector).
Proof.
  unfold waitForElement. destruct selector as [selector|]; [|apply appends_ret].
  generalize 5 as remaining. generalize (Some selector) as sel.
  intros sel remaining. induction remaining as [|remaining IH]; cbn [waitForElement_loop].
  - apply appends_ret.
  - apply appends_bind; [apply appends_resolveElement|].
    intros [el|]; [apply appends_ret|].
    apply appends_bind; [|by intros _].
    case_bool_decide; [apply appends_emit|apply appends_ret].
Qed.

Lemma appends_runStep_switch step : appends (runStep_switch step).
Proof.
  unfold runStep_switch. destruct (Step.type step).
  - apply appends_bind; [apply appends_waitForElement|].
    intros [el|]; [apply appends_call|apply appends_throw].
  - apply appends_bind; [apply appends_waitForElement|].
    intros [el|]; [|apply appends_throw].
    repeat (apply appends_bind; [first [apply appends_call|apply appends_emit]|intros _]).
    apply appends_emit.
  - apply appends_emit.
  - apply appends_bind; [apply appends_waitForElement|].
    intros [el|]; [|apply appends_throw]. destruct (Page.isForm el); apply appends_emit.
  - destruct (Step.meta step ≫= _) as [script|]; [|apply appends_throw].
    case_decide; [apply appends_throw|].
    intros p. exists [Page.RunScript script].
    by destruct (Page.scriptThrows p _ script).
  - apply appends_throw.
Qed.

(** [runStep] is its [switch], run once the pre-delay has passed. *)
Lemma runStep_preDelay step p :
  runStep step p = runStep_switch step (after (preDelay step) p).
Proof.
  unfold runStep, preDelay. destruct p as [q x st ct ev].
  destruct (Step.waitMs step) as [ms|]; [case_bool_decide|]; run;
    unfold after; cbn; by rewrite ?app_nil_r.
Qed.

(** C5, as the code has it. For every step, of whatever type, the
    pre-delay comes first: when [waitMs] is positive the executor
    sleeps, and only then does what the type of the step asks for,
    every other event of the step coming after that sleep. The sleep
    lasts [waitMs] when that is at most 2^31-1ms, the delay of a timer
    being a signed 32-bit integer. A step of type wait then sleeps once
    more, for its [waitMs] or for 500ms when it has none, and
    succeeds: with a positive [waitMs] it sleeps twice that long. *)
Theorem runStep_waits step p :
  runStep step p = runStep_switch step (after (preDelay step) p) ∧
  (∀ ms, Step.waitMs step = Some ms → (0 < ms)%Z →
         preDelay step = [Page.Sleep (timerDelay ms)]) ∧
  (∀ ms, (0 ≤ ms ≤ 2147483647)%Z → timerDelay ms = ms) ∧
  (∃ added, Page.events (runStep step p).2 = Page.events p ++ preDelay step ++ added) ∧
  (Step.type step = Wait →
   runStep step p =
     (Returned tt,
      after (preDelay step ++
             [Page.Sleep (timerDelay (default 500%Z (Step.waitMs step)))]) p) ∧
   (Step.waitMs step = None → runStep step p = (Returned tt, after [Page.Sleep 500] p)) ∧
   (∀ ms, Step.waitMs step = Some ms → (0 < ms ≤ 2147483647)%Z →
          runStep step p = (Returned tt, after [Page.Sleep ms; Page.Sleep ms] p) ∧
          slept [Page.Sleep ms; Page.Sleep ms] = (2 * ms)%Z)).
Proof.
  pose proof (runStep_preDelay step p) as Hrun.
  assert (Step.type step = Wait →
    runStep step p =
      (Returned tt,
       after (preDelay step ++
              [Page.Sleep (timerDelay (default 500%Z (Step.waitMs step)))]) p)) as Hwaits.
  { intros Hwait. rewrite Hrun. unfold runStep_switch. rewrite Hwait.
    unfold waitMs, emit, after. run. cbn. by rewrite app_assoc. }
  split_and!; [done| |apply timerDelay_small| |].
  - intros ms Hms Hpos. unfold preDelay. rewrite Hms. by rewrite bool_decide_eq_true_2.
  - rewrite Hrun. destruct (appends_runStep_switch step (after (preDelay step) p))
      as [added ->]. exists added. cbn. by rewrite app_assoc.
  - intros Hwait. specialize (Hwaits Hwait). split_and!; [done| |].
    + intros Hnone. rewrite Hwaits. unfold preDelay. by rewrite Hnone.
    + intros ms Hms Hrange. rewrite Hwaits. unfold preDelay. rewrite Hms.
      rewrite bool_decide_eq_true_2 by lia. simpl.
      rewrite timerDelay_small by lia. split; [done|]. lia.
Qed.

(** A wait step with a [waitMs] of 300: it sleeps 300ms before its
    switch and 300ms in it, 600ms in all and not 300. And a wait step
    with a [waitMs] of 2^31 does not sleep at all. *)
Lemma wait_sleeps_twice :
  runStep (waitStep (Some 300%Z)) xpathOnlyPage =
    (Returned tt, after [Page.Sleep 300; Page.Sleep 300] xpathOnlyPage) ∧
  slept (Page.events (runStep (waitStep (Some 300%Z)) xpathOnlyPage).2) = 600%Z ∧
  slept (Page.events (runStep (waitStep (Some 300%Z)) xpathOnlyPage).2) ≠ 300%Z ∧
  slept (Page.events (runStep (waitStep (Some 2147483648%Z)) xpathOnlyPage).2) = 0%Z.
Proof. split_and!; by vm_compute. Qed.

Lemma runStep_waits_witness :
  preDelay (waitStep (Some 300%Z)) = [Page.Sleep 300] ∧
  runStep (waitStep (Some 300%Z)) xpathOnlyPage =
    (Returned tt, after [Page.Sleep 300; Page.Sleep 300] xpathOnlyPage) ∧
  runStep (waitStep None) xpathOnlyPage =
    (Returned tt, after [Page.Sleep 500] xpathOnlyPage).
Proof.
  destruct (runStep_waits (waitStep (Some 300%Z)) xpathOnlyPage)
    as (_ & Hpre & _ & _ & Hwait).
  destruct (runStep_waits (waitStep None) xpathOnlyPage) as (_ & _ & _ & _ & Hnone).
  split_and!.
  - by apply (Hpre 300%Z).
  - destruct (Hwait eq_refl) as (_ & _ & Htwice).
    by destruct (Htwice 300%Z eq_refl ltac:(lia)).
  - destruct (Hnone eq_refl) as (_ & Hdefault & _). by apply Hdefault.
Defined.

(** A CSS query on a page where the selector is never found *)
Lemma findByCss_neverFound css p :
  neverFound p css → findByCss css p = (Returned None, after [Page.QuerySelector css] p).
Proof.
  intros Hnever. unfold findByCss.
  destruct (Page.querySelector p _ css) as [| |el] eqn:Hq; [done..|].
  by destruct (Hnever _ _ Hq).
Qed.

Lemma neverFound_after css added p : neverFound p css → neverFound (after added p) css.
Proof. done. Qed.

Lemma after_after added added' p : after added' (after added p) = after (added ++ added') p.
Proof. unfold after. cbn. by rewrite app_assoc. Qed.

(** C2, as the code has it. When the locator has a non-empty CSS
    selector, resolving it is querying that selector and nothing else:
    the XPath is not consulted, and if the selector is never found the
    five attempts end without an element, so that a click fails with
    "Element not found" although the locator carries an XPath. The
    XPath is what is resolved only when the locator has no CSS
    selector, or an empty one. *)
Theorem resolveElement_css_or_xpath selector :
  (∀ css, SelectorInfo.css selector = Some css → css ≠ EmptyString →
     (∀ p, resolveElement (Some selector) p = findByCss css p) ∧
     (∀ p, neverFound p css →
        waitForElement (Some selector) p = (Returned None, after (fiveAttempts css) p)) ∧
     (∀ step p,
        Step.type step = Click → Step.selector step = Some selector →
        neverFound p css →
        runStep step p =
          (Thrown ("Element not found for click. Selector: " +:+ css),
           after (preDelay step ++ fiveAttempts css) p)))
  ∧
  (SelectorInfo.css selector = None ∨ SelectorInfo.css selector = Some EmptyString →
   ∀ p, resolveElement (Some selector) p = findByXPath (SelectorInfo.xpath selector) p).
Proof.
  split.
  - intros css Hcss Hne.
    assert (∀ p, resolveElement (Some selector) p = findByCss css p) as Hresolve.
    { intros p. unfold resolveElement. rewrite Hcss. by rewrite decide_False. }
    assert (∀ p, neverFound p css →
      waitForElement (Some selector) p = (Returned None, after (fiveAttempts css) p))
      as Hwait.
    { intros p Hnever. unfold waitForElement.
      change (fiveAttempts css) with (failedAttempts css 500 5).
      generalize 5 as remaining. intros remaining. revert p Hnever.
      induction remaining as [|remaining IH]; intros p Hnever; cbn [waitForElement_loop].
      - unfold after. cbn. rewrite app_nil_r. by destruct p.
      - run. rewrite Hresolve, findByCss_neverFound by done.
        cbn [failedAttempts]. case_bool_decide; unfold waitMs, emit; run;
          change (timerDelay 500) with 500%Z;
          rewrite IH by done;
          change (Page.record (Page.Sleep 500) (after [Page.QuerySelector css] p))
            with (after [Page.Sleep 500] (after [Page.QuerySelector css] p));
          by rewrite ?after_after. }
    split_and!; [done|done|].
    intros step p Htype Hsel Hnever.
    rewrite runStep_preDelay.
    unfold runStep_switch. rewrite Htype, Hsel. run.
    rewrite Hwait by done. cbn. rewrite after_after.
    unfold selectorStr. rewrite Hsel. cbn. rewrite Hcss. cbn.
    rewrite decide_False by done. cbn. by rewrite decide_False.
  - intros Hcss p. unfold resolveElement. by destruct Hcss as [->| ->].
Qed.

(** A click whose locator has the CSS selector [#gone] and an XPath,
    on a page where the CSS selector finds nothing and the XPath finds
    an element: the step fails with "Element not found" after five CSS
    queries, and the XPath was never evaluated. *)
Lemma click_ignores_xpath :
  (findByXPath (Step.selector clickBoth ≫= SelectorInfo.xpath) xpathOnlyPage).1 =
    Returned (Some {| Page.handle := 7; Page.isForm := false |}) ∧
  (runStep clickBoth xpathOnlyPage).1 =
    Thrown "Element not found for click. Selector: #gone" ∧
  Page.events (runStep clickBoth xpathOnlyPage).2 = fiveAttempts "#gone" ∧
  executeStep clickBoth xpathOnlyPage =
    (Resolved false (Some "Element not found for click. Selector: #gone"),
     after (fiveAttempts "#gone") xpathOnlyPage).
Proof. split_and!; by vm_compute. Qed.

Lemma resolveElement_css_or_xpath_witness :
  runStep clickBoth xpathOnlyPage =
    (Thrown "Element not found for click. Selector: #gone",
     after (fiveAttempts "#gone") xpathOnlyPage).
Proof.
  destruct (resolveElement_css_or_xpath
              (SelectorInfo.mk (Some "#gone") (Some "/html[1]/body[1]/button[1]") None None))
    as [Hcss _].
  destruct (Hcss "#gone") as (_ & _ & Hclick); [reflexivity|discriminate|].
  apply (Hclick clickBoth xpathOnlyPage); [reflexivity|reflexivity|].
  intros n el. discriminate.
Defined.

(** ** The properties at sample inputs *)

Lemma runFlow_log_witness :
  let s1 := sampleStep "s1" Click "#a" in
  let s2 := sampleStep "s2" Input "#b" in
  let s3 := sampleStep "s3" Click "#c" in
  (∃ b' log,
     runFlow "f1" None Direct (threeStepFlow (quietChrome 1)) = (Returned tt, b') ∧
     log ∈ logsOf b' ∧
     FlowRunLog.status log = Success ∧
     entry <$> FlowRunLog.stepLogs log =
       [("s1", Success, None); ("s2", Success, None); ("s3", Success, None)] ∧
     sentOf b' = [(1%Z, ExecuteStep s1); (1%Z, ExecuteStep s2); (1%Z, ExecuteStep s3)]) ∧
  (∃ b' log,
     runFlow "f1" (Some 1%Z) Direct (threeStepFlow s2FailsChrome) = (Returned tt, b') ∧
     log ∈ logsOf b' ∧
     FlowRunLog.status log = Failed ∧
     entry <$> FlowRunLog.stepLogs log =
       [("s1", Success, None); ("s2", Failed, Some "ng")] ∧
     sentOf b' = [(1%Z, ExecuteStep s1); (1%Z, ExecuteStep s2)]).
Proof.
  intros s1 s2 s3. split.
  - destruct (runFlow_log "f1" None Direct (sampleFlow "f1" ["t1"; "t2"]) 1
                (threeStepFlow (quietChrome 1))) as [Hsuccess _].
    { reflexivity. }
    { right. split; reflexivity. }
    destruct Hsuccess as (b' & log & Hrun & Hin & _ & _ & Hstatus & Hentries & Hsent).
    { intros i step Hstep. exists None. reflexivity. }
    exists b', log. split_and!; [exact Hrun|exact Hin|exact Hstatus|exact Hentries|exact Hsent].
  - destruct (runFlow_log "f1" (Some 1%Z) Direct (sampleFlow "f1" ["t1"; "t2"]) 1
                (threeStepFlow s2FailsChrome)) as [_ Hfailure].
    { reflexivity. }
    { left. reflexivity. }
    destruct (Hfailure [s1] s2 [s3] (Some "ng"))
      as (b' & log & Hrun & Hin & _ & _ & Hstatus & Hentries & Hsent).
    { reflexivity. }
    { intros [|i] step Hstep; [|discriminate Hstep].
      injection Hstep as <-. exists None. reflexivity. }
    { left. reflexivity. }
    exists b', log. split_and!; [exact Hrun|exact Hin|exact Hstatus|exact Hentries|exact Hsent].
Defined.

Lemma runFlow_unknown_flow_witness :
  runFlow "f2" None Direct (oneClickFlow (quietChrome 1)) =
    (Thrown "Flow not found", oneClickFlow (quietChrome 1)).
Proof.
  apply (runFlow_unknown_flow "f2" None Direct (oneClickFlow (quietChrome 1))).
  intros f Hf. apply list_elem_of_singleton in Hf. rewrite Hf. discriminate.
Defined.

Lemma importData_modes_witness :
  let A := sampleTask "base" [] in
  let B := sampleTask "merge" [] in
  let payload := ImportExportPayload.mk 1 (Some [B]) (Some []) (Some []) in
  let s := Storage.set_tasks [A] Storage.empty in
  Storage.tasks (importData payload MergeMode s) = [A; B] ∧
  Storage.tasks (importData payload ReplaceMode s) = [B].
Proof.
  intros A B payload s.
  destruct (importData_modes payload s) as (_ & _ & Hscenario).
  apply (Hscenario A B); [reflexivity|reflexivity|discriminate].
Defined.

(** ** The saves and deletes of storage.ts *)

Lemma upsert_cons {A} (p : A → bool) x y l :
  upsert p x (y :: l) = if p y then x :: l else y :: upsert p x l.
Proof.
  unfold upsert. simpl. destruct (p y); [done|].
  by destruct (findIndex p l).
Qed.

Lemma elem_of_upsert {A} (p : A → bool) x y (l : list A) :
  y ∈ upsert p x l → y = x ∨ y ∈ l.
Proof.
  induction l as [|z l IH].
  - unfold upsert. cbn. intros ->%list_elem_of_singleton. by left.
  - rewrite upsert_cons. destruct (p z).
    + intros [->|Hy]%elem_of_cons; [by left|]. right. by apply list_elem_of_further.
    + intros [->|Hy]%elem_of_cons; [right; apply list_elem_of_here|].
      destruct (IH Hy) as [->|Hl]; [by left|]. right. by apply list_elem_of_further.
Qed.

Lemma upsert_storedUnder {A K} `{EqDecision K} (key : A → K) x (l : list A) :
  storedUnder key x l (upsert (λ y, bool_decide (key y = key x)) x l).
Proof.
  split.
  - intros k. unfold findBy. induction l as [|y l IH].
    + cbn. case_bool_decide; case_decide; congruence.
    + rewrite upsert_cons. case_bool_decide as Hy; cbn.
      * rewrite Hy. case_bool_decide; case_decide; congruence.
      * rewrite IH. case_bool_decide; case_decide; congruence.
  - induction l as [|y l IH]; [done|].
    rewrite upsert_cons. case_bool_decide as Hy; cbn.
    + rewrite Hy. rewrite decide_True by apply list_elem_of_here. done.
    + rewrite IH. destruct (decide (key x ∈ key <$> l)) as [Hin|Hout].
      * rewrite decide_True by by apply list_elem_of_further. done.
      * rewrite decide_False; [done|].
        intros [?|?]%elem_of_cons; congruence.
Qed.

(** X1. [saveTask], [saveFlow], [saveTrigger] and
    [saveConversationState] store the item under its id: it is what a
    lookup of that id finds afterwards, the items of the other ids are
    found as before, and the order of the ids is kept, a new id coming
    last. No other collection of the store changes. *)
Theorem save_storedUnder task flow trigger state s :
  (storedUnder Task.id task (Storage.tasks s) (Storage.tasks (saveTask task s)) ∧
   saveTask task s = Storage.set_tasks (Storage.tasks (saveTask task s)) s) ∧
  (storedUnder Flow.id flow (Storage.flows s) (Storage.flows (saveFlow flow s)) ∧
   saveFlow flow s = Storage.set_flows (Storage.flows (saveFlow flow s)) s) ∧
  (storedUnder Trigger.id trigger (Storage.triggers s)
     (Storage.triggers (saveTrigger trigger s)) ∧
   saveTrigger trigger s = Storage.set_triggers (Storage.triggers (saveTrigger trigger s)) s) ∧
  (storedUnder ConversationState.conversationId state (Storage.conversationStates s)
     (Storage.conversationStates (saveConversationState state s)) ∧
   saveConversationState state s =
     Storage.set_conversationStates
       (Storage.conversationStates (saveConversationState state s)) s).
Proof.
  split_and!; try apply upsert_storedUnder; done.
Qed.

Lemma filter_removedUnder {A K} `{EqDecision K} (key : A → K) k (l : list A) :
  removedUnder key k l (filter (λ y, key y ≠ k) l).
Proof.
  split.
  - intros k'. unfold findBy. induction l as [|y l IH].
    + cbn. by case_decide.
    + destruct (decide (key y = k)) as [Hy|Hy].
      * rewrite filter_cons_False by (by intros ?). rewrite IH. cbn.
        case_bool_decide; case_decide; congruence.
      * rewrite filter_cons_True by done. cbn. rewrite IH.
        case_bool_decide; case_decide; congruence.
  - induction l as [|y l IH]; [done|].
    rewrite fmap_cons. destruct (decide (key y = k)) as [Hy|Hy].
    + rewrite !filter_cons_False by (by intros ?). done.
    + rewrite !filter_cons_True by done. rewrite fmap_cons. by rewrite IH.
Qed.

(** X2. [deleteTask], [deleteFlow], [deleteTrigger],
    [deleteConversationState] and [removeRecordingBuffer] remove what
    is stored under the id: a lookup of the id finds nothing
    afterwards, the other ids are found as before and stay in their
    order. Deleting a task leaves the flows as they are, also those
    that name the task. *)
Theorem delete_removedUnder taskId flowId triggerId conversationId tabId s :
  removedUnder Task.id taskId (Storage.tasks s) (Storage.tasks (deleteTask taskId s)) ∧
  Storage.flows (deleteTask taskId s) = Storage.flows s ∧
  removedUnder Flow.id flowId (Storage.flows s) (Storage.flows (deleteFlow flowId s)) ∧
  removedUnder Trigger.id triggerId (Storage.triggers s)
    (Storage.triggers (deleteTrigger triggerId s)) ∧
  removedUnder ConversationState.conversationId conversationId
    (Storage.conversationStates s)
    (Storage.conversationStates (deleteConversationState conversationId s)) ∧
  removedUnder RecordingBuffer.tabId tabId (Storage.recordingBuffers s)
    (Storage.recordingBuffers (removeRecordingBuffer tabId s)).
Proof.
  split_and!; try apply filter_removedUnder; done.
Qed.

Lemma filter_upsert {A K} `{EqDecision K} (key : A → K) x (l : list A) :
  filter (λ y, key y ≠ key x) (upsert (λ y, bool_decide (key y = key x)) x l) =
  filter (λ y, key y ≠ key x) l.
Proof.
  induction l as [|y l IH].
  - unfold upsert. cbn [findIndex app]. by rewrite filter_cons_False by (by intros ?).
  - rewrite upsert_cons. case_bool_decide as Hy.
    + rewrite !filter_cons_False by (by intros ?). done.
    + rewrite !filter_cons_True by done. by rewrite IH.
Qed.

Lemma filter_absent {A K} `{EqDecision K} (key : A → K) k (l : list A) :
  k ∉ key <$> l → filter (λ y, key y ≠ k) l = l.
Proof.
  induction l as [|y l IH]; [done|]. rewrite fmap_cons. intros Hk.
  apply not_elem_of_cons in Hk as [Hy Hk].
  rewrite filter_cons_True by done. by rewrite IH.
Qed.

(** X3. A delete undoes a save: whatever was stored, deleting the id
    of an item just saved gives what deleting it before the save
    gives, and when the id was new it gives the collection back as it
    was. A delete of an id that is not stored changes nothing. *)
Theorem delete_after_save task state s :
  deleteTask (Task.id task) (saveTask task s) = deleteTask (Task.id task) s ∧
  deleteConversationState (ConversationState.conversationId state)
    (saveConversationState state s) =
    deleteConversationState (ConversationState.conversationId state) s ∧
  (Task.id task ∉ Task.id <$> Storage.tasks s →
   deleteTask (Task.id task) (saveTask task s) = s) ∧
  (ConversationState.conversationId state ∉
     ConversationState.conversationId <$> Storage.conversationStates s →
   deleteConversationState (ConversationState.conversationId state)
     (saveConversationState state s) = s ∧
   deleteConversationState (ConversationState.conversationId state) s = s).
Proof.
  assert (deleteTask (Task.id task) (saveTask task s) = deleteTask (Task.id task) s) as Ht.
  { unfold deleteTask, saveTask. destruct s. cbn. unfold Storage.set_tasks. cbn.
    by rewrite (filter_upsert Task.id). }
  assert (deleteConversationState (ConversationState.conversationId state)
            (saveConversationState state s) =
          deleteConversationState (ConversationState.conversationId state) s) as Hc.
  { unfold deleteConversationState, saveConversationState. destruct s. cbn.
    unfold Storage.set_conversationStates. cbn.
    by rewrite (filter_upsert ConversationState.conversationId). }
  split_and!; [done|done| |].
  - intros Hnew. rewrite Ht. unfold deleteTask. rewrite filter_absent by done.
    by destruct s.
  - intros Hnew. rewrite Hc. unfold deleteConversationState. cbn.
    rewrite filter_absent by done. by destruct s.
Qed.

(** ** The order of a merge *)

Lemma findBy_cons {A K} `{EqDecision K} (key : A → K) k x (l : list A) :
  findBy key k (x :: l) = if decide (key x = k) then Some x else findBy key k l.
Proof. unfold findBy. cbn. case_bool_decide; case_decide; congruence. Qed.

Lemma findBy_absent {A K} `{EqDecision K} (key : A → K) k (l : list A) :
  k ∉ key <$> l → findBy key k l = None.
Proof.
  induction l as [|x l IH]; [done|]. rewrite fmap_cons, findBy_cons.
  intros [? ?]%not_elem_of_cons. rewrite decide_False by done. by apply IH.
Qed.

Lemma findBy_NoDup {A K} `{EqDecision K} (key : A → K) x (l : list A) :
  NoDup (key <$> l) → x ∈ l → findBy key (key x) l = Some x.
Proof.
  induction l as [|y l IH]; [by intros _ ?%elem_of_nil|].
  rewrite fmap_cons, findBy_cons. intros [Hy Hnd]%NoDup_cons [->|Hx]%elem_of_cons.
  - by rewrite decide_True.
  - rewrite decide_False; [by apply IH|].
    intros Heq. apply Hy. rewrite Heq. by apply list_elem_of_fmap_2.
Qed.

Lemma filter_ext_elem {A} (P Q : A → Prop) `{!∀ x, Decision (P x)} `{!∀ x, Decision (Q x)}
    (l : list A) :
  (∀ x, x ∈ l → P x ↔ Q x) → filter P l = filter Q l.
Proof.
  induction l as [|x l IH]; [done|]. intros Hext.
  assert (filter P l = filter Q l) as Hl.
  { apply IH. intros y Hy. apply Hext. by apply list_elem_of_further. }
  destruct (decide (P x)) as [HP|HP].
  - rewrite !filter_cons_True; [by rewrite Hl|by apply Hext; [apply list_elem_of_here|]|done].
  - rewrite !filter_cons_False; [done| |done].
    intros HQ. apply HP. by apply Hext; [apply list_elem_of_here|].
Qed.

Section MergeOrder.
Context {T : Type} `{HasId T}.

Implicit Types (m : list (string * T)) (l : list T) (k : string) (x : T).

(** What a map entry holds once the items of [l] have been set. *)
Let replaced l (e : string * T) : string * T :=
  (e.1, default e.2 (findBy id_of e.1 l)).

Let keyed x : string * T := (id_of x, x).

Lemma map_set_absent k x m : k ∉ m.*1 → map_set k x m = m ++ [(k, x)].
Proof.
  induction m as [|[k0 x0] m IH]; [done|]. cbn.
  intros [? ?]%not_elem_of_cons.
  rewrite decide_False by done. by rewrite IH.
Qed.

Lemma map_set_present k x m :
  NoDup m.*1 → k ∈ m.*1 →
  map_set k x m = (λ e, if decide (e.1 = k) then (k, x) else e) <$> m.
Proof.
  induction m as [|[k0 x0] m IH]; [by intros _ ?%elem_of_nil|]. cbn.
  intros [Hk0 Hnd]%NoDup_cons Hk.
  destruct (decide (k0 = k)) as [->|Hne].
  - f_equal. symmetry. rewrite <-(list_fmap_id m) at 2.
    apply list_fmap_ext. intros i [k1 x1] Hi. cbn.
    rewrite decide_False; [done|]. intros ->. apply Hk0.
    apply list_elem_of_fmap. exists (k, x1). split; [done|].
    by eapply list_elem_of_lookup_2.
  - f_equal. apply IH; [done|].
    apply elem_of_cons in Hk as [?|?]; [congruence|done].
Qed.

Lemma map_set_present_keys k x m :
  NoDup m.*1 → k ∈ m.*1 → (map_set k x m).*1 = m.*1.
Proof.
  intros Hnd Hk. rewrite map_set_present by done.
  rewrite <-list_fmap_compose. apply list_fmap_ext.
  intros i [k0 x0] _. unfold compose. by case_decide.
Qed.

Lemma setAll_order l : ∀ m,
  NoDup m.*1 → NoDup (id_of <$> l) →
  setAll m l = (replaced l <$> m) ++ (keyed <$> filter (λ x, id_of x ∉ m.*1) l).
Proof.
  induction l as [|x l IH]; intros m Hm Hl.
  - cbn. rewrite app_nil_r. rewrite <-(list_fmap_id m) at 1.
    apply list_fmap_ext. by intros i [k0 x0] _.
  - rewrite fmap_cons in Hl. apply NoDup_cons in Hl as [Hx Hl].
    cbn [setAll foldl]. fold (setAll (map_set (id_of x) x m) l).
    rewrite IH by (by try apply map_set_NoDup).
    destruct (decide (id_of x ∈ m.*1)) as [Hin|Hout].
    + rewrite filter_cons_False by (by intros ?).
      rewrite map_set_present_keys by done.
      rewrite map_set_present by done.
      rewrite <-!list_fmap_compose. f_equal.
      * apply list_fmap_ext. intros i [k0 x0] _. unfold replaced, compose.
        destruct (decide (k0 = id_of x)) as [->|Hne]; cbn [fst snd].
        -- rewrite decide_True by done. cbn [fst snd].
           rewrite findBy_cons, decide_True by done. by rewrite findBy_absent.
        -- rewrite decide_False by done. cbn [fst snd].
           by rewrite findBy_cons, decide_False by done.
    + rewrite filter_cons_True by done.
      rewrite map_set_absent by done.
      rewrite fmap_app, fmap_cons, <-app_assoc. cbn [app fmap list_fmap].
      f_equal.
      * apply list_fmap_ext. intros i [k0 x0] Hi. unfold replaced. cbn [fst snd].
        rewrite findBy_cons. rewrite decide_False; [done|].
        intros Heq. apply Hout. rewrite Heq.
        apply list_elem_of_fmap. exists (k0, x0). split; [done|].
        by eapply list_elem_of_lookup_2.
      * f_equal.
        -- unfold replaced, keyed. cbn. by rewrite findBy_absent.
        -- f_equal. apply filter_ext_elem. intros y Hy.
           rewrite fmap_app, not_elem_of_app. cbn.
           split; [by intros [? _]|]. intros Hm'. split; [done|].
           intros Heq%list_elem_of_singleton. apply Hx. rewrite <-Heq.
           by apply list_elem_of_fmap_2.
Qed.

Lemma mergeById_split base incoming :
  NoDup (id_of <$> base) → NoDup (id_of <$> incoming) →
  mergeById base incoming =
    ((λ x, default x (findBy id_of (id_of x) incoming)) <$> base) ++
    filter (λ y, id_of y ∉ id_of <$> base) incoming.
Proof.
  intros Hbase Hincoming.
  unfold mergeById. fold (setAll [] base). fold (setAll (setAll [] base) incoming).
  assert (setAll [] base = keyed <$> base) as ->.
  { rewrite setAll_order by (done || apply NoDup_nil_2). cbn.
    f_equal. apply filter_all. intros x. apply not_elem_of_nil. }
  assert ((keyed <$> base).*1 = id_of <$> base) as Hkeys.
  { rewrite <-list_fmap_compose. done. }
  rewrite setAll_order by (by rewrite ?Hkeys).
  rewrite Hkeys. unfold map_values. rewrite fmap_app, <-!list_fmap_compose.
  f_equal. apply list_fmap_id.
Qed.

Lemma findBy_key (k : string) (l : list T) y : findBy id_of k l = Some y → id_of y = k.
Proof.
  induction l as [|x l IH]; [done|]. rewrite findBy_cons.
  case_decide; [by intros [= <-]|exact IH].
Qed.

(** X4. Merging keeps the order. When the stored items have
    distinct ids and so have the incoming ones, [mergeById] gives the
    stored items in their order, each replaced where it stands by the
    incoming item of its id if there is one, followed by the incoming
    items whose id was not stored, in their order. So the ids after
    the merge are the stored ids as they were, then the new ones. *)
Theorem mergeById_order base incoming :
  NoDup (id_of <$> base) → NoDup (id_of <$> incoming) →
  mergeById base incoming =
    ((λ x, default x (findBy id_of (id_of x) incoming)) <$> base) ++
    filter (λ y, id_of y ∉ id_of <$> base) incoming ∧
  id_of <$> mergeById base incoming =
    (id_of <$> base) ++ filter (λ k, k ∉ id_of <$> base) (id_of <$> incoming).
Proof.
  intros Hbase Hincoming. rewrite mergeById_split by done. split; [done|].
  rewrite fmap_app, <-list_fmap_compose. f_equal.
  - apply list_fmap_ext. intros i x Hx. cbn.
    destruct (findBy id_of (id_of x) incoming) as [y|] eqn:Hy; [|done].
    cbn. by apply findBy_key in Hy.
  - clear. induction incoming as [|y l IH]; [done|]. rewrite fmap_cons.
    destruct (decide (id_of y ∈ id_of <$> base)).
    + rewrite !filter_cons_False by (by intros ?). exact IH.
    + rewrite !filter_cons_True by done. by rewrite fmap_cons, IH.
Qed.
End MergeOrder.

Lemma mergeById_order_witness :
  let a := sampleTask "a" [] in
  let b := sampleTask "b" [] in
  let b' := sampleTask "b" [sampleStep "s1" Click "#btn"] in
  let c := sampleTask "c" [] in
  mergeById [a; b] [c; b'] = [a; b'; c].
Proof.
  intros a b b' c.
  destruct (mergeById_order [a; b] [c; b']) as [-> _].
  - apply (bool_decide_unpack _). vm_compute. reflexivity.
  - apply (bool_decide_unpack _). vm_compute. reflexivity.
  - reflexivity.
Defined.


Lemma filter_none {A} (P : A → Prop) `{!∀ x, Decision (P x)} (l : list A) :
  (∀ x, x ∈ l → ¬ P x) → filter P l = [].
Proof.
  induction l as [|x l IH]; [done|]. intros Hnone.
  rewrite filter_cons_False by (apply Hnone, list_elem_of_here).
  apply IH. intros y Hy. by apply Hnone, list_elem_of_further.
Qed.

Lemma filter_all_elem {A} (P : A → Prop) `{!∀ x, Decision (P x)} (l : list A) :
  (∀ x, x ∈ l → P x) → filter P l = l.
Proof.
  induction l as [|x l IH]; [done|]. intros Hall.
  rewrite filter_cons_True by (apply Hall, list_elem_of_here).
  f_equal. apply IH. intros y Hy. by apply Hall, list_elem_of_further.
Qed.

Lemma mergeById_self {T} `{HasId T} (l : list T) :
  NoDup (id_of <$> l) → mergeById l l = l.
Proof.
  intros Hnd. rewrite mergeById_split by done.
  rewrite (filter_none (λ y, id_of y ∉ id_of <$> l)).
  - rewrite app_nil_r. rewrite <-(list_fmap_id l) at 2.
    apply list_fmap_ext. intros i x Hi.
    rewrite findBy_NoDup; [done..|]. by eapply list_elem_of_lookup_2.
  - intros x Hx Hout. apply Hout. by apply list_elem_of_fmap_2.
Qed.

(** X5. An export can be imported back. On a store whose tasks,
    flows and triggers have distinct ids, importing its own export in
    merge mode changes nothing; importing it in replace mode into any
    store gives that store the exported tasks, flows and triggers, and
    leaves its logs, recording buffers and conversation states alone. *)
Theorem import_of_export s other :
  uniqueIds s →
  importData (exportData s) MergeMode s = s ∧
  (let restored := importData (exportData s) ReplaceMode other in
   Storage.tasks restored = Storage.tasks s ∧
   Storage.flows restored = Storage.flows s ∧
   Storage.triggers restored = Storage.triggers s ∧
   Storage.logs restored = Storage.logs other ∧
   Storage.recordingBuffers restored = Storage.recordingBuffers other ∧
   Storage.conversationStates restored = Storage.conversationStates other).
Proof.
  intros (Htasks & Hflows & Htriggers). split; [|done].
  unfold importData, exportData. cbn -[mergeById].
  rewrite !mergeById_self by done. by destruct s.
Qed.

Lemma import_of_export_witness :
  let s := Storage.mk [sampleTask "t1" []] [sampleFlow "f1" ["t1"]] []
             [sampleTrigger "g1" "f1"] [] [] in
  importData (exportData s) MergeMode s = s ∧
  Storage.tasks (importData (exportData s) ReplaceMode Storage.empty) = [sampleTask "t1" []].
Proof.
  intros s.
  destruct (import_of_export s Storage.empty) as [Hmerge Hreplace].
  - split_and!; apply (bool_decide_unpack _); vm_compute; reflexivity.
  - split; [exact Hmerge|]. apply Hreplace.
Defined.

(** ** The Flow Runner, further *)

Lemma lastWithId_deleteTask taskId k tasks :
  lastWithId k (filter (λ t, Task.id t ≠ taskId) tasks) =
    if decide (k = taskId) then None else lastWithId k tasks.
Proof.
  unfold lastWithId. rewrite list_filter_filter.
  case_decide as Hk.
  - rewrite filter_none; [done|]. intros t _ [Ht Hne]. apply Hne. by rewrite <-Hk.
  - f_equal. apply filter_ext_elem. intros t _. split; [by intros [? _]|].
    intros Ht. split; [done|]. unfold id_of, task_has_id in Ht. congruence.
Qed.

(** X6. The steps of a flow are those of its tasks, in the order of
    [taskIds]: a task id named twice gives its steps twice, and an id
    under which no task is stored gives none. So once a task has been
    deleted, a flow that still names it runs as if it did not. *)
Theorem stepsOfFlow_tasks flow b taskId :
  stepsOfFlow flow b = Flow.taskIds flow ≫= stepsOfTask (tasksOf b) ∧
  (taskId ∉ Task.id <$> tasksOf b → stepsOfTask (tasksOf b) taskId = []) ∧
  stepsOfFlow flow (onMessage (ReqDeleteTask taskId) b).2 =
    filter (λ k, k ≠ taskId) (Flow.taskIds flow) ≫= stepsOfTask (tasksOf b).
Proof.
  assert (∀ b, stepsOfFlow flow b = Flow.taskIds flow ≫= stepsOfTask (tasksOf b)) as Hsteps.
  { intros b0. unfold stepsOfFlow. rewrite flattenSteps_bind.
    apply list_bind_ext; [|done]. intros k. unfold stepsOfTask.
    rewrite tasksMap_lookup. by destruct (lastWithId k _). }
  split_and!; [done| |].
  - intros Hout. unfold stepsOfTask, lastWithId.
    rewrite filter_none; [done|]. intros t Ht Hid. apply Hout.
    rewrite <-Hid. by apply list_elem_of_fmap_2.
  - rewrite Hsteps.
    assert (tasksOf (onMessage (ReqDeleteTask taskId) b).2 =
            filter (λ t, Task.id t ≠ taskId) (tasksOf b)) as -> by done.
    clear Hsteps. induction (Flow.taskIds flow) as [|k ks IH]; [done|].
    rewrite bind_cons, IH. unfold stepsOfTask at 1. rewrite lastWithId_deleteTask.
    destruct (decide (k = taskId)) as [->|Hk].
    + rewrite filter_cons_False by (by intros ?). done.
    + rewrite filter_cons_True by done. by rewrite bind_cons.
Qed.

Lemma bind_Thrown {S A B} (m : Async S A) (k : A → Async S B) s e s' :
  m s = (Thrown e, s') → (m ≫= k) s = (Thrown e, s').
Proof. intros Hm. run. by rewrite Hm. Qed.

Lemma queryActiveTab_error b error :
  activeTabError (Chrome.activeTabs (Background.chrome b)) = Some error →
  queryActiveTab b = (Thrown error, b).
Proof.
  unfold activeTabError, queryActiveTab.
  destruct (Chrome.activeTabs _) as [lastError|[|[tabId|] tabs]]; try by intros [= ->].
  case_decide; [by intros [= ->]|done].
Qed.

(** X7. Without an active tab, the requests that need one are refused
    and change nothing: starting or stopping a recording, a run aimed
    at the active tab, and the two LLM requests are answered with the
    error of the tab query, and the store, the in-memory maps and the
    messages sent are as before. No run log is written for the run. *)
Theorem no_active_tab_refused b error :
  activeTabError (Chrome.activeTabs (Background.chrome b)) = Some error →
  onMessage ReqStartRecording b = (RespError error, b) ∧
  (∀ taskName description,
     onMessage (ReqStopRecording taskName description) b = (RespError error, b)) ∧
  (∀ flowId triggeredBy,
     is_Some (findBy Flow.id flowId (Storage.flows (Background.storage b))) →
     runFlow flowId None triggeredBy b = (Thrown error, b) ∧
     onMessage (ReqRunFlow flowId None) b = (RespError error, b)) ∧
  (∀ prompt taskName description currentUrl parsedSteps,
     onMessage (ReqRunLlmPrompt prompt taskName description currentUrl parsedSteps) b =
       (RespError error, b)) ∧
  (∀ message conversationId history currentUrl result reportRound,
     onMessage (ReqRunLlmConversation message conversationId history currentUrl result
                  reportRound) b = (RespError error, b)).
Proof.
  intros Hq%queryActiveTab_error.
  split_and!.
  - unfold onMessage, dispatch, handleStartRecording, getActiveTabId.
    by rewrite (bind_Thrown _ _ _ _ _ Hq).
  - intros taskName description.
    unfold onMessage, dispatch, handleStopRecording, getActiveTabId.
    by rewrite (bind_Thrown _ _ _ _ _ Hq).
  - intros flowId triggeredBy [flow Hflow].
    assert (∀ by_, runFlow flowId None by_ b = (Thrown error, b)) as Hrun.
    { intros by_. unfold runFlow. run. unfold findBy in Hflow. rewrite Hflow.
      by rewrite Hq. }
    split; [done|].
    unfold onMessage, dispatch, handleRunFlow.
    by rewrite (bind_Thrown _ _ _ _ _ (Hrun Direct)).
  - intros prompt taskName description currentUrl parsedSteps.
    unfold onMessage, dispatch, handleRunLlmPrompt, getActiveTabId, try_catch.
    by rewrite (bind_Thrown _ _ _ _ _ Hq).
  - intros message conversationId history currentUrl result reportRound.
    unfold onMessage, dispatch, handleRunLlmConversation, getActiveTabId, try_catch.
    by rewrite (bind_Thrown _ _ _ _ _ Hq).
Qed.

Lemma no_active_tab_refused_witness :
  let b := oneClickFlow (Chrome.mk (λ _ _ _, Resolved true None) [] (QueryTabs [])
                           (λ n, pretty n) 0 (λ n, pretty n) 0) in
  onMessage ReqStartRecording b = (RespError "No active tab found", b) ∧
  runFlow "f1" None Direct b = (Thrown "No active tab found", b).
Proof.
  intros b.
  destruct (no_active_tab_refused b "No active tab found") as (Hstart & _ & Hrun & _).
  - reflexivity.
  - split; [exact Hstart|]. apply Hrun. by eexists.
Defined.

(** ** What a run writes *)

Lemma exceptLogs_logs s c b :
  exceptLogs (Background.set_chrome c (Background.set_storage
                (Storage.set_logs s (Background.storage b)) b)) = exceptLogs b.
Proof. by destruct b as [c0 [] rb cs]. Qed.

Lemma exceptLogs_chrome c b : exceptLogs (Background.set_chrome c b) = exceptLogs b.
Proof. by destruct b. Qed.

Lemma keeps_runFlow_loop {X} (f : Background.t → X) tabId steps :
  (∀ s c b, f (Background.set_chrome c (Background.set_storage
                (Storage.set_logs s (Background.storage b)) b)) = f b) →
  (∀ c b, f (Background.set_chrome c b) = f b) →
  ∀ flowLog, keeps f (runFlow_loop tabId steps flowLog).
Proof.
  intros Hlogs Hchrome.
  induction steps as [|step steps IH]; intros flowLog; cbn [runFlow_loop].
  - by apply keeps_finalizeFlowLog.
  - unfold runFlow_body, sendStepToTab.
    apply keeps_bind; [|intros [flowLog'|]; [apply IH|apply keeps_ret]].
    apply keeps_try_catch.
    + apply keeps_bind.
      * intros b. unfold tabs_sendMessage. destruct (Chrome.respond _ _ _ _); apply Hchrome.
      * intros [[] errorMessage].
        -- apply keeps_bind; [by apply keeps_addStepLog|intros ?; apply keeps_ret].
        -- apply keeps_bind; [by apply keeps_addStepLog|intros ?].
           apply keeps_bind; [by apply keeps_finalizeFlowLog|intros ?; apply keeps_ret].
    + intros e. apply keeps_bind; [by apply keeps_addStepLog|intros ?].
      apply keeps_bind; [by apply keeps_finalizeFlowLog|intros ?; apply keeps_ret].
Qed.

Lemma keeps_runFlow {X} (f : Background.t → X) flowId explicitTabId triggeredBy :
  (∀ s c b, f (Background.set_chrome c (Background.set_storage
                (Storage.set_logs s (Background.storage b)) b)) = f b) →
  (∀ c b, f (Background.set_chrome c b) = f b) →
  keeps f (runFlow flowId explicitTabId triggeredBy).
Proof.
  intros Hlogs Hchrome. unfold runFlow.
  apply keeps_bind; [by intros b|intros flows].
  apply keeps_bind; [by intros b|intros tasks].
  destruct (find _ flows) as [flow|]; [|apply keeps_throw].
  apply keeps_bind.
  { destruct explicitTabId; [apply keeps_ret|].
    intros b. unfold queryActiveTab. by repeat case_match. }
  intros tabId. apply keeps_bind; [|intros flowLog; by apply keeps_runFlow_loop].
  unfold createFlowLog.
  apply keeps_bind; [intros b; apply Hchrome|intros id].
  apply keeps_bind; [intros b; apply Hchrome|intros startedAt].
  apply keeps_bind; [intros b; apply Hchrome|intros finishedAt].
  apply keeps_ret.
Qed.

Section LogRoom.
Context (logs : list FlowRunLog.t) (id : string).

(** The logs are those the run found, but for the log [id], which
    the run has written or not. *)
Let room (b : Background.t) : Prop :=
  logsOf b = logs ∨
  ∃ log, FlowRunLog.id log = id ∧
         logsOf b = upsert (λ l, bool_decide (FlowRunLog.id l = id)) log logs.

Lemma room_upsertLog log :
  FlowRunLog.id log = id → triple room (onStorage (upsertLog log)) (λ _, True).
Proof.
  intros Hid b Hb. run. split; [|done]. right. exists log. split; [done|].
  unfold room, logsOf in *. destruct b as [c s rb cs]. cbn in *. rewrite Hid.
  destruct Hb as [->|(log' & Hid' & ->)]; [done|].
  apply upsert_upsert; by apply bool_decide_eq_true.
Qed.

Lemma room_keeps {A} (m : BG A) : keeps logsOf m → triple room m (λ _, True).
Proof.
  intros Hm b Hb. specialize (Hm b).
  assert (room (m b).2) as Hb' by (unfold room; by rewrite Hm).
  by destruct (m b) as [[a|e] b'].
Qed.

Lemma room_nowIso : triple room nowIso (λ _, True).
Proof. apply room_keeps. by intros b. Qed.

Lemma room_addStepLog flowLog step status errorMessage :
  FlowRunLog.id flowLog = id →
  triple room (addStepLog flowLog step status errorMessage)
    (λ flowLog', FlowRunLog.id flowLog' = id).
Proof.
  intros Hid. unfold addStepLog.
  eapply triple_bind; [apply room_nowIso|intros now _].
  eapply triple_bind; [by apply room_upsertLog|intros _ _].
  by apply triple_ret.
Qed.

Lemma room_finalizeFlowLog flowLog status :
  FlowRunLog.id flowLog = id → triple room (finalizeFlowLog flowLog status) (λ _, True).
Proof.
  intros Hid. unfold finalizeFlowLog.
  eapply triple_bind; [apply room_nowIso|intros now _].
  by apply room_upsertLog.
Qed.

Lemma room_runFlow_loop tabId steps : ∀ flowLog,
  FlowRunLog.id flowLog = id → triple room (runFlow_loop tabId steps flowLog) (λ _, True).
Proof.
  induction steps as [|step steps IH]; intros flowLog Hid; cbn [runFlow_loop].
  - by apply room_finalizeFlowLog.
  - eapply (triple_bind _ _ _
              (λ exit, match exit with
                       | NextStep flowLog' => FlowRunLog.id flowLog' = id
                       | ReturnNow => True
                       end)).
    2: { intros [flowLog'|] Hexit; [by apply IH|by apply triple_ret]. }
    unfold runFlow_body, sendStepToTab. apply triple_try_catch.
    + eapply triple_bind.
      { apply room_keeps. intros b. unfold tabs_sendMessage.
        by destruct (Chrome.respond _ _ _ _). }
      intros [[] errorMessage] _.
      * eapply triple_bind; [by apply room_addStepLog|intros flowLog' Hid'].
        by apply triple_ret.
      * eapply triple_bind; [by apply room_addStepLog|intros flowLog' Hid'].
        eapply triple_bind; [by apply room_finalizeFlowLog|intros _ _].
        by apply triple_ret.
    + intros e.
      eapply triple_bind; [by apply room_addStepLog|intros flowLog' Hid'].
      eapply triple_bind; [by apply room_finalizeFlowLog|intros _ _].
      by apply triple_ret.
Qed.
End LogRoom.

Lemma filter_upsert_others {A K} `{EqDecision K} (key : A → K) k x (l : list A) :
  key x = k →
  filter (λ y, key y ≠ k) (upsert (λ y, bool_decide (key y = k)) x l) =
  filter (λ y, key y ≠ k) l.
Proof. intros <-. apply filter_upsert. Qed.

(** The logs after a run that is taken alone. *)
Lemma runFlow_logs flowId explicitTabId triggeredBy b :
  logsOf (runFlow flowId explicitTabId triggeredBy b).2 = logsOf b ∨
  ∃ log, logsOf (runFlow flowId explicitTabId triggeredBy b).2 =
           upsert (sameLog log) log (logsOf b).
Proof.
  unfold runFlow. run.
  destruct (find _ _) as [flow|]; [|by left].
  set (steps := flattenSteps flow _).
  assert (∀ tabId b1, logsOf b1 = logsOf b →
            let b' := (match createFlowLog flow triggeredBy None b1 with
                       | (Returned flowLog, b2) => runFlow_loop tabId steps flowLog b2
                       | (Thrown e, b2) => (Thrown e, b2)
                       end).2 in
            logsOf b' = logsOf b ∨ ∃ log, logsOf b' = upsert (sameLog log) log (logsOf b))
    as Hrest.
  { intros tabId b1 Hb1.
    destruct (createFlowLog_spec flow triggeredBy b1)
      as (flowLog & b2 & -> & _ & _ & _ & _ & Hlogs & _).
    pose proof (room_runFlow_loop (logsOf b) (FlowRunLog.id flowLog)
                  tabId steps flowLog eq_refl) as Hloop.
    pose proof (triple_state _ _ _ b2 Hloop) as Hstate.
    cbv zeta. destruct Hstate as [->|(log & Hid & ->)];
      [left; by rewrite Hlogs|by left|].
    right. exists log. unfold sameLog. by rewrite Hid. }
  destruct explicitTabId as [tabId|]; [by apply Hrest|].
  unfold queryActiveTab.
  destruct (Chrome.activeTabs _) as [lastError|[|[tabId|] tabs]]; try by left.
  case_decide; [by left|by apply Hrest].
Qed.

(** X8. A run writes its own run log and nothing else. Taken alone,
    no other handler running between its steps, a run leaves the
    tasks, flows, triggers, recording buffers and conversation states
    as they were, in the store and in memory, however it ends; and of
    the logs it writes the one under its own id only: the logs are as
    before, or as before with the log of the run stored under its id,
    the logs of the other ids being kept in their order. Log writes
    that interleave do lose logs: when two calls of [upsertLog] have
    both read the logs before either writes, as the calls of runs
    started together can, the log written first is gone after the
    second write, where the two calls one after the other keep both. *)
Theorem runFlow_writes_logs_only flowId explicitTabId triggeredBy b :
  let b' := (runFlow flowId explicitTabId triggeredBy b).2 in
  exceptLogs b' = exceptLogs b ∧
  (logsOf b' = logsOf b ∨
   ∃ log,
     logsOf b' = upsert (sameLog log) log (logsOf b) ∧
     storedUnder FlowRunLog.id log (logsOf b) (logsOf b') ∧
     filter (λ l, FlowRunLog.id l ≠ FlowRunLog.id log) (logsOf b') =
       filter (λ l, FlowRunLog.id l ≠ FlowRunLog.id log) (logsOf b)) ∧
  (∀ s first second,
     FlowRunLog.id first ≠ FlowRunLog.id second →
     FlowRunLog.id first ∉ FlowRunLog.id <$> Storage.logs s →
     upsertLog_resume (upsertLog_start first s) s = upsertLog first s ∧
     first ∈ Storage.logs (upsertLog second (upsertLog first s)) ∧
     first ∉ Storage.logs
               (upsertLog_resume (upsertLog_start second s)
                  (upsertLog_resume (upsertLog_start first s) s))).
Proof.
  split_and!.
  - apply (keeps_runFlow exceptLogs); [apply exceptLogs_logs|apply exceptLogs_chrome].
  - destruct (runFlow_logs flowId explicitTabId triggeredBy b) as [Hsame|[log Hlog]];
      [by left|right]. exists log. cbv zeta. rewrite Hlog. split_and!; [done| |].
    + apply upsert_storedUnder.
    + by apply filter_upsert_others.
  - intros s first second Hids Hfresh. split_and!; [done| |].
    + unfold upsertLog. cbn.
      destruct (upsert_storedUnder FlowRunLog.id first (Storage.logs s)) as [Hfind _].
      destruct (upsert_storedUnder FlowRunLog.id second
                  (upsert (λ l, bool_decide (FlowRunLog.id l = FlowRunLog.id first))
                     first (Storage.logs s))) as [Hfind' _].
      specialize (Hfind (FlowRunLog.id first)). specialize (Hfind' (FlowRunLog.id first)).
      rewrite decide_True in Hfind by done. rewrite decide_False, Hfind in Hfind' by done.
      unfold findBy in Hfind'. by apply find_Some in Hfind' as [? _].
    + unfold upsertLog_resume, upsertLog_start. cbn.
      intros [->|Hin]%elem_of_upsert; [done|].
      apply Hfresh. by apply list_elem_of_fmap_2.
Qed.


(** ** A recording from start to stop *)

Lemma getActiveTabId_ext b b' tabId :
  getActiveTabId b = (Returned tabId, b) → activeTabsOf b' = activeTabsOf b →
  getActiveTabId b' = (Returned tabId, b').
Proof.
  unfold getActiveTabId, queryActiveTab, activeTabsOf. intros Hb ->.
  destruct (Chrome.activeTabs _) as [lastError|[|[id|] tabs]]; try done.
  case_decide; [done|]. by injection Hb as ->.
Qed.

Lemma find_filter_out {A} (p : A → bool) (P : A → Prop) `{!∀ x, Decision (P x)}
    (l : list A) :
  (∀ x, p x = true → ¬ P x) → find p (filter P l) = None.
Proof.
  intros Hp. induction l as [|x l IH]; [done|].
  destruct (decide (P x)) as [HP|HP].
  - rewrite filter_cons_True by done. cbn. destruct (p x) eqn:Hx; [|done].
    by destruct (Hp x Hx).
  - by rewrite filter_cons_False.
Qed.

Lemma removeRecordingBuffer_find tabId s :
  getRecordingBuffer tabId (removeRecordingBuffer tabId s) = None.
Proof.
  unfold getRecordingBuffer, removeRecordingBuffer. cbn.
  apply find_filter_out. intros buffer Hb%bool_decide_eq_true. by intros ?.
Qed.

Lemma handleStartRecording_on b tabId :
  getActiveTabId b = (Returned tabId, b) →
  ∃ b', handleStartRecording b = (Returned (RespState true), b') ∧
        recordingOn tabId [] b' ∧
        activeTabsOf b' = activeTabsOf b ∧ tasksOf b' = tasksOf b ∧
        sentOf b' = sentOf b ++ [(tabId, StartRecording)].
Proof.
  intros Htab. unfold handleStartRecording. run. rewrite Htab.
  unfold randomId, nowIso, cache_set, tabs_postMessage. run.
  eexists. split; [reflexivity|]. split_and!; try done.
  eexists (RecordingBuffer.mk tabId _ [] _). split_and!; [| |done].
  - cbn. apply lookup_insert_eq.
  - unfold getRecordingBuffer, upsertRecordingBuffer. cbn.
    apply find_upsert. by apply bool_decide_eq_true.
Qed.

Lemma handleRecordStep_cached step tabId buffer b :
  Background.recordingBuffers b !! tabId = Some buffer →
  RecordingBuffer.tabId buffer = tabId →
  ∃ b', handleRecordStep step (Some tabId) b = (Returned RespOk, b') ∧
        Background.recordingBuffers b' !! tabId = Some (buffer_push step buffer) ∧
        getRecordingBuffer tabId (Background.storage b') = Some (buffer_push step buffer) ∧
        Background.chrome b' = Background.chrome b ∧ tasksOf b' = tasksOf b.
Proof.
  intros Hcache <-. unfold handleRecordStep, cache_get, cache_set. run.
  rewrite Hcache. run.
  eexists. split; [reflexivity|]. split_and!; try done.
  - cbn. apply lookup_insert_eq.
  - unfold getRecordingBuffer, upsertRecordingBuffer. cbn.
    apply find_upsert. apply bool_decide_eq_true. by cbn.
Qed.

Lemma handleRecordStep_on step tabId recorded b :
  recordingOn tabId recorded b →
  ∃ b', onMessage (ReqRecordStep step (Some tabId)) b = (RespOk, b') ∧
        recordingOn tabId (recorded ++ [step]) b' ∧
        Background.chrome b' = Background.chrome b ∧ tasksOf b' = tasksOf b.
Proof.
  intros (buffer & Hcache & Hstored & Hsteps).
  assert (RecordingBuffer.tabId buffer = tabId) as Htab.
  { apply find_Some in Hstored as [_ Hp]. by apply bool_decide_eq_true in Hp. }
  destruct (handleRecordStep_cached step tabId buffer b Hcache Htab)
    as (b' & Hrun & Hcache' & Hstored' & Hchrome & Htasks).
  exists b'. unfold onMessage, dispatch. rewrite Hrun.
  split_and!; try done.
  exists (buffer_push step buffer). split_and!; try done. cbn. by rewrite Hsteps.
Qed.

Lemma recordAll_on tabId steps : ∀ recorded b,
  recordingOn tabId recorded b →
  recordingOn tabId (recorded ++ steps) (recordAll tabId steps b) ∧
  Background.chrome (recordAll tabId steps b) = Background.chrome b ∧
  tasksOf (recordAll tabId steps b) = tasksOf b.
Proof.
  induction steps as [|step steps IH]; intros recorded b Hon.
  - by rewrite app_nil_r.
  - destruct (handleRecordStep_on step tabId recorded b Hon)
      as (b' & Hrun & Hon' & Hchrome & Htasks).
    cbn [recordAll foldl]. rewrite Hrun. cbn [snd]. fold (recordAll tabId steps b').
    destruct (IH _ _ Hon') as (Hon'' & Hchrome' & Htasks').
    rewrite <-app_assoc in Hon''. split_and!; [done|congruence|congruence].
Qed.

Lemma handleStopRecording_run taskName description tabId b :
  getActiveTabId b = (Returned tabId, b) →
  let steps := default [] (RecordingBuffer.steps <$>
                             getRecordingBuffer tabId (Background.storage b)) in
  ∃ response b',
    handleStopRecording taskName description b = (Returned response, b') ∧
    recordingOff tabId b' ∧
    sentOf b' = sentOf b ++ [(tabId, StopRecording)] ∧
    match steps with
    | [] => response = RespSaved false None ∧ tasksOf b' = tasksOf b
    | _ => ∃ task,
        response = RespSaved true (Some task) ∧
        Task.steps task = steps ∧
        Task.name task = or_default taskName "Recorded Task" ∧
        Task.description task = description ∧
        tasksOf b' = upsert (λ t, bool_decide (Task.id t = Task.id task)) task (tasksOf b)
    end.
Proof.
  intros Htab steps. unfold handleStopRecording. run. rewrite Htab.
  unfold tabs_postMessage. run. cbn [posted Background.storage Background.set_chrome].
  fold steps. destruct steps as [|step steps'] eqn:Hsteps.
  - unfold cache_delete. run. eexists _, _. split; [reflexivity|].
    split_and!; try done. split.
    + cbn. apply lookup_delete_eq.
    + cbn. apply removeRecordingBuffer_find.
  - unfold randomId, nowIso, cache_delete. run. eexists _, _. split; [reflexivity|].
    split_and!; try done.
    + split.
      * cbn. apply lookup_delete_eq.
      * cbn. apply removeRecordingBuffer_find.
    + eexists. split_and!; reflexivity.
Qed.

(** X9. A recording comes out as it went in. After [StartRecording]
    on the active tab and the [RecordStep] requests of that tab served
    in order, [StopRecording] answers with a new task whose steps are
    exactly the recorded steps, in their order, named by the request
    (or "Recorded Task"), and stores it under its id; when no step was
    recorded it saves nothing and leaves the tasks as they were.
    Either way the buffer of the tab is gone afterwards, from memory
    and from the store. *)
Theorem recording_round_trip b tabId steps taskName description :
  getActiveTabId b = (Returned tabId, b) →
  let started := (onMessage ReqStartRecording b).2 in
  let recorded := recordAll tabId steps started in
  let stopped := onMessage (ReqStopRecording taskName description) recorded in
  recordingOn tabId steps recorded ∧
  recordingOff tabId stopped.2 ∧
  match steps with
  | [] => stopped.1 = RespSaved false None ∧ tasksOf stopped.2 = tasksOf b
  | _ => ∃ task,
      stopped.1 = RespSaved true (Some task) ∧
      Task.steps task = steps ∧
      Task.name task = or_default taskName "Recorded Task" ∧
      findBy Task.id (Task.id task) (tasksOf stopped.2) = Some task ∧
      storedUnder Task.id task (tasksOf b) (tasksOf stopped.2)
  end.
Proof.
  intros Htab. cbv zeta.
  destruct (handleStartRecording_on b tabId Htab)
    as (b1 & Hstart & Hon & Htabs1 & Htasks1 & _).
  assert ((onMessage ReqStartRecording b).2 = b1) as ->.
  { unfold onMessage, dispatch. by rewrite Hstart. }
  destruct (recordAll_on tabId steps [] b1 Hon) as (Hon2 & Hchrome2 & Htasks2).
  cbn [app] in Hon2. set (recorded := recordAll tabId steps b1) in *.
  assert (getActiveTabId recorded = (Returned tabId, recorded)) as Htab2.
  { apply (getActiveTabId_ext b); [done|]. unfold activeTabsOf in *. congruence. }
  destruct (handleStopRecording_run taskName description tabId recorded Htab2)
    as (response & b3 & Hstop & Hoff & _ & Hresult).
  assert (onMessage (ReqStopRecording taskName description) recorded = (response, b3))
    as ->.
  { unfold onMessage, dispatch. by rewrite Hstop. }
  destruct Hon2 as (buffer & Hcache & Hstored & Hsteps).
  rewrite Hstored in Hresult. cbn [fmap option_fmap option_map default] in Hresult.
  rewrite Hsteps in Hresult.
  split_and!; [by exists buffer|done|].
  destruct steps as [|step steps'].
  - destruct Hresult as [-> Htasks3]. split; [done|]. cbn [snd]. congruence.
  - destruct Hresult as (task & -> & Htask & Hname & _ & Htasks3).
    exists task. cbn [fst snd]. rewrite Htasks3, Htasks2, Htasks1.
    split_and!; try done.
    + unfold findBy. apply find_upsert. by apply bool_decide_eq_true.
    + apply upsert_storedUnder.
Qed.

Lemma recording_round_trip_witness :
  let b := installed (quietChrome 1) in
  let s1 := sampleStep "s1" Input "#name" in
  let s2 := sampleStep "s2" Click "#send" in
  let stopped := onMessage (ReqStopRecording (Some "Send") None)
                   (recordAll 1 [s1; s2] (onMessage ReqStartRecording b).2) in
  ∃ task, stopped.1 = RespSaved true (Some task) ∧
          Task.steps task = [s1; s2] ∧ Task.name task = "Send" ∧
          recordingOff 1 stopped.2.
Proof.
  intros b s1 s2 stopped.
  destruct (recording_round_trip b 1 [s1; s2] (Some "Send") None)
    as (_ & Hoff & task & Hresponse & Hsteps & Hname & _).
  - reflexivity.
  - exists task. by split_and!.
Defined.

(** X10. Requests that find no recording. A [RecordStep] whose sender
    has no tab is answered "Tab not found for recording", and one for
    a tab without a buffer "Recording is not active"; neither changes
    anything. When only the in-memory map has lost the buffer, as
    after a restart of the service worker, the step is added to the
    stored buffer, which is back in memory afterwards. A
    [StopRecording] on a tab without recorded steps saves no task. *)
Theorem requests_without_recording step tabId b :
  onMessage (ReqRecordStep step None) b = (RespError "Tab not found for recording", b) ∧
  (recordingOff tabId b →
   onMessage (ReqRecordStep step (Some tabId)) b = (RespError "Recording is not active", b)) ∧
  (∀ buffer,
     Background.recordingBuffers b !! tabId = None →
     getRecordingBuffer tabId (Background.storage b) = Some buffer →
     recordingOn tabId (RecordingBuffer.steps buffer ++ [step])
       (onMessage (ReqRecordStep step (Some tabId)) b).2 ∧
     (onMessage (ReqRecordStep step (Some tabId)) b).1 = RespOk) ∧
  (∀ taskName description,
     getActiveTabId b = (Returned tabId, b) →
     recordingOff tabId b →
     let stopped := onMessage (ReqStopRecording taskName description) b in
     stopped.1 = RespSaved false None ∧ tasksOf stopped.2 = tasksOf b ∧
     recordingOff tabId stopped.2).
Proof.
  split_and!.
  - done.
  - intros [Hcache Hstored].
    unfold onMessage, dispatch, handleRecordStep, ensureRecordingBuffer, cache_get. run.
    rewrite Hcache. run. rewrite Hcache. cbn beta. by rewrite Hstored.
  - intros buffer Hcache Hstored.
    assert (RecordingBuffer.tabId buffer = tabId) as Htab.
    { apply find_Some in Hstored as [_ Hp]. by apply bool_decide_eq_true in Hp. }
    unfold onMessage, dispatch, handleRecordStep, ensureRecordingBuffer, cache_get,
      cache_set. run.
    rewrite Hcache. run. rewrite Hcache. cbn beta. rewrite Hstored. run.
    split; [|done].
    exists (buffer_push step buffer). split_and!; [| |done].
    + cbn. apply lookup_insert_eq.
    + unfold getRecordingBuffer, upsertRecordingBuffer. cbn. subst tabId.
      apply find_upsert. by apply bool_decide_eq_true.
  - intros taskName description Htab [Hcache Hstored] stopped.
    destruct (handleStopRecording_run taskName description tabId b Htab)
      as (response & b' & Hstop & Hoff & _ & Hresult).
    assert (stopped = (response, b')) as ->.
    { unfold stopped, onMessage, dispatch. by rewrite Hstop. }
    rewrite Hstored in Hresult. cbn in Hresult. destruct Hresult as [-> Htasks].
    done.
Qed.

(** ** The in-memory buffers and the stored ones

    A Hoare logic over [BG] with a precondition, a postcondition on
    the result and the state, and a postcondition for a throw. *)

Section Hoare.
Context {A : Type}.

Implicit Types (P E : Background.t → Prop) (Q : A → Background.t → Prop).

Lemma hoare_ret P Q E (a : A) : (∀ b, P b → Q a b) → hoare P (mret a) Q E.
Proof. intros HQ b Hb. by apply HQ. Qed.

Lemma hoare_throw P Q E message : (∀ b, P b → E b) → hoare P (throw message) Q E.
Proof. intros HE b Hb. by apply HE. Qed.

Lemma hoare_bind {B} P (R : B → Background.t → Prop) Q E (m : BG B) (k : B → BG A) :
  hoare P m R E → (∀ x, hoare (R x) (k x) Q E) → hoare P (m ≫= k) Q E.
Proof.
  intros Hm Hk b Hb. specialize (Hm b Hb). run.
  destruct (m b) as [[x|e] b']; [|done]. by apply Hk.
Qed.

Lemma hoare_try_catch P Q E E' (m : BG A) (h : string → BG A) :
  hoare P m Q E' → (∀ e, hoare E' (h e) Q E) → hoare P (try_catch m h) Q E.
Proof.
  intros Hm Hh b Hb. specialize (Hm b Hb). run.
  destruct (m b) as [[a|e] b']; [done|]. by apply Hh.
Qed.

Lemma hoare_post P Q Q' E (m : BG A) :
  hoare P m Q E → (∀ a b, Q a b → Q' a b) → hoare P m Q' E.
Proof.
  intros Hm HQ b Hb. specialize (Hm b Hb).
  destruct (m b) as [[a|e] b']; [by apply HQ|done].
Qed.


(** A fact that the precondition carries along. *)
Lemma hoare_pure P (fact : Prop) Q E (m : BG A) :
  (fact → hoare P m Q E) → hoare (λ b, P b ∧ fact) m Q E.
Proof. intros Hm b [Hb Hfact]. by apply Hm. Qed.

End Hoare.


Lemma mirrorsBut_buffersOf tabId cached b b' :
  buffersOf b' = buffersOf b → mirrorsBut tabId cached b → mirrorsBut tabId cached b'.
Proof.
  unfold buffersOf, storedBuffers, mirrorsBut, getRecordingBuffer.
  intros [= Hs Hc] [Hb Hothers]. rewrite Hs, Hc. done.
Qed.

























(** ** Deleting a flow, in general *)

Lemma resume_all_triggers pending : ∀ s,
  Storage.triggers (foldl (λ s p, deleteTrigger_resume p s) s pending) =
    match last pending with
    | Some p => deleteTrigger_next (pending_id p) (pending_triggers p)
    | None => Storage.triggers s
    end.
Proof.
  induction pending as [|p pending IH]; intros s; [done|].
  cbn [foldl]. rewrite IH, last_cons. by destruct (last pending).
Qed.

Lemma resume_all_others pending : ∀ s,
  Storage.set_triggers [] (foldl (λ s p, deleteTrigger_resume p s) s pending) =
  Storage.set_triggers [] s.
Proof.
  induction pending as [|p pending IH]; intros s; [done|].
  cbn [foldl]. by rewrite IH.
Qed.

Lemma NoDup_key_eq {A K} `{EqDecision K} (key : A → K) (l : list A) x y :
  NoDup (key <$> l) → x ∈ l → y ∈ l → key x = key y → x = y.
Proof.
  intros Hnd Hx Hy Hkey.
  pose proof (findBy_NoDup key x l Hnd Hx) as Hfx.
  pose proof (findBy_NoDup key y l Hnd Hy) as Hfy.
  rewrite Hkey in Hfx. congruence.
Qed.

(** X12. What deleting a flow does, in general. [handleDeleteFlow]
    removes the flow and leaves the tasks and the logs alone. Of the
    triggers bound to the flow it removes the last one only, its
    calls of [deleteTrigger] having all read the triggers before any
    of them writes; so the triggers of the flow are all gone exactly
    when at most one trigger was bound to it. *)
Theorem handleDeleteFlow_cascade flowId s :
  let orphans := filter (λ t, Trigger.flowId t = flowId) (Storage.triggers s) in
  let s' := handleDeleteFlow_storage flowId s in
  removedUnder Flow.id flowId (Storage.flows s) (Storage.flows s') ∧
  Storage.tasks s' = Storage.tasks s ∧
  Storage.logs s' = Storage.logs s ∧
  Storage.triggers s' =
    match last orphans with
    | Some t => filter (λ x, Trigger.id x ≠ Trigger.id t) (Storage.triggers s)
    | None => Storage.triggers s
    end ∧
  (NoDup (Trigger.id <$> Storage.triggers s) →
   (length orphans ≤ 1 ↔
    Storage.triggers s' = filter (λ t, Trigger.flowId t ≠ flowId) (Storage.triggers s))).
Proof.
  intros orphans s'.
  assert (Storage.triggers s' =
          match last orphans with
          | Some t => filter (λ x, Trigger.id x ≠ Trigger.id t) (Storage.triggers s)
          | None => Storage.triggers s
          end) as Htriggers.
  { unfold s', handleDeleteFlow_storage, deleteTrigger_all.
    rewrite resume_all_triggers, !fmap_last. cbn. fold orphans.
    by destruct (last orphans). }
  assert (Storage.set_triggers [] s' = Storage.set_triggers [] (deleteFlow flowId s))
    as Hothers.
  { unfold s', handleDeleteFlow_storage, deleteTrigger_all. apply resume_all_others. }
  split_and!.
  - assert (Storage.flows s' = Storage.flows (deleteFlow flowId s)) as ->
      by by injection Hothers.
    apply filter_removedUnder.
  - by injection Hothers.
  - by injection Hothers.
  - done.
  - intros Hnd. rewrite Htriggers. split.
    + intros Hlen. destruct orphans as [|t [|t' rest]] eqn:Horphans; [| |cbn in Hlen; lia].
      * cbn. symmetry. apply filter_all_elem. intros x Hx Hflow.
        assert (x ∈ orphans) as Hin by (apply list_elem_of_filter; done).
        rewrite Horphans in Hin. by apply elem_of_nil in Hin.
      * cbn. assert (t ∈ orphans) as Ht by (rewrite Horphans; apply list_elem_of_here).
        apply list_elem_of_filter in Ht as [Htflow Ht].
        apply filter_ext_elem. intros x Hx. split.
        -- intros Hid Hflow. apply Hid.
           assert (x ∈ orphans) as Hin by (apply list_elem_of_filter; done).
           rewrite Horphans in Hin. apply list_elem_of_singleton in Hin. by subst.
        -- intros Hflow Hid. apply Hflow.
           by rewrite (NoDup_key_eq Trigger.id _ x t Hnd Hx Ht Hid).
    + intros Heq.
      destruct (last orphans) as [t|] eqn:Hlast.
      * assert (∀ x, x ∈ orphans → x = t) as Hall.
        { intros x [Hflow Hx]%list_elem_of_filter.
          destruct (decide (Trigger.id x = Trigger.id t)) as [Hid|Hid].
          - apply last_Some_elem_of, list_elem_of_filter in Hlast as [_ Ht].
            by apply (NoDup_key_eq Trigger.id _ x t Hnd Hx Ht).
          - assert (x ∈ filter (λ y, Trigger.id y ≠ Trigger.id t) (Storage.triggers s))
              as Hkept by (apply list_elem_of_filter; done).
            rewrite Heq in Hkept. by apply list_elem_of_filter in Hkept as [? _]. }
        assert (NoDup orphans) as Hnd'.
        { unfold orphans. apply NoDup_filter. by eapply NoDup_fmap_1. }
        clear Htriggers Hlast. clearbody orphans.
        destruct orphans as [|t0 [|t1 rest]]; [cbn; lia..|exfalso].
        apply NoDup_cons in Hnd' as [Hout _]. apply Hout.
        rewrite (Hall t0), <-(Hall t1).
        -- apply list_elem_of_here.
        -- apply list_elem_of_further, list_elem_of_here.
        -- apply list_elem_of_here.
      * apply last_None in Hlast. rewrite Hlast. cbn. lia.
Qed.

(** ** The triggers that fire *)

Lemma find_is_Some {A} (p : A → bool) (l : list A) :
  is_Some (find p l) ↔ ∃ x, x ∈ l ∧ p x = true.
Proof.
  split.
  - intros [x Hx]. exists x. by apply find_Some.
  - intros (x & Hx & Hp). destruct (find p l) eqn:Hfind; [done|].
    induction l as [|y l IH]; [by apply elem_of_nil in Hx|].
    cbn in Hfind. destruct (p y) eqn:Hy; [done|].
    apply elem_of_cons in Hx as [->|Hx]; [congruence|by apply IH].
Qed.

Lemma launched_by_trigger (launch : Launch) (P : Trigger.t → Prop)
    `{!∀ t, Decision (P t)} tabId by_ s :
  launch ∈
    omap (λ trigger,
            (λ flow, {| launch_flowId := Flow.id flow; launch_tabId := tabId;
                        launch_triggeredBy := by_ |}) <$>
            find (λ f, bool_decide (Flow.id f = Trigger.flowId trigger) &&
                       Flow.enabled f) (Storage.flows s))
      (filter P (Storage.triggers s)) ↔
  launch_tabId launch = tabId ∧ launch_triggeredBy launch = by_ ∧
  enabledFlow (launch_flowId launch) s ∧
  ∃ trigger, trigger ∈ Storage.triggers s ∧ P trigger ∧
             Trigger.flowId trigger = launch_flowId launch.
Proof.
  rewrite list_elem_of_omap. split.
  - intros (trigger & [HP Htrigger]%list_elem_of_filter & Hlaunch).
    destruct (find _ _) as [flow|] eqn:Hfind; [|done].
    injection Hlaunch as <-. cbn.
    apply find_Some in Hfind as [Hflow [Hid Henabled]%andb_prop].
    apply bool_decide_eq_true in Hid.
    split_and!; [done|done|by exists flow|by exists trigger].
  - intros (Htab & Hby & (flow & Hflow & Hid & Henabled) & trigger & Htrigger & HP & Hbound).
    exists trigger. split; [by apply list_elem_of_filter|].
    destruct (find_is_Some
                (λ f, bool_decide (Flow.id f = Trigger.flowId trigger) && Flow.enabled f)
                (Storage.flows s)) as [_ [found Hfound]].
    { exists flow. split; [done|]. apply andb_true_intro.
      split; [apply bool_decide_eq_true; congruence|done]. }
    rewrite Hfound. cbn. f_equal.
    apply find_Some in Hfound as [_ [Hid' _]%andb_prop].
    apply bool_decide_eq_true in Hid'.
    destruct launch as [k t b]. cbn in *. congruence.
Qed.

(** X13. Which flows a trigger starts. When a tab has loaded [url],
    a run is started exactly for the ids of the flows that are stored
    and enabled and that either an enabled URL trigger with a matching
    pattern is bound to, or that have a matching pattern of their own;
    the runs are aimed at that tab and marked as triggered by URL. A
    keyboard command starts, on the active tab, exactly the ids of the
    stored and enabled flows that an enabled shortcut trigger of that
    name is bound to. A trigger without a pattern matches nothing.
    What is started is an id: when the ids of the flows are unique,
    the flow that [runFlow] then finds under it is the enabled one;
    when two flows share an id, it can be a disabled one. *)
Theorem triggers_launch regExp tabId url command s launch :
  (launch ∈ runUrlTriggers regExp tabId url s ↔
   launch_tabId launch = Some tabId ∧ launch_triggeredBy launch = ByTrigger Url ∧
   enabledFlow (launch_flowId launch) s ∧
   ((∃ trigger, trigger ∈ Storage.triggers s ∧
                Trigger.enabled trigger = true ∧ Trigger.type trigger = Url ∧
                matchUrlPattern regExp (Trigger.urlPattern trigger) url = true ∧
                Trigger.flowId trigger = launch_flowId launch) ∨
    (∃ flow pattern, flow ∈ Storage.flows s ∧ Flow.enabled flow = true ∧
                     Flow.id flow = launch_flowId launch ∧
                     pattern ∈ default [] (Flow.autoRunUrlPatterns flow) ∧
                     matchUrlPattern regExp (Some pattern) url = true))) ∧
  (launch ∈ onCommand command s ↔
   launch_tabId launch = None ∧ launch_triggeredBy launch = ByTrigger Shortcut ∧
   enabledFlow (launch_flowId launch) s ∧
   ∃ trigger, trigger ∈ Storage.triggers s ∧
              Trigger.enabled trigger = true ∧ Trigger.type trigger = Shortcut ∧
              Trigger.shortcutName trigger = Some command ∧
              Trigger.flowId trigger = launch_flowId launch) ∧
  matchUrlPattern regExp None url = false ∧
  matchUrlPattern regExp (Some EmptyString) url = false ∧
  (NoDup (Flow.id <$> Storage.flows s) →
   launch ∈ runUrlTriggers regExp tabId url s ∨ launch ∈ onCommand command s →
   ∃ flow, find (λ f, bool_decide (Flow.id f = launch_flowId launch)) (Storage.flows s) =
             Some flow ∧
           Flow.enabled flow = true) ∧
  (∃ shared started flow,
     started ∈ onCommand command shared ∧
     find (λ f, bool_decide (Flow.id f = launch_flowId started)) (Storage.flows shared) =
       Some flow ∧
     Flow.enabled flow = false).
Proof.
  assert (launch ∈ runUrlTriggers regExp tabId url s → enabledFlow (launch_flowId launch) s)
    as Hurl.
  { unfold runUrlTriggers. rewrite elem_of_app, launched_by_trigger.
    intros [(_ & _ & Hflow & _)|Hauto]; [done|].
    apply list_elem_of_fmap in Hauto as (flow & -> & Hflow).
    apply list_elem_of_filter in Hflow as [Hactive Hflow].
    apply andb_prop_elim in Hactive as [Henabled _]. apply Is_true_eq_true in Henabled.
    by exists flow. }
  assert (launch ∈ onCommand command s → enabledFlow (launch_flowId launch) s) as Hcommand.
  { unfold onCommand. rewrite launched_by_trigger. by intros (_ & _ & Hflow & _). }
  split; [|split; [|split_and!; [done|done| |]]].
  3: { intros Hnd Hlaunch.
       assert (enabledFlow (launch_flowId launch) s) as (flow & Hflow & Hid & Henabled)
         by (destruct Hlaunch; auto).
       exists flow. split; [|done]. rewrite <-Hid.
       by apply (findBy_NoDup Flow.id). }
  3: { exists (Storage.mk []
                 [Flow.mk "f1" "off" None [] None false EmptyString EmptyString;
                  Flow.mk "f1" "on" None [] None true EmptyString EmptyString]
                 [] [Trigger.mk "t1" Shortcut "f1" None (Some command) true] [] []).
       eexists {| launch_flowId := "f1"; launch_tabId := None;
                  launch_triggeredBy := ByTrigger Shortcut |}, _.
       split_and!; [|reflexivity|reflexivity].
       unfold onCommand. apply launched_by_trigger. cbn.
       split_and!; [done|done| |].
       - eexists. split; [apply list_elem_of_further, list_elem_of_here|done].
       - eexists. split; [apply list_elem_of_here|]. split; [|done].
         cbn. apply andb_prop_intro. split; by apply bool_decide_pack. }
  - unfold runUrlTriggers. rewrite elem_of_app, launched_by_trigger. split.
    + intros [(Htab & Hby & Hflow & trigger & Htrigger & Hactive & Hbound)|Hauto].
      * apply andb_prop_elim in Hactive as [[Henabled Htype]%andb_prop_elim Hmatch].
        apply bool_decide_unpack in Htype. apply Is_true_eq_true in Henabled, Hmatch.
        split_and!; [done..|]. left. by exists trigger.
      * apply list_elem_of_fmap in Hauto as (flow & -> & Hflow).
        apply list_elem_of_filter in Hflow as [Hactive Hflow].
        apply andb_prop_elim in Hactive as [Henabled Hmatch].
        apply Is_true_eq_true in Henabled, Hmatch.
        apply existsb_exists in Hmatch as (pattern & Hpattern & Hmatch).
        apply list_elem_of_In in Hpattern.
        cbn. split_and!; [done|done|by exists flow|]. right. by exists flow, pattern.
    + intros (Htab & Hby & Hflow & [(trigger & Htrigger & He & Ht & Hm & Hbound)
                                   |(flow & pattern & Hin & He & Hid & Hp & Hm)]).
      * left. split_and!; [done..|]. exists trigger.
        split_and!; first [done|by apply Is_true_eq_left|by apply bool_decide_pack].
      * right. apply list_elem_of_fmap. exists flow. split.
        -- destruct launch as [k t b]. cbn in *. congruence.
        -- apply list_elem_of_filter. split; [|done].
           apply andb_prop_intro. split; [by apply Is_true_eq_left|].
           apply Is_true_eq_left, existsb_exists. exists pattern.
           split; [by apply list_elem_of_In|done].
  - unfold onCommand. rewrite launched_by_trigger. split.
    + intros (Htab & Hby & Hflow & trigger & Htrigger & Hactive & Hbound).
      apply andb_prop_elim in Hactive as [[Henabled Htype]%andb_prop_elim Hname].
      apply bool_decide_unpack in Htype, Hname. apply Is_true_eq_true in Henabled.
      split_and!; [done..|]. by exists trigger.
    + intros (Htab & Hby & Hflow & trigger & Htrigger & He & Ht & Hn & Hbound).
      split_and!; [done..|]. exists trigger.
      split_and!; first [done|by apply Is_true_eq_left|by apply bool_decide_pack].
Qed.

(** ** The Step Executor, further *)

Lemma findByCss_at css p :
  findByCss css p =
    (Returned match attempt p css 0 with Page.Present el => Some el | _ => None end,
     after [Page.QuerySelector css] p).
Proof. unfold findByCss, attempt. by rewrite Nat.add_0_r. Qed.

Lemma attempt_after css p i :
  attempt (after [Page.QuerySelector css; Page.Sleep 500] p) css i = attempt p css (S i).
Proof.
  unfold attempt, after. cbn. rewrite length_app. cbn. f_equal. lia.
Qed.

Lemma retries_S css k :
  retries css (S k) = [Page.QuerySelector css; Page.Sleep 500] ++ retries css k.
Proof. done. Qed.

Section Retries.
Context (selector : SelectorInfo.t) (css : string).
Context (Hcss : SelectorInfo.css selector = Some css) (Hne : css ≠ EmptyString).

Lemma resolveElement_css p : resolveElement (Some selector) p = findByCss css p.
Proof using All. unfold resolveElement. rewrite Hcss. by rewrite decide_False. Qed.

Lemma waitForElement_loop_missing remaining p :
  1 < remaining → (∀ x, attempt p css 0 ≠ Page.Present x) →
  waitForElement_loop (Some selector) 500 remaining p =
    waitForElement_loop (Some selector) 500 (pred remaining)
      (after [Page.QuerySelector css; Page.Sleep 500] p).
Proof using All.
  intros Hremaining Hmissing. destruct remaining as [|remaining]; [lia|].
  cbn [waitForElement_loop pred]. run.
  rewrite resolveElement_css, findByCss_at.
  destruct (attempt p css 0) as [| |x] eqn:Hattempt; [| |by destruct (Hmissing x)].
  all: rewrite bool_decide_eq_true_2 by lia; unfold waitMs, emit; run;
    change (timerDelay 500) with 500%Z;
    change (Page.record (Page.Sleep 500) (after [Page.QuerySelector css] p))
      with (after [Page.Sleep 500] (after [Page.QuerySelector css] p));
    by rewrite after_after.
Qed.

Lemma waitForElement_loop_found el k : ∀ remaining p,
  k < remaining → appearsAt p css k el →
  waitForElement_loop (Some selector) 500 remaining p =
    (Returned (Some el), after (retries css k) p).
Proof using All.
  induction k as [|k IH]; intros remaining p Hk [Hmissing Hfound].
  - destruct remaining as [|remaining]; [lia|].
    cbn [waitForElement_loop]. run.
    rewrite resolveElement_css, findByCss_at, Hfound. done.
  - rewrite waitForElement_loop_missing; [|lia|].
    + rewrite (IH (pred remaining)); [by rewrite after_after|lia|].
      split.
      * intros i x Hi. rewrite attempt_after. apply Hmissing. lia.
      * by rewrite attempt_after.
    + intros x. apply Hmissing. lia.
Qed.

Lemma waitForElement_loop_gives_up : ∀ remaining p,
  (∀ i x, i < remaining → attempt p css i ≠ Page.Present x) →
  waitForElement_loop (Some selector) 500 remaining p =
    (Returned None, after (failedAttempts css 500 remaining) p).
Proof using All.
  induction remaining as [|remaining IH]; intros p Hmissing.
  - unfold after. cbn. rewrite app_nil_r. by destruct p.
  - destruct remaining as [|remaining].
    + cbn [waitForElement_loop failedAttempts]. run.
      rewrite resolveElement_css, findByCss_at.
      destruct (attempt p css 0) as [| |x] eqn:Hattempt;
        [done|done|by destruct (Hmissing 0 x); [lia|]].
    + rewrite waitForElement_loop_missing; [|lia|intros x; apply Hmissing; lia].
      cbn [pred]. rewrite IH.
      * by rewrite after_after.
      * intros i x Hi. rewrite attempt_after. apply Hmissing. lia.
Qed.
End Retries.

Lemma after_nil p : after [] p = p.
Proof. unfold after. rewrite app_nil_r. by destruct p. Qed.

Lemma record_after e p : Page.record e p = after [e] p.
Proof. done. Qed.

(** A call made after [added]: the page decides at that moment. *)
Lemma call_after e added p :
  call e (after added p) =
    match Page.callThrows p (length (Page.events p) + length added) e with
    | Some message => (Thrown message, after added p)
    | None => (Returned tt, after (added ++ [e]) p)
    end.
Proof.
  unfold call. cbn. rewrite length_app.
  destruct (Page.callThrows p _ e); [done|]. by rewrite record_after, after_after.
Qed.

(** X14. The executor looks for its element up to five times, 500ms
    apart, and stops at the first attempt that finds it. When the CSS
    selector of the locator finds the element at the attempt number
    [k] (from 0, [k < 5]), the events are [k] vain queries, each
    followed by a sleep, and the query that succeeds. A click then
    calls [click] on that element: the step succeeds when the call
    does, and when the call throws, as on an element that has no
    [click], the step fails with what it threw and nothing was
    clicked. When the five attempts all fail the search gives up,
    whatever the selector would find later, after five queries and
    four sleeps. *)
Theorem waitForElement_attempts selector css p :
  SelectorInfo.css selector = Some css → css ≠ EmptyString →
  (∀ k el, k < 5 → appearsAt p css k el →
     waitForElement (Some selector) p = (Returned (Some el), after (retries css k) p) ∧
     length (filter isSleep (retries css k)) = k ∧
     ∀ step, Step.type step = Click → Step.selector step = Some selector →
             Step.waitMs step = None →
       runStep step p =
         match Page.callThrows p (length (Page.events p) + length (retries css k))
                 (Page.ClickOn el) with
         | None => (Returned tt, after (retries css k ++ [Page.ClickOn el]) p)
         | Some message => (Thrown message, after (retries css k) p)
         end) ∧
  ((∀ i x, i < 5 → attempt p css i ≠ Page.Present x) →
   waitForElement (Some selector) p = (Returned None, after (fiveAttempts css) p)).
Proof.
  intros Hcss Hne. split.
  - intros k el Hk Happears.
    assert (waitForElement (Some selector) p =
            (Returned (Some el), after (retries css k) p)) as Hwait.
    { unfold waitForElement. by apply waitForElement_loop_found. }
    split_and!; [done| |].
    + clear. induction k as [|k IH]; [done|].
      rewrite retries_S. cbn [app].
      rewrite filter_cons_False by (by intros []).
      rewrite filter_cons_True by exact I.
      cbn [length]. by rewrite IH.
    + intros step Htype Hsel Hwaitms.
      rewrite runStep_preDelay. unfold preDelay. rewrite Hwaitms, after_nil.
      unfold runStep_switch. rewrite Htype, Hsel. run. rewrite Hwait.
      rewrite call_after. by destruct (Page.callThrows p _ _).
  - intros Hmissing. unfold waitForElement.
    by apply (waitForElement_loop_gives_up selector css Hcss Hne 5).
Qed.

Lemma waitForElement_attempts_witness :
  let selector := SelectorInfo.mk (Some "#late") None None None in
  let el := {| Page.handle := 3; Page.isForm := false |} in
  let svg := {| Page.handle := 9; Page.isForm := false |} in
  let click := Step.mk "s1" None Click (Some selector) None None None None in
  let p := Page.mk (λ n _, if decide (n = 4) then Page.Present el else Page.Missing)
             (λ _ _, Page.Missing) (λ _ _, None) (λ _ _, None) [] in
  let q := Page.mk (λ _ _, Page.Present svg) (λ _ _, Page.Missing) (λ _ _, None)
             (λ _ _, Some "el.click is not a function") [] in
  waitForElement (Some selector) p = (Returned (Some el), after (retries "#late" 2) p) ∧
  runStep click p = (Returned tt, after (retries "#late" 2 ++ [Page.ClickOn el]) p) ∧
  runStep click q = (Thrown "el.click is not a function", after (retries "#late" 0) q).
Proof.
  intros selector el svg click p q.
  destruct (waitForElement_attempts selector "#late" p) as [Hfound _];
    [reflexivity|done|].
  destruct (waitForElement_attempts selector "#late" q) as [Hrefused _];
    [reflexivity|done|].
  destruct (Hfound 2 el) as (Hwait & _ & Hclick); [lia| |].
  { split; [|reflexivity]. intros i x Hi. unfold attempt, p. cbn.
    destruct i as [|[|i]]; [done|done|lia]. }
  destruct (Hrefused 0 svg) as (_ & _ & Hthrows); [lia| |].
  { split; [|reflexivity]. intros i x Hi. lia. }
  split_and!; [exact Hwait| |].
  - by rewrite (Hclick click).
  - by rewrite (Hthrows click).
Defined.

(** Whatever the page answers, [waitForElement] returns, and has only
    looked and waited. *)
Lemma waitForElement_lookups selector p :
  ∃ found lookups,
    waitForElement selector p = (Returned found, after lookups p) ∧
    Forall isLookup lookups.
Proof.
  unfold waitForElement. destruct selector as [selector|].
  2: { exists None, []. by rewrite after_nil. }
  generalize 5 as remaining. intros remaining. revert p.
  induction remaining as [|remaining IH]; intros p; cbn [waitForElement_loop].
  { exists None, []. by rewrite after_nil. }
  assert (∃ found lookups,
            resolveElement (Some selector) p = (Returned found, after lookups p) ∧
            Forall isLookup lookups) as (found & lookups & Hresolve & Hlookups).
  { unfold resolveElement, findByXPath, findByCss.
    destruct (SelectorInfo.css selector) as [css|].
    - case_decide.
      + destruct (SelectorInfo.xpath selector) as [xpath|].
        * case_decide; [exists None, []; by rewrite after_nil|].
          eexists _, [Page.Evaluate xpath]. split; [reflexivity|].
          by apply Forall_singleton.
        * exists None, []. by rewrite after_nil.
      + eexists _, [Page.QuerySelector css]. split; [reflexivity|].
        by apply Forall_singleton.
    - destruct (SelectorInfo.xpath selector) as [xpath|].
      + case_decide; [exists None, []; by rewrite after_nil|].
        eexists _, [Page.Evaluate xpath]. split; [reflexivity|].
        by apply Forall_singleton.
      + exists None, []. by rewrite after_nil. }
  run. rewrite Hresolve. destruct found as [el|].
  { by exists (Some el), lookups. }
  case_bool_decide; unfold waitMs, emit; run; change (timerDelay 500) with 500%Z.
  - rewrite record_after, after_after.
    destruct (IH (after (lookups ++ [Page.Sleep 500]) p)) as (found & more & -> & Hmore).
    exists found, ((lookups ++ [Page.Sleep 500]) ++ more).
    rewrite after_after. split; [done|].
    apply Forall_app. split; [|done]. apply Forall_app. split; [done|].
    by apply Forall_singleton.
  - destruct (IH (after lookups p)) as (found & more & -> & Hmore).
    exists found, (lookups ++ more). rewrite after_after. split; [done|].
    by apply Forall_app.
Qed.

(** X15. A step touches the page only once its element is found. The
    events of a step are lookups and sleeps, followed by what the step
    does to the element found. A click, an input or a submit that
    succeeds has done all of its action. One that fails has either not
    found its element, and then it has done nothing and its error is
    the not-found message, or it has met a call on the element that
    throws, and then it has made the calls before that one and no
    other, and its error is what the call threw. A wait does nothing,
    and a script has its one run, whether it throws or not. *)
Theorem step_acts_after_lookup step p :
  ∃ lookups acts,
    (runStep step p).2 = after (lookups ++ acts) p ∧
    Forall isLookup lookups ∧
    match (runStep step p).1 with
    | Returned _ =>
        match Step.type step with
        | Click | Input | Submit => ∃ el, acts = actsOn step el
        | Wait => acts = []
        | CustomJs => ∃ script, acts = [Page.RunScript script]
        | Unsupported _ => False
        end
    | Thrown message =>
        match Step.type step with
        | Click | Input | Submit =>
            (acts = [] ∧ message = notFound step) ∨
            (∃ el refused rest,
               actsOn step el = acts ++ refused :: rest ∧
               Page.callThrows p (length (Page.events p) + length (lookups ++ acts))
                 refused = Some message)
        | CustomJs => acts = [] ∨ ∃ script, acts = [Page.RunScript script]
        | _ => acts = []
        end
    end.
Proof.
  rewrite runStep_preDelay.
  assert (Forall isLookup (preDelay step)) as Hpre.
  { unfold preDelay. destruct (Step.waitMs step) as [ms|]; [|done].
    case_bool_decide; [by apply Forall_singleton|done]. }
  destruct (waitForElement_lookups (Step.selector step) (after (preDelay step) p))
    as (found & lookups & Hwait & Hlookups).
  rewrite after_after in Hwait.
  set (looked := preDelay step ++ lookups) in *.
  assert (Forall isLookup looked) as Hall by by apply Forall_app.
  assert (after looked p = after (looked ++ []) p) as Hnone by by rewrite app_nil_r.
  unfold runStep_switch, actsOn, notFound.
  destruct (Step.type step) eqn:Htype.
  - (* click *)
    run. rewrite Hwait. destruct found as [el|].
    + rewrite call_after.
      destruct (Page.callThrows p _ (Page.ClickOn el)) as [message|] eqn:Hcall.
      * exists looked, []. split_and!; [done|done|]. right.
        exists el, (Page.ClickOn el), []. by rewrite app_nil_r.
      * exists looked, [Page.ClickOn el]. split_and!; [done|done|by exists el].
    + exists looked, []. split_and!; [done|done|by left].
  - (* input *)
    run. rewrite Hwait. destruct found as [el|].
    2: { exists looked, []. split_and!; [done|done|by left]. }
    set (value := default EmptyString (Step.value step)).
    rewrite call_after.
    destruct (Page.callThrows p _ (Page.Focus el)) as [message|] eqn:Hfocus.
    { exists looked, []. split_and!; [done|done|]. right.
      exists el, (Page.Focus el),
        [Page.SetValue el value; Page.Dispatch el "input"; Page.Dispatch el "change"].
      by rewrite app_nil_r. }
    rewrite call_after.
    destruct (Page.callThrows p _ (Page.SetValue el value)) as [message|] eqn:Hvalue.
    { exists looked, [Page.Focus el]. split_and!; [done|done|]. right.
      by exists el, (Page.SetValue el value),
        [Page.Dispatch el "input"; Page.Dispatch el "change"]. }
    unfold emit. run. rewrite !record_after, !after_after, <-!app_assoc.
    exists looked, [Page.Focus el; Page.SetValue el value;
                    Page.Dispatch el "input"; Page.Dispatch el "change"].
    split_and!; [done|done|by exists el].
  - (* wait *)
    unfold waitMs, emit. run.
    exists (preDelay step ++ [Page.Sleep (timerDelay (default 500%Z (Step.waitMs step)))]), [].
    rewrite record_after, app_nil_r, after_after.
    split_and!; [done| |done]. apply Forall_app. split; [done|]. by apply Forall_singleton.
  - (* submit *)
    run. rewrite Hwait. destruct found as [el|]; run.
    + eexists looked,
        [if Page.isForm el then Page.RequestSubmit el else Page.Dispatch el "submit"].
      destruct (Page.isForm el) eqn:Hform; unfold emit; run;
        rewrite record_after, after_after;
        (split_and!; [done|done|exists el; by rewrite Hform]).
    + exists looked, []. split_and!; [done|done|by left].
  - (* custom-js *)
    destruct (Step.meta step ≫= _) as [script|].
    2: { exists (preDelay step), []. rewrite app_nil_r. cbn. split_and!; [done..|by left]. }
    case_decide.
    { exists (preDelay step), []. rewrite app_nil_r. cbn. split_and!; [done..|by left]. }
    exists (preDelay step), [Page.RunScript script].
    rewrite <-after_after, <-record_after.
    destruct (Page.scriptThrows _ _ script); cbn; split_and!; eauto.
  - (* any other type *)
    exists (preDelay step), []. rewrite app_nil_r. cbn. by split_and!.
Qed.

Lemma resolveElement_nothing selector p :
  falsy (SelectorInfo.css selector) → falsy (SelectorInfo.xpath selector) →
  resolveElement (Some selector) p = (Returned None, p).
Proof.
  unfold resolveElement, findByXPath. by intros [-> | ->] [-> | ->].
Qed.

Lemma waitForElement_loop_nothing selector : ∀ remaining p,
  falsy (SelectorInfo.css selector) → falsy (SelectorInfo.xpath selector) →
  waitForElement_loop (Some selector) 500 remaining p =
    (Returned None, after (replicate (pred remaining) (Page.Sleep 500)) p).
Proof.
  intros remaining p Hcss Hxpath. revert p.
  induction remaining as [|remaining IH]; intros p; cbn [waitForElement_loop].
  { by rewrite after_nil. }
  run. rewrite resolveElement_nothing by done.
  destruct remaining as [|remaining].
  { cbn. by rewrite after_nil. }
  rewrite bool_decide_eq_true_2 by lia. unfold waitMs, emit. run.
  change (timerDelay 500) with 500%Z.
  rewrite IH, record_after, after_after. done.
Qed.

(** X16. A step that cannot name its element. A click, an input or a
    submit without a locator fails at once, after its pre-delay alone,
    with "unknown" for the selector in its error. With a locator that
    has neither a CSS selector nor an XPath it fails as well, without
    a single query of the page, yet only after the four sleeps of 500ms
    of the five attempts. *)
Theorem step_without_locator step p :
  needsElement step = true →
  (Step.selector step = None →
   runStep step p = (Thrown (notFound step), after (preDelay step) p)) ∧
  (∀ selector,
     Step.selector step = Some selector →
     falsy (SelectorInfo.css selector) → falsy (SelectorInfo.xpath selector) →
     runStep step p =
       (Thrown (notFound step),
        after (preDelay step ++ replicate 4 (Page.Sleep 500)) p)) ∧
  (Step.selector step = None ∨
   (∃ selector, Step.selector step = Some selector ∧
                falsy (SelectorInfo.css selector) ∧ falsy (SelectorInfo.xpath selector)) →
   selectorStr step = "unknown").
Proof.
  intros Hneeds. rewrite runStep_preDelay. split_and!.
  - intros Hsel. unfold runStep_switch, notFound, needsElement in *. rewrite Hsel.
    destruct (Step.type step); try done.
  - intros selector Hsel Hcss Hxpath.
    assert (waitForElement (Some selector) (after (preDelay step) p) =
            (Returned None, after (preDelay step ++ replicate 4 (Page.Sleep 500)) p))
      as Hwait.
    { unfold waitForElement. rewrite waitForElement_loop_nothing by done.
      by rewrite after_after. }
    unfold runStep_switch, notFound, needsElement in *. rewrite Hsel.
    destruct (Step.type step); try done; run; by rewrite Hwait.
  - unfold selectorStr. intros [->|(selector & -> & Hcss & Hxpath)]; [done|].
    cbn. by destruct Hcss as [-> | ->], Hxpath as [-> | ->].
Qed.

Lemma step_without_locator_witness :
  let step := Step.mk "s1" None Click None None (Some 250%Z) None None in
  runStep step xpathOnlyPage =
    (Thrown "Element not found for click. Selector: unknown",
     after [Page.Sleep 250] xpathOnlyPage).
Proof.
  intros step.
  destruct (step_without_locator step xpathOnlyPage) as (Hnone & _); [reflexivity|].
  by apply Hnone.
Defined.

(** ** Locators, further *)

Lemma elements_child (e c x : Dom.Element) :
  c ∈ Dom.children e → x ∈ Dom.elements c → x ∈ Dom.elements e.
Proof.
  destruct e as [tag attrs text children]. cbn [Dom.children Dom.elements].
  intros Hc Hx. apply list_elem_of_further.
  induction children as [|c0 children IH]; [by apply elem_of_nil in Hc|].
  apply elem_of_app. apply elem_of_cons in Hc as [->|Hc]; [by left|right; by apply IH].
Qed.

Lemma elements_self (e : Dom.Element) : e ∈ Dom.elements e.
Proof. destruct e. apply list_elem_of_here. Qed.

(** An element of the document, named by a reference, is among
    [elements], and so is all that is below it. *)
Lemma node_elements document : ∀ r e x,
  Dom.node document r = Some e → x ∈ Dom.elements e → x ∈ Dom.elements document.
Proof.
  induction r as [|i p IH]; intros e x Hnode Hx; cbn in Hnode.
  - by injection Hnode as ->.
  - destruct (Dom.node document p) as [parent|] eqn:Hparent; [|done]. cbn in Hnode.
    apply (IH parent); [done|].
    apply (elements_child parent e); [|done]. by eapply list_elem_of_lookup_2.
Qed.

(** X17. An id that is unique in the document is the locator, before
    any test attribute. When the element has a non-empty id that no
    other element of the document has, the primary selector is [#]
    followed by the escaped id, whatever [data-testid] it carries, and
    the element is the only one the id names; when the id is shared,
    it is not used. *)
Theorem buildSelectorInfo_unique_id document el e id :
  Dom.node document el = Some e →
  Dom.getAttribute "id" e = Some id → id ≠ EmptyString →
  (length (Dom.querySelectorAll_id document id) = 1 →
   SelectorInfo.css <$> buildSelectorInfo document el =
     Some (Some ("#" +:+ CSS_escape id)) ∧
   Dom.querySelectorAll_id document id = [e]) ∧
  (length (Dom.querySelectorAll_id document id) ≠ 1 →
   hasUniqueId document e = None ∧
   SelectorInfo.css <$> buildSelectorInfo document el =
     Some (Some (default (fallbackCss document el) (dataTestId e)))).
Proof.
  intros Hnode Hid Hne. split.
  - intros Hone. split.
    + unfold buildSelectorInfo. rewrite Hnode. cbn. unfold hasUniqueId. rewrite Hid.
      by rewrite bool_decide_eq_true_2.
    + assert (e ∈ Dom.querySelectorAll_id document id) as Hin.
      { unfold Dom.querySelectorAll_id. apply list_elem_of_filter. split; [done|].
        apply (node_elements document el e); [done|apply elements_self]. }
      destruct (Dom.querySelectorAll_id document id) as [|x [|y rest]]; try done.
      by apply list_elem_of_singleton in Hin as ->.
  - intros Hshared.
    assert (hasUniqueId document e = None) as Hnone.
    { unfold hasUniqueId. rewrite Hid. rewrite bool_decide_eq_false_2; [done|].
      by intros [_ ?]. }
    split; [done|]. unfold buildSelectorInfo. rewrite Hnode. cbn. rewrite Hnone.
    by destruct (dataTestId e).
Qed.

Lemma buildSelectorInfo_unique_id_witness :
  let button := Dom.El "BUTTON" [("id", "submit-btn"); ("data-testid", "send")] "Send" [] in
  let document :=
    Dom.El "HTML" [] "Send"
      [Dom.El "HEAD" [] EmptyString []; Dom.El "BODY" [] "Send" [button]] in
  SelectorInfo.css <$> buildSelectorInfo document [0; 1] = Some (Some "#submit-btn") ∧
  Dom.querySelectorAll_id document "submit-btn" = [button].
Proof.
  intros button document.
  destruct (buildSelectorInfo_unique_id document [0; 1] button "submit-btn")
    as [Hunique _]; [reflexivity|reflexivity|done|].
  apply Hunique. reflexivity.
Defined.

(** ** XPaths tell elements apart *)

Section Separator.
Context (c : ascii).

Lemma noChar_app s t :
  allChars (λ x, bool_decide (x ≠ c)) (s +:+ t) =
  allChars (λ x, bool_decide (x ≠ c)) s && allChars (λ x, bool_decide (x ≠ c)) t.
Proof. induction s as [|a s IH]; simpl; [done|]. by rewrite IH, andb_assoc. Qed.

Lemma noChar_sep s t : ¬ allChars (λ x, bool_decide (x ≠ c)) (s +:+ String c t).
Proof.
  rewrite noChar_app. cbn. rewrite bool_decide_eq_false_2 by (by intros ?).
  cbn. rewrite andb_false_r. by intros [].
Qed.

Lemma app_sep_inj s1 : ∀ s2 t1 t2,
  allChars (λ x, bool_decide (x ≠ c)) s1 → allChars (λ x, bool_decide (x ≠ c)) s2 →
  s1 +:+ String c t1 = s2 +:+ String c t2 → s1 = s2 ∧ t1 = t2.
Proof.
  induction s1 as [|a s1 IH]; intros [|b s2] t1 t2 H1 H2 Heq; cbn in *.
  - by injection Heq as ->.
  - injection Heq as <- _. apply andb_prop_elim in H2 as [Hb _].
    by apply bool_decide_unpack in Hb.
  - injection Heq as -> _. apply andb_prop_elim in H1 as [Ha _].
    by apply bool_decide_unpack in Ha.
  - injection Heq as -> Heq.
    apply andb_prop_elim in H1 as [_ H1]. apply andb_prop_elim in H2 as [_ H2].
    destruct (IH _ _ _ H1 H2 Heq) as [-> ->]. done.
Qed.

(** Joining with the separator loses nothing when the pieces are
    free of it and not empty. *)
Lemma concat_sep_inj l1 : ∀ l2,
  Forall (λ s, allChars (λ x, bool_decide (x ≠ c)) s ∧ s ≠ EmptyString) l1 →
  Forall (λ s, allChars (λ x, bool_decide (x ≠ c)) s ∧ s ≠ EmptyString) l2 →
  String.concat (String c EmptyString) l1 = String.concat (String c EmptyString) l2 →
  l1 = l2.
Proof.
  induction l1 as [|x l1 IH]; intros [|y l2] H1 H2 Heq.
  - done.
  - apply Forall_cons in H2 as [[Hy Hne] H2]. destruct l2 as [|y' l2]; cbn in Heq.
    + by subst.
    + destruct y; [done|discriminate].
  - apply Forall_cons in H1 as [[Hx Hne] H1]. destruct l1 as [|x' l1]; cbn in Heq.
    + by subst.
    + destruct x; [done|discriminate].
  - apply Forall_cons in H1 as [[Hx Hxne] H1].
    apply Forall_cons in H2 as [[Hy Hyne] H2].
    destruct l1 as [|x' l1], l2 as [|y' l2]; cbn [String.concat] in Heq.
    + by subst.
    + subst x. by destruct (noChar_sep _ _ Hx).
    + subst y. by destruct (noChar_sep _ _ Hy).
    + change (x +:+ String c (String.concat (String c "") (x' :: l1)) =
              y +:+ String c (String.concat (String c "") (y' :: l2))) in Heq.
      destruct (app_sep_inj _ _ _ _ Hx Hy Heq) as [-> Hrest].
      f_equal. by apply IH.
Qed.
End Separator.

Lemma allChars_impl (P Q : ascii → bool) s :
  (∀ c, P c → Q c) → allChars P s → allChars Q s.
Proof.
  intros HPQ. induction s as [|c s IH]; [done|]. simpl.
  intros [Hc Hs]%andb_prop_elim. apply andb_prop_intro. auto.
Qed.

(** The decimal numbers of stdpp are made of digits. *)
Lemma pretty_N_go_digits x : ∀ s,
  allChars (λ c, isDigit (nat_of_ascii c)) s →
  allChars (λ c, isDigit (nat_of_ascii c)) (pretty_N_go x s).
Proof.
  induction (N.lt_wf_0 x) as [x _ IH]. intros s Hs.
  destruct (decide (x = 0%N)) as [->|Hx]; [by rewrite pretty_N_go_0|].
  rewrite pretty_N_go_step by lia. apply IH; [apply N.div_lt; lia|].
  simpl. apply andb_prop_intro. split; [|done].
  unfold pretty_N_char. by repeat case_match.
Qed.

Lemma pretty_nat_digits (n : nat) : allChars (λ c, isDigit (nat_of_ascii c)) (pretty n).
Proof.
  unfold pretty, pretty_nat, pretty, pretty_N. case_decide; [done|].
  by apply pretty_N_go_digits.
Qed.

Lemma nat_of_lower c :
  nat_of_ascii (lower c) =
    if bool_decide (65 ≤ nat_of_ascii c ≤ 90) then nat_of_ascii c + 32 else nat_of_ascii c.
Proof.
  unfold lower. case_bool_decide; [|done]. apply nat_ascii_embedding. lia.
Qed.

Lemma lower_tagChar c :
  isTagChar c →
  let n := nat_of_ascii (lower c) in 97 ≤ n ≤ 122 ∨ 48 ≤ n ≤ 57 ∨ n = 45.
Proof.
  unfold isTagChar. intros Hc%bool_decide_unpack. cbn zeta. rewrite nat_of_lower.
  case_bool_decide; lia.
Qed.

Lemma lower_tagChar_inj c1 c2 : isTagChar c1 → isTagChar c2 → lower c1 = lower c2 → c1 = c2.
Proof.
  unfold isTagChar. intros H1%bool_decide_unpack H2%bool_decide_unpack Heq.
  apply (f_equal nat_of_ascii) in Heq. rewrite !nat_of_lower in Heq.
  rewrite <-(ascii_nat_embedding c1), <-(ascii_nat_embedding c2). f_equal.
  repeat case_bool_decide; lia.
Qed.

Lemma toLowerCase_inj t1 : ∀ t2,
  allChars isTagChar t1 → allChars isTagChar t2 →
  toLowerCase t1 = toLowerCase t2 → t1 = t2.
Proof.
  induction t1 as [|c1 t1 IH]; intros [|c2 t2]; simpl; try done.
  intros [Hc1 H1]%andb_prop_elim [Hc2 H2]%andb_prop_elim [= Hc Ht].
  f_equal; [by apply lower_tagChar_inj|by apply IH].
Qed.

(** A lower-cased tag name has none of the characters that structure
    an XPath. *)
Lemma toLowerCase_noChar (c : ascii) t :
  nat_of_ascii c = 47 ∨ nat_of_ascii c = 91 ∨ nat_of_ascii c = 93 →
  allChars isTagChar t → allChars (λ x, bool_decide (x ≠ c)) (toLowerCase t).
Proof.
  intros Hc. induction t as [|a t IH]; [done|]. simpl.
  intros [Ha Ht]%andb_prop_elim. apply andb_prop_intro. split; [|by apply IH].
  apply bool_decide_pack. intros Heq. apply lower_tagChar in Ha.
  cbn zeta in Ha. rewrite Heq in Ha. lia.
Qed.

Lemma digits_noChar (c : ascii) s :
  nat_of_ascii c = 47 ∨ nat_of_ascii c = 91 ∨ nat_of_ascii c = 93 →
  allChars (λ x, isDigit (nat_of_ascii x)) s → allChars (λ x, bool_decide (x ≠ c)) s.
Proof.
  intros Hc. apply allChars_impl. intros x Hx. apply bool_decide_pack. intros ->.
  unfold isDigit in Hx. apply bool_decide_unpack in Hx. lia.
Qed.

Lemma segment_shape t (n : nat) :
  allChars isTagChar t →
  allChars (λ x, bool_decide (x ≠ "/"%char))
    (toLowerCase t +:+ "[" +:+ pretty n +:+ "]") ∧
  toLowerCase t +:+ "[" +:+ pretty n +:+ "]" ≠ EmptyString.
Proof.
  intros Ht. split.
  - rewrite noChar_app. apply andb_prop_intro. split.
    + apply toLowerCase_noChar; [by left|done].
    + change ("[" +:+ pretty n +:+ "]") with (String "[" (pretty n +:+ "]")).
      simpl. rewrite noChar_app. apply andb_prop_intro. split; [|done].
      apply digits_noChar; [by left|apply pretty_nat_digits].
  - by destruct (toLowerCase t).
Qed.

Lemma segment_inj t1 (n1 : nat) t2 (n2 : nat) :
  allChars isTagChar t1 → allChars isTagChar t2 →
  toLowerCase t1 +:+ "[" +:+ pretty n1 +:+ "]" =
  toLowerCase t2 +:+ "[" +:+ pretty n2 +:+ "]" →
  t1 = t2 ∧ n1 = n2.
Proof.
  intros H1 H2 Heq.
  change (toLowerCase t1 +:+ String "[" (pretty n1 +:+ "]") =
          toLowerCase t2 +:+ String "[" (pretty n2 +:+ "]")) in Heq.
  apply app_sep_inj in Heq as [Htag Hindex];
    [|apply toLowerCase_noChar; [right; by left|done]..].
  split; [by apply toLowerCase_inj|].
  change (pretty n1 +:+ String "]" EmptyString = pretty n2 +:+ String "]" EmptyString)
    in Hindex.
  apply app_sep_inj in Hindex as [Hpretty _];
    [|apply digits_noChar; [right; by right|apply pretty_nat_digits]..].
  by apply (inj pretty).
Qed.

Lemma node_parent document i p e :
  Dom.node document (i :: p) = Some e →
  ∃ parent, Dom.node document p = Some parent ∧ Dom.children parent !! i = Some e.
Proof.
  cbn. destruct (Dom.node document p) as [parent|]; [|done]. by exists parent.
Qed.

Lemma buildXPath_loop_segments document : ∀ r segments,
  is_Some (Dom.node document r) →
  buildXPath_loop document r segments = xpathSegments document r ++ segments.
Proof.
  induction r as [|i p IH]; intros segments [e He].
  - cbn [buildXPath_loop xpathSegments]. unfold xpathSegment. by rewrite He.
  - cbn [buildXPath_loop xpathSegments]. unfold xpathSegment at 1. rewrite He.
    destruct (node_parent _ _ _ _ He) as (parent & Hparent & _).
    rewrite IH by by exists parent. by rewrite <-app_assoc.
Qed.

Lemma xpathSegments_shape document : ∀ r,
  htmlDocument document → is_Some (Dom.node document r) →
  Forall (λ s, allChars (λ x, bool_decide (x ≠ "/"%char)) s ∧ s ≠ EmptyString)
    (xpathSegments document r).
Proof.
  intros r Hdoc.
  assert (∀ r, is_Some (Dom.node document r) →
               allChars (λ x, bool_decide (x ≠ "/"%char)) (xpathSegment document r) ∧
               xpathSegment document r ≠ EmptyString) as Hsegment.
  { intros r0 [e He]. unfold xpathSegment. rewrite He. apply segment_shape.
    unfold htmlDocument in Hdoc. rewrite Forall_forall in Hdoc. apply Hdoc.
    apply (node_elements document r0 e); [done|apply elements_self]. }
  induction r as [|i p IH]; intros Hnode; cbn [xpathSegments].
  - apply Forall_singleton. by apply Hsegment.
  - destruct Hnode as [e He].
    destruct (node_parent _ _ _ _ He) as (parent & Hparent & _).
    apply Forall_app. split; [apply IH; by exists parent|].
    apply Forall_singleton. apply Hsegment. by exists e.
Qed.

(** Two children with the same tag and the same number of siblings of
    that tag before them are the same child. *)
Lemma same_position {A} (P : A → Prop) `{!∀ x, Decision (P x)} (l : list A) : ∀ i j x y,
  l !! i = Some x → l !! j = Some y → P x → P y →
  length (filter P (take i l)) = length (filter P (take j l)) → i = j.
Proof.
  induction l as [|a l IH]; intros [|i] [|j] x y Hi Hj Hx Hy Hcount; try done.
  - cbn in Hi. injection Hi as ->. cbn [take] in Hcount.
    rewrite filter_cons_True in Hcount by done. done.
  - cbn in Hj. injection Hj as ->. cbn [take] in Hcount.
    rewrite filter_cons_True in Hcount by done. done.
  - f_equal. apply (IH i j x y); [done..|].
    cbn [take] in Hcount. destruct (decide (P a)).
    + rewrite !filter_cons_True in Hcount by done. cbn in Hcount. lia.
    + by rewrite !filter_cons_False in Hcount by done.
Qed.

Lemma xpathSegments_inj document : ∀ r1 r2,
  htmlDocument document →
  is_Some (Dom.node document r1) → is_Some (Dom.node document r2) →
  xpathSegments document r1 = xpathSegments document r2 → r1 = r2.
Proof.
  intros r1 r2 Hdoc. revert r2.
  assert (∀ r, xpathSegments document r ≠ []) as Hne.
  { intros [|i p]; cbn; [done|]. by destruct (xpathSegments document p). }
  assert (∀ r e, Dom.node document r = Some e → allChars isTagChar (Dom.tagName e))
    as Htag.
  { intros r e He. unfold htmlDocument in Hdoc. rewrite Forall_forall in Hdoc.
    apply Hdoc. apply (node_elements document r e); [done|apply elements_self]. }
  induction r1 as [|i1 p1 IH]; intros [|i2 p2] H1 H2 Heq; cbn [xpathSegments] in Heq.
  - done.
  - exfalso. apply (Hne p2).
    change [xpathSegment document []] with ([] ++ [xpathSegment document []]) in Heq.
    by apply app_inj_tail in Heq as [<- _].
  - exfalso. apply (Hne p1).
    change [xpathSegment document []] with ([] ++ [xpathSegment document []]) in Heq.
    by apply app_inj_tail in Heq as [-> _].
  - apply app_inj_tail in Heq as [Hparents Hsegment].
    destruct H1 as [e1 He1], H2 as [e2 He2].
    destruct (node_parent _ _ _ _ He1) as (parent1 & Hparent1 & Hchild1).
    destruct (node_parent _ _ _ _ He2) as (parent2 & Hparent2 & Hchild2).
    assert (p1 = p2) as <- by (apply IH; by eauto).
    assert (parent2 = parent1) as -> by congruence.
    unfold xpathSegment in Hsegment. rewrite He1, He2 in Hsegment.
    apply segment_inj in Hsegment as [Htags Hindex]; [|by eauto..].
    unfold indexAmongSameTag, siblings in Hindex. cbn in Hindex.
    rewrite Hparent1 in Hindex. cbn in Hindex. rewrite <-Htags in Hindex.
    f_equal.
    apply (same_position (λ child, Dom.tagName child = Dom.tagName e1)
             (Dom.children parent1) i1 i2 e1 e2); [done|done|done|done|lia].
Qed.

(** X18. The XPath of an element is its own. In a document whose tag
    names are those of HTML, two elements with the same XPath are the
    same element: the segments [tag[k]] from the root down, [k]
    counting the siblings of the same tag, lead to one element only,
    and ["/html/body"] is the XPath of the body alone. *)
Theorem buildXPath_inj document r1 r2 :
  htmlDocument document →
  is_Some (Dom.node document r1) → is_Some (Dom.node document r2) →
  buildXPath document r1 = buildXPath document r2 → r1 = r2.
Proof.
  intros Hdoc H1 H2.
  assert (∀ r, is_Some (Dom.node document r) →
               "/html/body" ≠ "/" +:+ String.concat "/" (xpathSegments document r))
    as Hbody.
  { intros r Hr Heq.
    pose proof (xpathSegments_shape document r Hdoc Hr) as Hshape.
    injection Heq as Heq.
    change "html/body" with (String.concat "/" ["html"; "body"]) in Heq.
    apply (concat_sep_inj "/"%char) in Heq; [|by repeat constructor|done].
    destruct r as [|i [|j p]]; cbn [xpathSegments app] in Heq; [done| |].
    - injection Heq as Hroot _. revert Hroot. unfold xpathSegment. cbn.
      destruct document as [tag ? ? ?]. cbn. intros Hroot.
      assert (allChars (λ x, bool_decide (x ≠ "["%char)) "html") as Hfree by done.
      rewrite Hroot in Hfree.
      change (toLowerCase tag +:+ "[" +:+ pretty 1 +:+ "]")
        with (toLowerCase tag +:+ String "[" (pretty 1 +:+ "]")) in Hfree.
      by apply noChar_sep in Hfree.
    - apply (f_equal length) in Heq. rewrite !length_app in Heq. cbn in Heq.
      destruct (xpathSegments document p) eqn:Hp; [|cbn in Heq; lia].
      destruct p; cbn in Hp; [done|]. by destruct (xpathSegments document p). }
  unfold buildXPath. rewrite !buildXPath_loop_segments, !app_nil_r by done.
  destruct (decide (Some r1 = Dom.body document)) as [Hb1|Hb1],
           (decide (Some r2 = Dom.body document)) as [Hb2|Hb2].
  - congruence.
  - intros Heq. by destruct (Hbody r2 H2).
  - intros Heq. by destruct (Hbody r1 H1).
  - intros [= Heq]. apply (concat_sep_inj "/"%char) in Heq;
      [|by apply xpathSegments_shape..].
    by apply (xpathSegments_inj document).
Qed.

Lemma buildXPath_inj_witness :
  htmlDocument cardPage ∧
  buildXPath cardPage [0; 0; 1] = "/html[1]/body[1]/div[1]/span[1]" ∧
  buildXPath cardPage [1; 0; 1] = "/html[1]/body[1]/div[1]/p[1]" ∧
  buildXPath cardPage [0; 0; 1] ≠ buildXPath cardPage [1; 0; 1].
Proof.
  assert (htmlDocument cardPage) as Hdoc by (by repeat constructor).
  split_and!; [done|reflexivity|reflexivity|].
  intros Heq.
  by pose proof (buildXPath_inj cardPage [0; 0; 1] [1; 0; 1] Hdoc
                   (mk_is_Some _ _ eq_refl) (mk_is_Some _ _ eq_refl) Heq).
Defined.

(** ** content/recorder.ts *)

Lemma dispatchEvent_recording event r :
  Recorder.listeners r = (if Recorder.recording r then recorderListeners else []) →
  dispatchEvent event r =
    if Recorder.recording r then
      match stepOfEvent event r with
      | Some step =>
          Recorder.mk (Recorder.recording r) (Recorder.listeners r) (Recorder.document r)
            (Recorder.href r) (Recorder.tokenAt r) (S (Recorder.tokenDraws r))
            (Recorder.sent r ++ [step])
      | None => r
      end
    else r.
Proof.
  intros Hl. unfold dispatchEvent. rewrite Hl.
  destruct r as [[] ls document href tokenAt draws sent]; cbn in *; [|done].
  subst ls. unfold stepOfEvent, recorderListeners.
  destruct event as [type [target|] value]; cbn [foldl fst snd event_type];
    destruct type; repeat case_bool_decide; try done;
    unfold invoke, handleClick, handleInput, handleSubmit; cbn;
    try destruct (Dom.node document target); done.
Qed.

(** What holds of the recorder whatever has happened to the page. *)
Lemma recorder_invariant document href tokenAt inputs :
  let r := foldl contentStep (Recorder.loaded document href tokenAt) inputs in
  Recorder.listeners r = (if Recorder.recording r then recorderListeners else []) ∧
  Recorder.tokenAt r = tokenAt ∧
  Recorder.tokenDraws r = length (Recorder.sent r) ∧
  Step.id <$> Recorder.sent r =
    (λ i, "step-" +:+ tokenAt i) <$> seq 0 (length (Recorder.sent r)).
Proof.
  induction inputs as [|input inputs IH] using rev_ind; [done|].
  rewrite foldl_app. cbn [foldl].
  set (r := foldl contentStep _ inputs) in *. cbv zeta in IH.
  destruct IH as (Hl & Htok & Hdraws & Hids). clearbody r.
  destruct input as [[] |event|document' href']; cbn [contentStep onContentMessage].
  - unfold startRecording. destruct r as [[] ls ? ? ? ? ?]; cbn in *; [done|].
    by subst ls.
  - unfold stopRecording. destruct r as [[] ls ? ? ? ? ?]; cbn in *; [|done].
    by subst ls.
  - done.
  - rewrite dispatchEvent_recording by done.
    destruct (Recorder.recording r) eqn:Hrec; [|by rewrite ?Hrec].
    destruct (stepOfEvent event r) as [step|] eqn:Hstep; [|by rewrite ?Hrec].
    cbn. split_and!; [done|done|rewrite length_app; cbn; lia|].
    rewrite fmap_app, length_app, seq_app, fmap_app, Hids. cbn. f_equal.
    unfold stepOfEvent in Hstep.
    destruct (event_target event); [|done]. cbn in Hstep.
    destruct (Dom.node _ _); [|done]. cbn in Hstep.
    injection Hstep as <-. cbn. by rewrite Htok, Hdraws.
  - done.
Qed.

(** X19. The recorder records each event once, and only while it
    records. Whatever messages, events and changes of the page came
    before, the listeners of the recorder are on the document exactly
    while [recording] is set, so that an event dispatched while it is
    set sends one step, of the type of the event, with the locator of
    its target, and an event dispatched while it is not sends none; a
    second [StartRecording] changes nothing, so no event is recorded
    twice. The ids of the steps sent are the random ids drawn, in
    their order. *)
Theorem recorder_records document href tokenAt inputs event :
  let r := foldl contentStep (Recorder.loaded document href tokenAt) inputs in
  Recorder.listeners r = (if Recorder.recording r then recorderListeners else []) ∧
  Recorder.sent (dispatchEvent event r) =
    Recorder.sent r ++
    (if Recorder.recording r then option_list (stepOfEvent event r) else []) ∧
  Recorder.recording (dispatchEvent event r) = Recorder.recording r ∧
  Step.id <$> Recorder.sent r =
    (λ i, "step-" +:+ tokenAt i) <$> seq 0 (length (Recorder.sent r)) ∧
  Recorder.recording (startRecording r) = true ∧
  Recorder.sent (startRecording r) = Recorder.sent r ∧
  startRecording (startRecording r) = startRecording r ∧
  Recorder.recording (stopRecording r) = false ∧
  Recorder.sent (stopRecording r) = Recorder.sent r ∧
  (∀ e, Recorder.sent (dispatchEvent e (stopRecording r)) = Recorder.sent r).
Proof.
  intros r.
  destruct (recorder_invariant document href tokenAt inputs) as (Hl & Htok & Hdraws & Hids).
  fold r in Hl, Htok, Hdraws, Hids. clearbody r.
  assert (∀ e r, Recorder.recording r = false → Recorder.listeners r = [] →
                 dispatchEvent e r = r) as Hoff.
  { intros e r0 Hrec Hnil. unfold dispatchEvent. by rewrite Hnil. }
  split_and!; try done.
  - rewrite dispatchEvent_recording by done.
    destruct (Recorder.recording r); [|by rewrite app_nil_r].
    destruct (stepOfEvent event r); [done|by rewrite app_nil_r].
  - rewrite dispatchEvent_recording by done.
    destruct (Recorder.recording r) eqn:Hrec; [|done].
    by destruct (stepOfEvent event r).
  - unfold startRecording. destruct r as [[] ls ? ? ? ? ?]; cbn in *; by subst ls.
  - unfold startRecording. destruct r as [[] ls ? ? ? ? ?]; cbn in *; by subst ls.
  - unfold startRecording. destruct r as [[] ls ? ? ? ? ?]; cbn in *; by subst ls.
  - unfold stopRecording. destruct r as [[] ls ? ? ? ? ?]; cbn in *; by subst ls.
  - unfold stopRecording. destruct r as [[] ls ? ? ? ? ?]; cbn in *; by subst ls.
  - intros e. rewrite Hoff;
      unfold stopRecording; destruct r as [[] ls ? ? ? ? ?]; cbn in *; by subst ls.
Qed.

(** ** background/llmClient.ts *)

(** X20. The LLM client sends nothing unless it is enabled and has a
    key. A call never changes the stored settings. While the client
    is disabled, as it is when nothing was ever stored, the call fails
    with the message of the disabled client, and with that of the
    missing key while the key is absent or empty; in both cases no
    request is made. Otherwise it makes exactly one request, with the
    key as bearer token and the messages as given, to an endpoint and
    for a model that are never empty, and answers from the response. *)
Theorem callLlm_guards messages override l :
  let stored := Llm.settings l in
  let call := callLlm messages override l in
  Llm.settings call.2 = stored ∧
  (enabledFor override stored = false → call = (Thrown "LLM 機能が無効です", l)) ∧
  (stored = None → override = None → call = (Thrown "LLM 機能が無効です", l)) ∧
  (enabledFor override stored = true → apiKeyFor override stored = EmptyString →
   call = (Thrown "LLM APIキーが設定されていません", l)) ∧
  (enabledFor override stored = true → apiKeyFor override stored ≠ EmptyString →
   ∃ request,
     Llm.requests call.2 = Llm.requests l ++ [request] ∧
     fetch_authorization request = "Bearer " +:+ apiKeyFor override stored ∧
     fetch_messages request = messages ∧
     fetch_url request ≠ EmptyString ∧ fetch_model request ≠ EmptyString ∧
     (override = None → (stored ≫= LlmSettings.endpoint) = None →
      fetch_url request = DEFAULT_ENDPOINT) ∧
     call.1 = answerOf (Llm.fetchAt l (length (Llm.requests l)) request)).
Proof.
  intros stored call. subst stored call.
  assert (∀ o fallback, fallback ≠ EmptyString → or_default o fallback ≠ EmptyString)
    as Hor.
  { intros [s|] fallback Hf; cbn; [|done]. by case_decide. }
  destruct l as [stored fetchAt requests]. cbn [Llm.settings].
  unfold callLlm, loadSettings, getLlmSettings, fetch. run.
  destruct override as [[[[]|] op [[|c k]|] oend om]|],
           stored as [[[] sp [[|c' k']|] send sm]|]; cbn.
  all: split_and!; try done.
  all: try by (match goal with |- context [match ?x with Returned _ => _ | Thrown _ => _ end] =>
                 destruct x as [[? ?|[]]|] end).
  all: intros _ _;
    match goal with |- context [_ ++ [?r]] => exists r end;
    cbn [fetch_url fetch_model fetch_authorization fetch_messages];
    split_and!; try done;
    try (by match goal with |- context [match ?x with Returned _ => _ | Thrown _ => _ end] =>
              destruct x as [[? ?|[]]|] end);
    try (by apply Hor).
  by intros _ ->.
Qed.

(** ** The history of a conversation *)

Lemma hoare_keeps {X A} (f : Background.t → X) (P : Background.t → Prop) (m : BG A) :
  (∀ b b', f b' = f b → P b → P b') → keeps f m → hoare P m (λ _, P) P.
Proof.
  intros HP Hm b Hb. specialize (Hm b).
  assert (P (m b).2) as Hb' by by apply (HP b).
  by destruct (m b) as [[a|e] b'].
Qed.

Lemma hoare_conseq {A} (P P' E E' : Background.t → Prop)
    (Q Q' : A → Background.t → Prop) (m : BG A) :
  hoare P m Q E → (∀ b, P' b → P b) → (∀ a b, Q a b → Q' a b) → (∀ b, E b → E' b) →
  hoare P' m Q' E'.
Proof.
  intros Hm HP HQ HE b Hb. specialize (Hm b (HP b Hb)).
  destruct (m b) as [[a|e] b']; [by apply HQ|by apply HE].
Qed.

Lemma conversationIs_ext conversationId st b b' :
  conversationsOf b' = conversationsOf b →
  conversationIs conversationId st b → conversationIs conversationId st b'.
Proof. unfold conversationIs. intros [= -> ->]. done. Qed.

Lemma conversationIs_set st b :
  conversationIs (ConversationState.conversationId st) st
    ((conversation_set st;; onStorage (saveConversationState st)) b).2.
Proof.
  unfold conversation_set, saveConversationState. run. split; cbn -[upsert].
  - apply lookup_insert_eq.
  - destruct (upsert_storedUnder ConversationState.conversationId st
                (Storage.conversationStates (Background.storage b))) as [Hfind _].
    specialize (Hfind (ConversationState.conversationId st)).
    by rewrite decide_True in Hfind.
Qed.

Section Turn.
Context (cid : string) (tabId : Z).
Context (said : list (ConversationState.Role * string)) (answer : string).

Local Abbreviation holds n := (conversationIs cid (answered cid tabId said answer n)).

Lemma holds_keeps {A} n (m : BG A) :
  keeps conversationsOf m → hoare (holds n) m (λ _, holds n) (holds n).
Proof.
  apply hoare_keeps. intros b b' Hb. by apply conversationIs_ext.
Qed.

Lemma holds_update n n' update E :
  update (answered cid tabId said answer n) = answered cid tabId said answer n' →
  hoare (holds n) (updateConversation cid update) (λ _, holds n') E.
Proof.
  intros Hupdate b [Hmem Hstored]. unfold updateConversation. run.
  rewrite Hmem. rewrite Hupdate.
  pose proof (conversationIs_set (answered cid tabId said answer n') b) as Hset.
  revert Hset. unfold conversation_set. run. done.
Qed.

Lemma answered_S n :
  pushAssistant answer (answered cid tabId said answer n) =
  answered cid tabId said answer (S n).
Proof.
  unfold answered. by rewrite replicate_S_end, app_assoc.
Qed.

Lemma holds_conversationLoop n steps : ∀ buffer executedSteps,
  hoare (holds n) (conversationLoop cid tabId steps buffer executedSteps)
    (λ _, holds n) (holds n).
Proof.
  induction steps as [|step steps IH]; intros buffer executedSteps;
    cbn [conversationLoop].
  - by apply hoare_ret.
  - eapply hoare_bind with (R := λ _, holds n); [|intros [? ?]; apply IH].
    apply hoare_try_catch with (E' := holds n); [|intros ?; by apply hoare_ret].
    eapply hoare_bind; [by apply holds_update|intros ?].
    eapply hoare_bind; [apply holds_keeps; unfold sendStepToTab; keeps_steps|].
    intros [[] ?]; [|by apply hoare_ret].
    eapply hoare_bind; [apply holds_keeps; keeps_steps|intros ?].
    eapply hoare_bind; [apply holds_keeps; keeps_steps|intros ?].
    eapply hoare_bind; [by apply holds_update|intros ?].
    by apply hoare_ret.
Qed.

(** The part of the handler that executes the steps of the answer. *)
Lemma holds_execute currentUrl steps (reportRound : option string) :
  hoare (holds 0)
    (steps ← stepsWithIds currentUrl steps;
     buffer ← openBuffer tabId;
     updateConversation cid (λ st, markActive (pushAssistant answer st));;
     '(buffer, executedSteps) ← conversationLoop cid tabId steps buffer [];
     let reportContent :=
       match last steps with
       | Some lastStep => if isClickOrWait lastStep then reportRound else None
       | None => None
       end in
     tabs_sendMessage tabId StopRecording;;
     cache_delete tabId;;
     onStorage (removeRecordingBuffer tabId);;
     mret (executedSteps, reportContent))
    (λ _, holds 1) (λ b, holds 0 b ∨ holds 1 b).
Proof.
  eapply hoare_bind.
  { eapply hoare_conseq; [by apply holds_keeps, keeps_stepsWithIds|done|done|].
    intros b Hb. left. exact Hb. }
  intros steps'. eapply hoare_bind.
  { eapply hoare_conseq;
      [apply holds_keeps; unfold openBuffer; keeps_steps|done|done|].
    intros b Hb. left. exact Hb. }
  intros buffer. eapply hoare_bind.
  { apply holds_update with (n' := 1). by rewrite answered_S. }
  intros ?. eapply hoare_bind.
  { eapply hoare_conseq; [apply holds_conversationLoop|done|done|].
    intros b Hb. right. exact Hb. }
  intros [buffer' executedSteps]. cbv zeta.
  eapply hoare_conseq; [apply holds_keeps; keeps_steps|done|done|].
  intros b Hb. right. exact Hb.
Qed.
End Turn.

(** X21. What a turn of a conversation leaves in its history. The
    handler first stores the conversation of the request, on the
    active tab and active, with the history of the request followed by
    the message of the user, replacing what was stored under the id.
    When the LLM fails that is all. When the LLM answers, the answer
    follows, once for a turn that executes no steps, and twice for a
    turn that does: the handler enters it before the steps and again
    after them. A turn answered with an error has entered it at most
    once, and was to execute steps. *)
Theorem conversation_turn message cid history currentUrl reportRound b tabId :
  getActiveTabId b = (Returned tabId, b) → cid ≠ EmptyString →
  let turn result :=
    onMessage (ReqRunLlmConversation message (Some cid) history currentUrl result
                 reportRound) b in
  let said := default [] history ++ [(ConversationState.User, message)] in
  (∀ e, (turn (Thrown e)).1 = RespError e ∧
        conversationIs cid (answered cid tabId said EmptyString 0) (turn (Thrown e)).2) ∧
  (∀ r, ∃ n,
     conversationIs cid (answered cid tabId said (response r) n) (turn (Returned r)).2 ∧
     match (turn (Returned r)).1 with
     | RespLlmConversation cid' answer _ _ =>
         cid' = cid ∧ answer = response r ∧
         n = match action r with Some (ActExecute _) => 2 | _ => 1 end
     | RespError _ => n ≤ 1 ∧ ∃ steps, action r = Some (ActExecute steps)
     | _ => False
     end).
Proof.
  intros Htab Hcid turn said. subst turn. cbv beta.
  set (state := ConversationState.mk cid said tabId true).
  assert (∀ answer, answered cid tabId said answer 0 = state) as Hstate.
  { intros answer. unfold answered, state. cbn. by rewrite app_nil_r. }
  pose proof (conversationIs_set state b) as Hset. cbn [ConversationState.conversationId state] in Hset.
  split.
  - intros e. rewrite Hstate. revert Hset.
    unfold onMessage. cbn [dispatch]. unfold handleRunLlmConversation. run.
    rewrite Htab. rewrite decide_False by done. cbn. done.
  - intros r.
    set (Q := λ (resp : BackgroundResponse) b',
           ∃ n, conversationIs cid (answered cid tabId said (response r) n) b' ∧
                match resp with
                | RespLlmConversation cid' answer _ _ =>
                    cid' = cid ∧ answer = response r ∧
                    n = match action r with Some (ActExecute _) => 2 | _ => 1 end
                | RespError _ => n ≤ 1 ∧ ∃ steps, action r = Some (ActExecute steps)
                | _ => False
                end).
    assert (hoare (λ b', b' = b)
              (handleRunLlmConversation message (Some cid) history currentUrl
                 (Returned r) reportRound) Q (λ _, False)) as Hturn.
    2: { specialize (Hturn b eq_refl). unfold onMessage. cbn [dispatch].
         by destruct (handleRunLlmConversation _ _ _ _ _ _ b) as [[resp|e] b']. }
    unfold handleRunLlmConversation.
    set (E' := λ b', ∃ n, conversationIs cid (answered cid tabId said (response r) n) b' ∧
                          n ≤ 1 ∧ ∃ steps, action r = Some (ActExecute steps)).
    apply hoare_try_catch with (E' := E').
    2: { intros e. apply hoare_ret. intros b' (n & Hn & Hle & Hexec). by exists n. }
    eapply hoare_bind with (R := λ t b', b' = b ∧ t = tabId).
    { intros ? ->. by rewrite Htab. }
    intros t. apply hoare_pure. intros ->.
    eapply hoare_bind with (R := λ c b', b' = b ∧ c = cid).
    { intros ? ->. by rewrite decide_False by done. }
    intros c. apply hoare_pure. intros ->. cbv zeta. fold said. fold state.
    eapply hoare_bind with (R := λ _ b', b' = (conversation_set state b).2).
    { by intros ? ->. }
    intros ?.
    eapply hoare_bind
      with (R := λ _, conversationIs cid (answered cid tabId said (response r) 0)).
    { intros ? ->. rewrite Hstate. exact Hset. }
    intros ?.
    eapply hoare_bind
      with (R := λ x b', conversationIs cid (answered cid tabId said (response r) 0) b' ∧
                         x = r).
    { by intros b' Hb'. }
    intros r0. apply hoare_pure. intros ->.
    destruct (action r) as [[steps|reportContent]|] eqn:Haction.
    + eapply hoare_bind.
      { eapply hoare_conseq; [apply holds_execute|done|done|].
        intros b' [Hb'|Hb']; [exists 0|exists 1]; (split; [done|]); split; eauto. }
      intros [executedSteps report].
      eapply hoare_bind; [by apply holds_update, answered_S|intros ?].
      apply hoare_ret. intros b' Hb'. by exists 2.
    + eapply hoare_bind
        with (R := λ _, conversationIs cid (answered cid tabId said (response r) 0));
        [by apply hoare_ret|intros [executedSteps report]].
      eapply hoare_bind; [by apply holds_update, answered_S|intros ?].
      apply hoare_ret. intros b' Hb'. by exists 1.
    + eapply hoare_bind
        with (R := λ _, conversationIs cid (answered cid tabId said (response r) 0));
        [by apply hoare_ret|intros [executedSteps report]].
      eapply hoare_bind; [by apply holds_update, answered_S|intros ?].
      apply hoare_ret. intros b' Hb'. by exists 1.
Qed.

Lemma conversation_turn_witness :
  let b := installed (quietChrome 1) in
  let out := onMessage (ReqRunLlmConversation "click twice" (Some "c1") None
                          "https://example.com/" (Returned twoClicks) None) b in
  ∃ n, conversationIs "c1"
         (answered "c1" 1 [(ConversationState.User, "click twice")] "ok" n) out.2.
Proof.
  intros b out.
  destruct (conversation_turn "click twice" "c1" None "https://example.com/" None b 1)
    as [_ Hanswer].
  - reflexivity.
  - done.
  - destruct (Hanswer twoClicks) as (n & Hn & _). by exists n.
Defined.

(** ** The ids of the tasks, flows and triggers *)

Lemma NoDup_upsert_key {A K} `{EqDecision K} (key : A → K) x (l : list A) :
  NoDup (key <$> l) → NoDup (key <$> upsert (λ y, bool_decide (key y = key x)) x l).
Proof.
  intros Hnd. destruct (upsert_storedUnder key x l) as [_ ->].
  case_decide as Hin; [done|]. apply NoDup_app. split_and!; [done| |apply NoDup_singleton].
  by intros k Hk ->%list_elem_of_singleton.
Qed.

Lemma NoDup_filter_key {A K} (key : A → K) (P : A → Prop) `{∀ x, Decision (P x)}
    (l : list A) :
  NoDup (key <$> l) → NoDup (key <$> filter P l).
Proof.
  intros Hnd. eapply sublist_NoDup; [exact Hnd|]. apply fmap_sublist, sublist_filter.
Qed.

Lemma uniqueIds_saveTask task s : uniqueIds s → uniqueIds (saveTask task s).
Proof. intros (Ht & Hf & Hg). split_and!; [by apply NoDup_upsert_key|done|done]. Qed.

Lemma uniqueIds_saveFlow flow s : uniqueIds s → uniqueIds (saveFlow flow s).
Proof. intros (Ht & Hf & Hg). split_and!; [done|by apply NoDup_upsert_key|done]. Qed.

Lemma uniqueIds_saveTrigger trigger s : uniqueIds s → uniqueIds (saveTrigger trigger s).
Proof. intros (Ht & Hf & Hg). split_and!; [done|done|by apply NoDup_upsert_key]. Qed.

Lemma uniqueIds_deleteTask taskId s : uniqueIds s → uniqueIds (deleteTask taskId s).
Proof. intros (Ht & Hf & Hg). split_and!; [by apply NoDup_filter_key|done|done]. Qed.

Lemma uniqueIds_deleteFlow flowId s : uniqueIds s → uniqueIds (deleteFlow flowId s).
Proof. intros (Ht & Hf & Hg). split_and!; [done|by apply NoDup_filter_key|done]. Qed.

Lemma uniqueIds_deleteTrigger triggerId s : uniqueIds s → uniqueIds (deleteTrigger triggerId s).
Proof. intros (Ht & Hf & Hg). split_and!; [done|done|by apply NoDup_filter_key]. Qed.

Lemma uniqueIds_handleDeleteFlow flowId s :
  uniqueIds s → uniqueIds (handleDeleteFlow_storage flowId s).
Proof.
  intros Hs. apply (uniqueIds_deleteFlow flowId) in Hs.
  unfold handleDeleteFlow_storage, deleteTrigger_all. cbv zeta.
  generalize dependent (deleteFlow flowId s). clear s. intros s (Ht & Hf & Hg).
  set (pending := (λ id, deleteTrigger_start id s) <$> _).
  assert (∀ p, p ∈ pending → pending_triggers p = Storage.triggers s) as Hpending.
  { intros p (id & -> & _)%list_elem_of_fmap. done. }
  clearbody pending.
  pose proof (resume_all_others pending s) as Hothers.
  pose proof (resume_all_triggers pending s) as Htriggers.
  split_and!.
  - pose proof (f_equal Storage.tasks Hothers) as Heq. cbn in Heq. by rewrite Heq.
  - pose proof (f_equal Storage.flows Hothers) as Heq. cbn in Heq. by rewrite Heq.
  - rewrite Htriggers. destruct (last pending) as [p|] eqn:Hlast; [|done].
    rewrite (Hpending p) by by apply last_Some_elem_of.
    by apply NoDup_filter_key.
Qed.

Lemma uniqueIds_merge payload s : uniqueIds (importData payload MergeMode s).
Proof.
  split_and!; cbn; apply mergeById_isMergeOf.
Qed.

Create HintDb uniq.

#[local] Hint Resolve uniqueIds_saveTask uniqueIds_saveFlow uniqueIds_saveTrigger
  uniqueIds_deleteTask uniqueIds_deleteFlow uniqueIds_deleteTrigger
  uniqueIds_handleDeleteFlow uniqueIds_merge : uniq.

Lemma uniq_frame {A} (m : BG A) :
  keeps itemsOf m → hoare uniqueItems m (λ _, uniqueItems) uniqueItems.
Proof.
  apply hoare_keeps. intros b b' [= Ht Hf Hg]. unfold uniqueItems, uniqueIds.
  by rewrite Ht, Hf, Hg.
Qed.

Lemma uniq_write (g : Storage.t → Storage.t) :
  (∀ s, uniqueIds s → uniqueIds (g s)) →
  hoare uniqueItems (onStorage g) (λ _, uniqueItems) uniqueItems.
Proof. intros Hg b Hb. run. by apply Hg. Qed.

Lemma uniq_bind_frame {A B} (m : BG B) (k : B → BG A) Q :
  keeps itemsOf m →
  (∀ x, hoare uniqueItems (k x) Q uniqueItems) →
  hoare uniqueItems (m ≫= k) Q uniqueItems.
Proof.
  intros Hm Hk. eapply hoare_bind; [by apply uniq_frame|]. exact Hk.
Qed.

(** One step of a proof that a handler keeps the ids unique. *)
Ltac uniq_step :=
  first
    [ apply hoare_ret; solve [auto]
    | apply hoare_throw; solve [auto]
    | eapply hoare_bind; [apply uniq_write; solve [auto with uniq]|intros ?]
    | apply uniq_bind_frame; [solve [keeps_steps]|intros ?]
    | apply uniq_frame; solve [keeps_steps]
    | apply hoare_try_catch with (E' := uniqueItems); [|intros ?] ].

Lemma keeps_items_promptLoop tabId steps : ∀ buffer,
  keeps itemsOf (promptLoop tabId steps buffer).
Proof.
  induction steps as [|step steps IH]; intros buffer; cbn [promptLoop].
  - apply keeps_ret.
  - unfold sendStepToTab. keeps_steps.
Qed.

Lemma keeps_items_conversationLoop conversationId tabId steps : ∀ buffer executedSteps,
  keeps itemsOf (conversationLoop conversationId tabId steps buffer executedSteps).
Proof.
  induction steps as [|step steps IH]; intros buffer executedSteps;
    cbn [conversationLoop].
  - apply keeps_ret.
  - apply keeps_bind; [|intros [? ?]; apply IH].
    unfold sendStepToTab. keeps_steps.
Qed.

Lemma keeps_items_handleRunLlmConversation message conversationId history currentUrl
    result reportRound :
  keeps itemsOf
    (handleRunLlmConversation message conversationId history currentUrl result
       reportRound).
Proof.
  unfold handleRunLlmConversation, getActiveTabId.
  apply keeps_try_catch; [|intros; apply keeps_ret].
  apply keeps_bind; [keeps_steps|intros tabId].
  apply keeps_bind; [keeps_steps|intros cid].
  apply keeps_bind; [keeps_steps|intros ?].
  apply keeps_bind; [keeps_steps|intros ?].
  apply keeps_bind; [keeps_steps|intros r].
  apply keeps_bind; [|intros [? ?]; keeps_steps].
  destruct (action r) as [[steps|reportContent]|]; [|keeps_steps..].
  apply keeps_bind; [by apply keeps_stepsWithIds|intros steps'].
  apply keeps_bind; [unfold openBuffer; keeps_steps|intros buffer].
  apply keeps_bind; [keeps_steps|intros ?].
  apply keeps_bind; [|intros [? ?]; keeps_steps].
  apply keeps_items_conversationLoop.
Qed.

Lemma uniq_dispatch message :
  (∀ payload, message ≠ ReqImportData payload (Some ReplaceMode)) →
  hoare uniqueItems (dispatch message) (λ _, uniqueItems) uniqueItems.
Proof.
  intros Hmessage. destruct message; cbn [dispatch].
  - unfold handleStartRecording, getActiveTabId. repeat uniq_step.
  - unfold handleStopRecording, getActiveTabId. do 3 uniq_step.
    destruct (default [] _); repeat uniq_step.
  - apply uniq_frame. unfold handleRecordStep, ensureRecordingBuffer. keeps_steps.
  - repeat uniq_step.
  - repeat uniq_step.
  - repeat uniq_step.
  - unfold handleDeleteFlow. repeat uniq_step.
  - apply uniq_frame. unfold handleRunFlow.
    apply keeps_bind; [by apply keeps_runFlow|intros; apply keeps_ret].
  - unfold handleSaveTrigger. case_decide; repeat uniq_step.
  - repeat uniq_step.
  - unfold handleImportData. destruct mode as [[]|]; [|by destruct (Hmessage payload)|];
      repeat uniq_step.
  - unfold handleRunLlmPrompt, getActiveTabId. uniq_step; [|uniq_step].
    uniq_step.
    eapply hoare_bind with (R := λ _, uniqueItems).
    { intros b Hb. by destruct parsedSteps. }
    intros steps.
    apply uniq_bind_frame; [by apply keeps_stepsWithIds|intros steps'].
    apply uniq_bind_frame; [unfold openBuffer; keeps_steps|intros buffer].
    apply uniq_bind_frame; [apply keeps_items_promptLoop|intros buffer'].
    uniq_step. destruct (RecordingBuffer.steps buffer'); repeat uniq_step.
  - apply uniq_frame. apply keeps_items_handleRunLlmConversation.
Qed.

(** X22. The ids stay unique. A merge import leaves a store in which
    no two tasks, no two flows and no two triggers have the same id,
    whatever was stored and whatever comes in. And once the ids of a
    store are unique they stay so: through every request but an import
    that replaces, which stores the payload as it is, through every
    run of a flow and through a restart. *)
Theorem ids_stay_unique b :
  (∀ payload mode, mode ≠ Some ReplaceMode →
     uniqueItems (onMessage (ReqImportData payload mode) b).2) ∧
  (uniqueItems b →
   (∀ message, (∀ payload, message ≠ ReqImportData payload (Some ReplaceMode)) →
               uniqueItems (onMessage message b).2) ∧
   (∀ flowId tabId triggeredBy, uniqueItems (runFlow flowId tabId triggeredBy b).2) ∧
   uniqueItems (hydrate b)).
Proof.
  split_and!.
  - intros payload mode Hmode. unfold onMessage, uniqueItems. cbn.
    destruct mode as [[]|]; [|done|]; apply uniqueIds_merge.
  - intros Hb. split_and!.
    + intros message Hmessage. unfold onMessage.
      pose proof (uniq_dispatch message Hmessage b Hb) as Hrun.
      by destruct (dispatch message b) as [[response|e] b'].
    + intros flowId tabId triggeredBy.
      pose proof (keeps_runFlow itemsOf flowId tabId triggeredBy) as Hkeeps.
      pose proof (uniq_frame _ (Hkeeps ltac:(done) ltac:(done)) b Hb) as Hrun.
      by destruct (runFlow flowId tabId triggeredBy b) as [[[]|e] b'].
    + done.
Qed.

(** ** The conversation states are kept *)

Section Conversations.
Context (I : Background.t → Prop).
Hypothesis I_frame : ∀ b b', conversationsOf b' = conversationsOf b → I b → I b'.
Hypothesis I_start : ∀ st b,
  ConversationState.isActive st = true →
  I b → I ((conversation_set st;; onStorage (saveConversationState st)) b).2.
Hypothesis I_update : ∀ conversationId update b,
  (∀ st, ConversationState.isActive st = true →
         ConversationState.isActive (update st) = true) →
  I b → I (updateConversation conversationId update b).2.

Lemma kept_frame {A} (m : BG A) : keeps conversationsOf m → hoare I m (λ _, I) I.
Proof using I_frame. by apply hoare_keeps. Qed.

Lemma kept_update conversationId update :
  (∀ st, ConversationState.isActive st = true →
         ConversationState.isActive (update st) = true) →
  hoare I (updateConversation conversationId update) (λ _, I) I.
Proof using I_update.
  intros Hupdate b Hb. pose proof (I_update conversationId update b Hupdate Hb) as Hb'.
  destruct (updateConversation_run conversationId update b) as (b' & Hrun & _).
  by rewrite Hrun in Hb' |- *.
Qed.

Lemma kept_conversationLoop conversationId tabId steps : ∀ buffer executedSteps,
  hoare I (conversationLoop conversationId tabId steps buffer executedSteps)
    (λ _, I) I.
Proof using I_frame I_update.
  induction steps as [|step steps IH]; intros buffer executedSteps;
    cbn [conversationLoop].
  - by apply hoare_ret.
  - eapply hoare_bind with (R := λ _, I); [|intros [? ?]; apply IH].
    apply hoare_try_catch with (E' := I); [|intros ?; by apply hoare_ret].
    eapply hoare_bind; [by apply kept_update|intros ?].
    eapply hoare_bind; [apply kept_frame; unfold sendStepToTab; keeps_steps|].
    intros [[] ?]; [|by apply hoare_ret].
    eapply hoare_bind; [apply kept_frame; keeps_steps|intros ?].
    eapply hoare_bind; [apply kept_frame; keeps_steps|intros ?].
    eapply hoare_bind; [by apply kept_update|intros ?].
    by apply hoare_ret.
Qed.

Lemma kept_handleRunLlmConversation message conversationId history currentUrl result
    reportRound :
  hoare I
    (handleRunLlmConversation message conversationId history currentUrl result
       reportRound) (λ _, I) I.
Proof using All.
  unfold handleRunLlmConversation, getActiveTabId.
  apply hoare_try_catch with (E' := I); [|intros ?; by apply hoare_ret].
  eapply hoare_bind; [apply kept_frame; keeps_steps|intros tabId].
  eapply hoare_bind; [apply kept_frame; keeps_steps|intros cid]. cbv zeta.
  set (state := ConversationState.mk cid _ tabId true).
  eapply hoare_bind
    with (R := λ _ b', ∃ b, I b ∧ b' = (conversation_set state b).2).
  { intros b Hb. by exists b. }
  intros ?. eapply hoare_bind with (R := λ _, I).
  { intros b' (b & Hb & ->). by apply (I_start state b). }
  intros ?. eapply hoare_bind with (R := λ _, I).
  { intros b Hb. by destruct result. }
  intros r. eapply hoare_bind with (R := λ _, I).
  2: { intros [? ?]. eapply hoare_bind; [by apply kept_update|intros ?].
       by apply hoare_ret. }
  destruct (action r) as [[steps|reportContent]|]; [|by apply hoare_ret..].
  eapply hoare_bind; [by apply kept_frame, keeps_stepsWithIds|intros steps'].
  eapply hoare_bind; [apply kept_frame; unfold openBuffer; keeps_steps|intros buffer].
  eapply hoare_bind; [by apply kept_update|intros ?].
  eapply hoare_bind; [apply kept_conversationLoop|intros [? ?]].
  cbv zeta. apply kept_frame. keeps_steps.
Qed.
End Conversations.

Lemma keeps_conversations_promptLoop tabId steps : ∀ buffer,
  keeps conversationsOf (promptLoop tabId steps buffer).
Proof.
  induction steps as [|step steps IH]; intros buffer; cbn [promptLoop].
  - apply keeps_ret.
  - unfold sendStepToTab. keeps_steps.
Qed.

Lemma handleDeleteFlow_conversations flowId s :
  Storage.conversationStates (handleDeleteFlow_storage flowId s) =
  Storage.conversationStates s.
Proof.
  unfold handleDeleteFlow_storage, deleteTrigger_all. cbv zeta.
  exact (f_equal Storage.conversationStates (resume_all_others _ (deleteFlow flowId s))).
Qed.

Lemma keeps_conversations_dispatch message :
  (∀ text conversationId history currentUrl result reportRound,
     message ≠ ReqRunLlmConversation text conversationId history currentUrl result
                 reportRound) →
  keeps conversationsOf (dispatch message).
Proof.
  intros Hmessage. destruct message; cbn [dispatch].
  - unfold handleStartRecording, getActiveTabId. keeps_steps.
  - unfold handleStopRecording, getActiveTabId. keeps_steps.
  - unfold handleRecordStep, ensureRecordingBuffer. keeps_steps.
  - keeps_steps.
  - keeps_steps.
  - keeps_steps.
  - unfold handleDeleteFlow. apply keeps_bind; [|intros; apply keeps_ret].
    intros b. unfold conversationsOf. run. destruct b as [c s rb cs].
    cbn [snd Background.storage Background.set_storage Background.conversationStates].
    by rewrite handleDeleteFlow_conversations.
  - unfold handleRunFlow.
    apply keeps_bind; [by apply keeps_runFlow|intros; apply keeps_ret].
  - unfold handleSaveTrigger. keeps_steps.
  - keeps_steps.
  - unfold handleImportData. apply keeps_bind; [|intros; apply keeps_ret].
    intros b. by destruct (default MergeMode mode).
  - unfold handleRunLlmPrompt, getActiveTabId.
    apply keeps_try_catch; [|intros; apply keeps_ret].
    apply keeps_bind; [keeps_steps|intros tabId].
    apply keeps_bind; [keeps_steps|intros steps].
    apply keeps_bind; [by apply keeps_stepsWithIds|intros steps'].
    apply keeps_bind; [unfold openBuffer; keeps_steps|intros buffer].
    apply keeps_bind; [apply keeps_conversations_promptLoop|intros buffer'].
    keeps_steps.
  - by destruct (Hmessage message conversationId history currentUrl result reportRound).
Qed.

Lemma stored_start conversationId st b :
  conversationId ∈ conversationIds b →
  conversationId ∈
    conversationIds ((conversation_set st;; onStorage (saveConversationState st)) b).2.
Proof.
  unfold conversationIds, conversation_set, saveConversationState. run. cbn -[upsert].
  destruct (upsert_storedUnder ConversationState.conversationId st
              (Storage.conversationStates (Background.storage b))) as [_ ->].
  case_decide; [done|]. intros Hin. apply elem_of_app. by left.
Qed.

Lemma stored_update conversationId other update b :
  conversationId ∈ conversationIds b →
  conversationId ∈ conversationIds (updateConversation other update b).2.
Proof.
  intros Hin. unfold updateConversation. run.
  destruct (Background.conversationStates b !! other) as [st|]; [|done].
  by apply (stored_start conversationId (update st) b).
Qed.

Lemma everActive_start st b :
  ConversationState.isActive st = true →
  everActive b →
  everActive ((conversation_set st;; onStorage (saveConversationState st)) b).2.
Proof.
  intros Hst [Hstored Hmemory].
  unfold everActive, conversation_set, saveConversationState. run. cbn -[upsert]. split.
  - apply Forall_forall. intros st' [->|Hin]%elem_of_upsert; [done|].
    by eapply Forall_forall in Hstored.
  - by apply map_Forall_insert_2.
Qed.

Lemma everActive_update conversationId update b :
  (∀ st, ConversationState.isActive st = true →
         ConversationState.isActive (update st) = true) →
  everActive b → everActive (updateConversation conversationId update b).2.
Proof.
  intros Hupdate Hb. unfold updateConversation. run.
  destruct (Background.conversationStates b !! conversationId) as [st|] eqn:Hst;
    [|done].
  apply (everActive_start (update st) b); [|done].
  apply Hupdate. destruct Hb as [_ Hmemory]. by apply (Hmemory conversationId).
Qed.

(** X23. No conversation is ever dropped or closed. A request or a
    run never removes a conversation state from the store, where
    [deleteConversationState] is called by no handler; and it never
    marks one inactive: when all the states, stored and in memory, are
    active before a request, they are after it. Only the conversation
    handler touches the states at all. *)
Theorem conversations_are_kept message b :
  (∀ conversationId,
     conversationId ∈ conversationIds b →
     conversationId ∈ conversationIds (onMessage message b).2) ∧
  (everActive b → everActive (onMessage message b).2) ∧
  ((∀ text conversationId history currentUrl result reportRound,
      message ≠ ReqRunLlmConversation text conversationId history currentUrl result
                  reportRound) →
   conversationsOf (onMessage message b).2 = conversationsOf b) ∧
  (∀ flowId tabId triggeredBy,
     conversationsOf (runFlow flowId tabId triggeredBy b).2 = conversationsOf b).
Proof.
  assert (∀ I : Background.t → Prop,
            (∀ b b', conversationsOf b' = conversationsOf b → I b → I b') →
            (∀ st b, ConversationState.isActive st = true → I b →
                     I ((conversation_set st;; onStorage (saveConversationState st)) b).2) →
            (∀ conversationId update b,
               (∀ st, ConversationState.isActive st = true →
                      ConversationState.isActive (update st) = true) →
               I b → I (updateConversation conversationId update b).2) →
            I b → I (onMessage message b).2) as Hkept.
  { intros I I_frame I_start I_update Hb. unfold onMessage.
    assert (hoare I (dispatch message) (λ _, I) I) as Hrun.
    { destruct message;
        try (apply (hoare_keeps conversationsOf); [done|];
             by apply keeps_conversations_dispatch).
      by apply kept_handleRunLlmConversation. }
    specialize (Hrun b Hb). by destruct (dispatch message b) as [[response|e] b']. }
  split_and!.
  - intros conversationId. apply (Hkept (λ b, conversationId ∈ conversationIds b)).
    + unfold conversationIds, conversationsOf. by intros b1 b2 [= -> _].
    + intros st b' _. apply stored_start.
    + intros other update b' _. apply stored_update.
  - apply (Hkept everActive).
    + unfold everActive, conversationsOf. by intros b1 b2 [= -> ->].
    + apply everActive_start.
    + apply everActive_update.
  - intros Hmessage. unfold onMessage.
    pose proof (keeps_conversations_dispatch message Hmessage b) as Hrun.
    by destruct (dispatch message b) as [[response|e] b'].
  - intros flowId tabId triggeredBy. by apply keeps_runFlow.
Qed.

(** ** The prompt handler when the tab does not answer *)

(** The loop keeps the buffer it returns in memory and in the store. *)
Lemma promptLoop_stored tabId steps : ∀ buffer b,
  RecordingBuffer.tabId buffer = tabId →
  Background.recordingBuffers b !! tabId = Some buffer →
  getRecordingBuffer tabId (Background.storage b) = Some buffer →
  ∃ buffer' b',
    promptLoop tabId steps buffer b = (Returned buffer', b') ∧
    Background.recordingBuffers b' !! tabId = Some buffer' ∧
    getRecordingBuffer tabId (Background.storage b') = Some buffer'.
Proof.
  induction steps as [|step steps IH]; intros buffer b Htab Hcache Hstored.
  - by exists buffer, b.
  - cbn [promptLoop]. unfold sendStepToTab, tabs_sendMessage, cache_set. run.
    destruct (Chrome.respond _ _ _ _) as [lastError|[] errorMessage]; cbn;
      apply IH; try done; cbn; rewrite ?Htab;
      first [apply lookup_insert_eq|apply find_upsert; by apply bool_decide_eq_true].
Qed.


(** X24. The prompt handler when the tab does not answer. An answer
    of the LLM that cannot be parsed is returned as the error: nothing
    is stored and no recording is started. The buffer of the recording is stored before
    [StartRecording] is sent: when the tab rejects that message the
    request fails with its error and the empty buffer stays behind, in
    memory and in the store; when the tab rejects [StopRecording]
    after the steps, the request fails, no task is saved, and a
    buffer stays behind, in memory and in the store. What that buffer
    holds is not stated: the recorder of the tab adds what it captures
    to the buffer the loop fills. An answer without steps ends in
    "No steps were executed" with the buffer removed. *)
Theorem prompt_when_tab_is_silent prompt taskName description currentUrl b tabId :
  getActiveTabId b = (Returned tabId, b) →
  let run parsed :=
    onMessage (ReqRunLlmPrompt prompt taskName description currentUrl parsed) b in
  let n := length (sentOf b) in
  (∀ e, run (Thrown e) = (RespError e, b)) ∧
  (∀ raw e,
     respondOf b n tabId StartRecording = Rejected e →
     (run (Returned raw)).1 = RespError e ∧
     recordingOn tabId [] (run (Returned raw)).2 ∧
     tasksOf (run (Returned raw)).2 = tasksOf b) ∧
  (∀ raw e,
     (∃ success reply, respondOf b n tabId StartRecording = Resolved success reply) →
     respondOf b (S n + length raw) tabId StopRecording = Rejected e →
     (run (Returned raw)).1 = RespError e ∧
     (∃ recorded, recordingOn tabId recorded (run (Returned raw)).2) ∧
     tasksOf (run (Returned raw)).2 = tasksOf b) ∧
  ((∃ success reply, respondOf b n tabId StartRecording = Resolved success reply) →
   (∃ success reply, respondOf b (S n) tabId StopRecording = Resolved success reply) →
   (run (Returned [])).1 = RespError "No steps were executed" ∧
   recordingOff tabId (run (Returned [])).2 ∧
   tasksOf (run (Returned [])).2 = tasksOf b).
Proof.
  intros Htab run n. subst run. cbv beta. split_and!.
  - intros e. unfold onMessage. cbn [dispatch]. unfold handleRunLlmPrompt. run.
    by rewrite Htab.
  - intros raw e Hstart.
    destruct (stepsWithIds_run currentUrl raw b)
      as (steps & b1 & Hsteps & Hrespond1 & Hsent1 & Hstorage1 & Hlength).
    unfold onMessage. cbn [dispatch]. unfold handleRunLlmPrompt. run.
    rewrite Htab, Hsteps.
    unfold openBuffer, randomId, nowIso, cache_set, tabs_sendMessage. run. cbn.
    unfold respondOf, sentOf in *. rewrite Hrespond1, Hsent1. fold n. rewrite Hstart.
    cbn. split_and!; [done| |by unfold tasksOf; cbn; rewrite Hstorage1].
    eexists (RecordingBuffer.mk tabId _ [] _). split_and!; [| |done].
    + cbn. apply lookup_insert_eq.
    + unfold getRecordingBuffer, upsertRecordingBuffer. cbn.
      apply find_upsert. by apply bool_decide_eq_true.
  - intros raw e (s0 & r0 & Hstart) Hstop.
    destruct (stepsWithIds_run currentUrl raw b)
      as (steps & b1 & Hsteps & Hrespond1 & Hsent1 & Hstorage1 & Hlength).
    unfold onMessage. cbn [dispatch]. unfold handleRunLlmPrompt. run.
    rewrite Htab, Hsteps.
    unfold openBuffer, randomId, nowIso, cache_set, tabs_sendMessage. run. cbn.
    unfold respondOf, sentOf in *. rewrite Hrespond1, Hsent1. fold n. rewrite Hstart.
    match goal with |- context [promptLoop tabId steps ?buf ?b2] =>
      destruct (promptLoop_spec tabId steps buf b2)
        as (b3 & buffer' & Hrun & Hrecorded & Hsent3 & Hrespond3 & Htasks3);
      destruct (promptLoop_stored tabId steps buf b2)
        as (buffer'' & b3' & Hrun' & Hcache3 & Hstored3)
    end.
    { done. }
    { cbn. apply lookup_insert_eq. }
    { unfold getRecordingBuffer, upsertRecordingBuffer. cbn.
      apply find_upsert. by apply bool_decide_eq_true. }
    rewrite Hrun in Hrun'. injection Hrun' as <- <-.
    revert Hrun Hrecorded Hsent3 Hrespond3 Htasks3.
    unfold respondOf, sentOf, tasksOf. cbn. rewrite ?Hrespond1, ?Hsent1, length_app. cbn.
    rewrite Nat.add_1_r. fold n. intros Hrun Hrecorded Hsent3 Hrespond3 Htasks3.
    rewrite Hrun, Hrespond3, Hsent3. rewrite !length_app. unfold executeMessages.
    rewrite length_fmap. cbn [length].
    replace (length (Chrome.sent (Background.chrome b)) + 1 + length steps)
      with (S n + length raw) by (subst n; lia).
    rewrite Hstop. cbn. split_and!; [done| |by rewrite Htasks3, Hstorage1].
    exists (RecordingBuffer.steps buffer'). by exists buffer'.
  - intros (s0 & r0 & Hstart) (s1 & r1 & Hstop).
    unfold onMessage. cbn [dispatch]. unfold handleRunLlmPrompt. run.
    rewrite Htab. cbn.
    unfold openBuffer, randomId, nowIso, cache_set, cache_delete, tabs_sendMessage.
    run. cbn. unfold respondOf, sentOf in *. fold n. rewrite Hstart. cbn.
    rewrite length_app. cbn. rewrite Nat.add_1_r. fold n. rewrite Hstop. cbn.
    split_and!; [done| |done]. split; cbn.
    + apply lookup_delete_eq.
    + apply find_filter_out. intros buffer Hb%bool_decide_eq_true. by intros ?.
Qed.

Lemma prompt_when_tab_is_silent_witness :
  let b := installed (quietChrome 1) in
  let out := onMessage (ReqRunLlmPrompt "do nothing" None None "https://example.com/"
                          (Returned [])) b in
  let closed := installed stopRejectedChrome in
  let left := onMessage (ReqRunLlmPrompt "click" None None "https://example.com/"
                           (Returned [sampleStep "s1" Click "#btn"])) closed in
  (out.1 = RespError "No steps were executed" ∧ recordingOff 1 out.2) ∧
  (left.1 = RespError "The tab was closed" ∧
   (∃ recorded, recordingOn 1 recorded left.2) ∧ tasksOf left.2 = []).
Proof.
  intros b out closed left. split.
  - destruct (prompt_when_tab_is_silent "do nothing" None None "https://example.com/" b 1)
      as (_ & _ & _ & Hempty); [reflexivity|].
    destruct Hempty as (Hresponse & Hoff & _).
    + by exists true, None.
    + by exists true, None.
    + by split.
  - destruct (prompt_when_tab_is_silent "click" None None "https://example.com/" closed 1)
      as (_ & _ & Hstop & _); [reflexivity|].
    apply (Hstop [sampleStep "s1" Click "#btn"] "The tab was closed").
    + by exists true, None.
    + reflexivity.
Defined.
